(** * gopengraph: a shallow embedding of the graph container

    The Go packages [properties], [node], [edge] and the root package
    [gopengraph] are embedded module by module.  A Go method with a pointer
    receiver becomes a function that takes the object and hands the updated
    object back next to the method's own result.

    Conventions.
    - [map[string]T] is a [gmap string T]; a [map[string]bool] that only ever
      receives [true] is a [gset string].
    - A slice that is only ranged over or measured is a [list]; where the
      difference between a nil slice and an empty one can be observed (the
      result of [FindPaths], the arrays handed to the JSON encoder) it is a
      [slice].
    - [*Node] and [*Edge] are modelled by the value they point to.  The
      only write through such a pointer in the modelled code is the one of
      [AddNode], which therefore returns the node as well.
    - Property values are Go [interface{}] values; the container never looks
      inside them, so their type is a parameter [Value]. *)

From stdpp Require Import gmap strings list fin_maps pretty sorting.
From Stdlib Require Import ZArith Ascii.

Set Warnings "-register-all".
Local Open Scope Z_scope.
Local Open Scope nat_scope.

(** ** Go runtime notions *)

(** A Go slice value: [nil], or a (possibly empty) allocated sequence. *)
Inductive slice (A : Type) : Type :=
| nil_slice
| mk_slice (l : list A).
Arguments nil_slice {A}.
Arguments mk_slice {A} l.

Definition elems {A} (s : slice A) : list A :=
  match s with nil_slice => [] | mk_slice l => l end.

(** [len(s)] *)
Definition len {A} (s : slice A) : nat := length (elems s).

(** [append(s, x)]: never nil. *)
Definition append {A} (s : slice A) (x : A) : slice A :=
  mk_slice (elems s ++ [x]).

(** A Go pair [(T, error)], the error being built by [fmt.Errorf]. *)
Inductive result (A : Type) : Type :=
| Ok (a : A)
| Err (msg : string).
Arguments Ok {A} a.
Arguments Err {A} msg.

(** The values of the [map[string]interface{}] dictionaries that [ToDict]
    builds: a string, a [[]string], a [map[string]string], or a dictionary
    of property values. *)
Inductive Dyn (Value : Type) : Type :=
| DString (s : string)
| DStrings (l : slice string)
| DStringMap (m : gmap string string)
| DProps (m : gmap string Value).
Arguments DString {Value} s.
Arguments DStrings {Value} l.
Arguments DStringMap {Value} m.
Arguments DProps {Value} m.

(** A call that may panic: it returns, or it stops with the panic value. *)
Inductive outcome (A : Type) : Type :=
| Returns (a : A)
| Panics (msg : string).
Arguments Returns {A} a.
Arguments Panics {A} msg.

(** [reflect.Kind]. *)
Module reflect.
Inductive Kind : Type :=
| Invalid | Bool | Int | Int8 | Int16 | Int32 | Int64
| Uint | Uint8 | Uint16 | Uint32 | Uint64 | Uintptr
| Float32 | Float64 | Complex64 | Complex128
| Array | Chan | Func | Interface | Map | Pointer | Slice | String | Struct
| UnsafePointer.
End reflect.

(** What the code asks of an [interface{}] value: the nil interface, the
    test [value == nil], [reflect.TypeOf(value).Kind()] of a value that is
    not nil, and the type name that [%T] prints. *)
Class Reflect (Value : Type) : Type := {
  nilValue : Value;
  isNil : Value → bool;
  kindOf : Value → reflect.Kind;
  typeName : Value → string
}.

(** ** Package [properties] *)
Module properties.
Section defs.
Context {Value : Type}.

(** [type Properties struct { Properties map[string]interface{} }] *)
Record Properties : Type := mk { entries : gmap string Value }.

Definition NewProperties : Properties := mk ∅.

Definition HasProperty (p : Properties) (key : string) : bool :=
  bool_decide (is_Some (entries p !! key)).

(** The loop [for k, v := range p.Properties { result[k] = v }]. *)
Definition GetAllProperties (p : Properties) : gmap string Value :=
  map_fold (fun k v result => <[k := v]> result) ∅ (entries p).

Definition ToDict (p : Properties) : gmap string Value := GetAllProperties p.

Definition Len (p : Properties) : nat := size (entries p).

Definition RemoveProperty (p : Properties) (key : string) : Properties :=
  mk (delete key (entries p)).

Definition Clear (p : Properties) : Properties := mk ∅.

Definition Contains (p : Properties) (key : string) : bool := HasProperty p key.

Context `{!Reflect Value}.

Definition IsPropertyValueValid (value : Value) : bool :=
  if isNil value then true
  else
    match kindOf value with
    | reflect.String | reflect.Int | reflect.Int8 | reflect.Int16 | reflect.Int32
    | reflect.Int64 | reflect.Uint | reflect.Uint8 | reflect.Uint16
    | reflect.Uint32 | reflect.Uint64 | reflect.Float32 | reflect.Float64
    | reflect.Bool | reflect.Slice => true
    | _ => false
    end.

Definition SetProperty (p : Properties) (key : string) (value : Value)
    : outcome Properties :=
  if IsPropertyValueValid value then Returns (mk (<[key := value]> (entries p)))
  else Panics
    ("Property value must be a primitive type (string, int, float64, bool, nil, slice), got "
     +:+ typeName value).

(** [defaultVal] is the variadic parameter. *)
Definition GetProperty (p : Properties) (key : string) (defaultVal : list Value)
    : Value :=
  match entries p !! key with
  | Some value => value
  | None =>
    match defaultVal with
    | d :: _ => d
    | [] => nilValue
    end
  end.

(** [NewPropertiesFromMap] when [range values] yields the entries in the
    order [order]. *)
Definition NewPropertiesFromMapIn (order : list (string * Value))
    : outcome Properties :=
  foldl (fun acc kv =>
           match acc with
           | Returns p => SetProperty p kv.1 kv.2
           | Panics msg => Panics msg
           end)
        (Returns NewProperties) order.

Definition NewPropertiesFromMap (values : gmap string Value) : outcome Properties :=
  NewPropertiesFromMapIn (map_to_list values).

End defs.
Arguments Properties Value : clear implicits.
End properties.

(** ** Package [node] *)
Module node.
Section defs.
Context {Value : Type}.

Record Node : Type := mk {
  id : string;
  kinds : list string;
  properties : properties.Properties Value
}.

(** [kinds] and [p] may be nil; both are then replaced by fresh empty ones. *)
Definition NewNode (id : string) (kinds : slice string)
    (p : option (properties.Properties Value)) : result Node :=
  if bool_decide (id = "") then Err "node ID cannot be empty"
  else Ok (mk id (elems kinds) (default properties.NewProperties p)).

Definition GetID (n : Node) : string := id n.

Definition GetKinds (n : Node) : list string := kinds n.

Definition HasKind (n : Node) (kind : string) : bool :=
  existsb (fun k => bool_decide (k = kind)) (kinds n).

Definition AddKind (n : Node) (kind : string) : Node :=
  if negb (HasKind n kind) then mk (id n) (kinds n ++ [kind]) (properties n)
  else n.

Definition ToDict (n : Node) : gmap string (Dyn Value) :=
  <["id" := DString (id n)]>
  (<["kinds" := DStrings (mk_slice ([] ++ kinds n))]>
  (<["properties" := DProps (properties.GetAllProperties (properties n))]> ∅)).

(** [other] is a pointer and may be nil. *)
Definition Equal (n : Node) (other : option Node) : bool :=
  match other with
  | None => false
  | Some o => bool_decide (id n = id o)
  end.

(** The loop finds the first index [i] with [kinds[i] == kind]; the list
    becomes [append(kinds[:i], kinds[i+1:]...)]. *)
Definition RemoveKind (n : Node) (kind : string) : Node :=
  match list_find (fun k => k = kind) (kinds n) with
  | Some (i, _) => mk (id n) (take i (kinds n) ++ drop (S i) (kinds n)) (properties n)
  | None => n
  end.

Definition GetProperties (n : Node) : properties.Properties Value := properties n.

Definition RemoveProperty (n : Node) (key : string) : Node :=
  mk (id n) (kinds n) (properties.RemoveProperty (properties n) key).

Context `{!Reflect Value}.

Definition SetProperty (n : Node) (key : string) (value : Value) : outcome Node :=
  match properties.SetProperty (properties n) key value with
  | Returns p => Returns (mk (id n) (kinds n) p)
  | Panics msg => Panics msg
  end.

Definition GetProperty (n : Node) (key : string) (defaultVal : list Value) : Value :=
  properties.GetProperty (properties n) key defaultVal.

End defs.
Arguments Node Value : clear implicits.
End node.

(** ** Package [edge] *)
Module edge.
Section defs.
Context {Value : Type}.

Record Edge : Type := mk {
  startNodeID : string;
  endNodeID : string;
  kind : string;
  properties : properties.Properties Value
}.

Definition NewEdge (startNodeID endNodeID kind : string)
    (p : option (properties.Properties Value)) : result Edge :=
  if bool_decide (startNodeID = "") then Err "start node ID cannot be empty"
  else if bool_decide (endNodeID = "") then Err "end node ID cannot be empty"
  else if bool_decide (kind = "") then Err "edge kind cannot be empty"
  else Ok (mk startNodeID endNodeID kind (default properties.NewProperties p)).

Definition GetStartNodeID (e : Edge) : string := startNodeID e.
Definition GetEndNodeID (e : Edge) : string := endNodeID e.
Definition GetKind (e : Edge) : string := kind e.

Definition ToDict (e : Edge) : gmap string (Dyn Value) :=
  let edgeDict : gmap string (Dyn Value) :=
    <["kind" := DString (kind e)]>
    (<["start" := DStringMap (<["value" := startNodeID e]> (<["match_by" := "id"]> ∅))]>
    (<["end" := DStringMap (<["value" := endNodeID e]> (<["match_by" := "id"]> ∅))]> ∅)) in
  let props := properties.ToDict (properties e) in
  if bool_decide (0 < size props) then <["properties" := DProps props]> edgeDict
  else edgeDict.

Definition Equal (e : Edge) (other : option Edge) : bool :=
  match other with
  | None => false
  | Some o =>
      bool_decide (startNodeID e = startNodeID o)
      && bool_decide (endNodeID e = endNodeID o)
      && bool_decide (kind e = kind o)
  end.

End defs.
Arguments Edge Value : clear implicits.
End edge.

(** ** Package [gopengraph]: the container and its mutators *)
Section graph.
Context {Value : Type}.

Record OpenGraph : Type := mkOpenGraph {
  nodes : gmap string (node.Node Value);
  edges : list (edge.Edge Value);
  sourceKind : string
}.

Definition NewOpenGraph (sourceKind : string) : OpenGraph :=
  mkOpenGraph ∅ [] sourceKind.

Definition AddEdgeWithoutValidation (g : OpenGraph) (e : edge.Edge Value)
    : bool * OpenGraph :=
  (true, mkOpenGraph (nodes g) (edges g ++ [e]) (sourceKind g)).

Definition AddEdge (g : OpenGraph) (e : edge.Edge Value) : bool * OpenGraph :=
  match nodes g !! edge.GetStartNodeID e with
  | None => (false, g)
  | Some _ =>
    match nodes g !! edge.GetEndNodeID e with
    | None => (false, g)
    | Some _ =>
      if existsb (fun e' => edge.Equal e' (Some e)) (edges g) then (false, g)
      else AddEdgeWithoutValidation g e
    end
  end.

Definition AddNodeWithoutValidation (g : OpenGraph) (n : node.Node Value)
    : bool * OpenGraph :=
  (true, mkOpenGraph (<[node.GetID n := n]> (nodes g)) (edges g) (sourceKind g)).

(** The node is passed by pointer and [AddKind] writes through it: the
    second component is the caller's node after the call. *)
Definition AddNode (g : OpenGraph) (n : node.Node Value)
    : bool * node.Node Value * OpenGraph :=
  match nodes g !! node.GetID n with
  | Some _ => (false, n, g)
  | None =>
    let n' :=
      if negb (bool_decide (sourceKind g = "")) && negb (node.HasKind n (sourceKind g))
      then node.AddKind n (sourceKind g) else n in
    let '(ok, g') := AddNodeWithoutValidation g n' in
    (ok, n', g')
  end.

Definition RemoveNodeByID (g : OpenGraph) (id : string) : bool * OpenGraph :=
  match nodes g !! id with
  | None => (false, g)
  | Some _ =>
    let newEdges :=
      List.filter (fun e => negb (bool_decide (edge.GetStartNodeID e = id))
                       && negb (bool_decide (edge.GetEndNodeID e = id)))
             (edges g) in
    (true, mkOpenGraph (delete id (nodes g)) newEdges (sourceKind g))
  end.

Definition GetNode (g : OpenGraph) (id : string) : option (node.Node Value) :=
  nodes g !! id.

Definition GetEdgesFromNode (g : OpenGraph) (id : string) : list (edge.Edge Value) :=
  List.filter (fun e => bool_decide (edge.GetStartNodeID e = id)) (edges g).

Definition GetEdgesToNode (g : OpenGraph) (id : string) : list (edge.Edge Value) :=
  List.filter (fun e => bool_decide (edge.GetEndNodeID e = id)) (edges g).

Definition GetNodeCount (g : OpenGraph) : nat := size (nodes g).
Definition GetEdgeCount (g : OpenGraph) : nat := length (edges g).

Definition Clear (g : OpenGraph) : OpenGraph := mkOpenGraph ∅ [] (sourceKind g).

(** *** Path enumeration *)

(** The anonymous struct [{id string; path []string}] of the queue. *)
Record queueItem : Type := mkItem { item_id : string; item_path : list string }.

(** The three variables the search loop updates. *)
Record search : Type := mkSearch {
  paths : slice (list string);
  visited : gset string;
  queue : list queueItem
}.

(** Body of [for _, edge := range g.GetEdgesFromNode(current.id)]. *)
Definition visit (endID : string) (current : queueItem) (st : search)
    (e : edge.Edge Value) : search :=
  let nextID := edge.GetEndNodeID e in
  if bool_decide (nextID ∈ visited st) then st
  else
    let newPath := ([] ++ item_path current) ++ [nextID] in
    if bool_decide (nextID = endID)
    then mkSearch (append (paths st) newPath) (visited st) (queue st)
    else mkSearch (paths st) ({[nextID]} ∪ visited st)
                  (queue st ++ [mkItem nextID newPath]).

(** The loop [for len(queue) > 0 && len(queue[0].path) <= maxDepth].  Each
    unit of [fuel] pays for one iteration; [None] means the fuel ran out
    while the loop condition still held. *)
Fixpoint bfs (fuel : nat) (g : OpenGraph) (endID : string) (maxDepth : Z)
    (st : search) : option (slice (list string)) :=
  match queue st with
  | [] => Some (paths st)
  | current :: rest =>
    if bool_decide (Z.of_nat (length (item_path current)) ≤ maxDepth)%Z then
      match fuel with
      | O => None
      | S fuel' =>
        bfs fuel' g endID maxDepth
          (foldl (visit endID current)
                 (mkSearch (paths st) (visited st) rest)
                 (GetEdgesFromNode g (item_id current)))
      end
    else Some (paths st)
  end.

(** [maxDepth] is a Go [int]; it is only compared with a length.  The loop
    is given one iteration per stored edge and one more, which is always
    enough (lemma [FindPaths_returns]). *)
Definition FindPaths (g : OpenGraph) (startID endID : string) (maxDepth : Z)
    : option (slice (list string)) :=
  match nodes g !! startID with
  | None => Some nil_slice
  | Some _ =>
    match nodes g !! endID with
    | None => Some nil_slice
    | Some _ =>
      if bool_decide (startID = endID) then Some (mk_slice [[startID]])
      else bfs (S (length (edges g))) g endID maxDepth
               (mkSearch nil_slice {[startID]} [mkItem startID [startID]])
    end
  end.

End graph.
Arguments OpenGraph Value : clear implicits.

(** *** Queries, components and validation *)
Section queries.
Context {Value : Type}.

Definition Len (g : OpenGraph Value) : nat := size (nodes g) + length (edges g).

(** [GetNodesByKind] when [range g.nodes] yields the nodes in the order
    [order].  The result starts as a nil slice. *)
Definition GetNodesByKindIn (order : list (node.Node Value)) (kind : string)
    : slice (node.Node Value) :=
  foldl (fun acc n => if node.HasKind n kind then append acc n else acc)
        nil_slice order.

Definition GetNodesByKind (g : OpenGraph Value) (kind : string)
    : slice (node.Node Value) :=
  GetNodesByKindIn (map_to_list (nodes g)).*2 kind.

Definition GetEdgesByKind (g : OpenGraph Value) (kind : string)
    : slice (edge.Edge Value) :=
  foldl (fun acc e => if bool_decide (edge.GetKind e = kind) then append acc e else acc)
        nil_slice (edges g).

(** The stack of the depth-first sweep is kept top first: [stack[len-1]] is
    the head of the list and [append(stack, x)] puts [x] in front. *)
Definition pushUnvisited (seen : gset string) (stack : list string) (ids : list string)
    : list string :=
  foldl (fun st x => if bool_decide (x ∈ seen) then st else x :: st) stack ids.

(** The loop [for len(stack) > 0] of one component; [None] means that the
    fuel ran out. *)
Fixpoint sweep (fuel : nat) (g : OpenGraph Value) (seen component : gset string)
    (stack : list string) : option (gset string * gset string) :=
  match stack with
  | [] => Some (seen, component)
  | current :: stack =>
    match fuel with
    | O => None
    | S fuel' =>
      if bool_decide (current ∈ seen) then sweep fuel' g seen component stack
      else
        let seen := {[current]} ∪ seen in
        let component := {[current]} ∪ component in
        let stack :=
          pushUnvisited seen stack
            (edge.GetEndNodeID <$> GetEdgesFromNode g current) in
        let stack :=
          pushUnvisited seen stack
            (edge.GetStartNodeID <$> GetEdgesToNode g current) in
        sweep fuel' g seen component stack
    end
  end.

(** The loop [for nodeID := range g.nodes], over the ids in the order
    [order]. *)
Fixpoint componentsLoop (g : OpenGraph Value) (order : list string)
    (seen : gset string) (components : slice (gset string))
    : option (slice (gset string)) :=
  match order with
  | [] => Some components
  | nodeID :: order =>
    if bool_decide (nodeID ∈ seen) then componentsLoop g order seen components
    else
      match sweep (S (2 * length (edges g))) g seen ∅ [nodeID] with
      | None => None
      | Some (seen, component) =>
        componentsLoop g order seen (append components component)
      end
  end.

Definition GetConnectedComponentsIn (order : list string) (g : OpenGraph Value)
    : option (slice (gset string)) :=
  componentsLoop g order ∅ nil_slice.

Definition GetConnectedComponents (g : OpenGraph Value)
    : option (slice (gset string)) :=
  GetConnectedComponentsIn (map_to_list (nodes g)).*1 g.

(** [fmt.Sprintf] with [%s] and [%d], and with [%v] on a [[]string]. *)
Definition sprintStrings (l : list string) : string :=
  "[" +:+ String.concat " " l +:+ "]".

Definition orphanFindings (g : OpenGraph Value) (errors : slice string)
    (e : edge.Edge Value) : slice string :=
  let errors :=
    match nodes g !! edge.GetStartNodeID e with
    | None =>
      append errors ("Edge " +:+ edge.GetKind e
                     +:+ " references non-existent start node: "
                     +:+ edge.GetStartNodeID e)
    | Some _ => errors
    end in
  match nodes g !! edge.GetEndNodeID e with
  | None =>
    append errors ("Edge " +:+ edge.GetKind e
                   +:+ " references non-existent end node: "
                   +:+ edge.GetEndNodeID e)
  | Some _ => errors
  end.

Definition isolatedIn (g : OpenGraph Value) (order : list string) : slice string :=
  foldl (fun acc id =>
           if bool_decide (length (GetEdgesFromNode g id) = 0)
              && bool_decide (length (GetEdgesToNode g id) = 0)
           then append acc id else acc)
        nil_slice order.

(** [ValidateGraph] when [range g.nodes] yields the ids in the order
    [order]. *)
Definition ValidateGraphIn (order : list string) (g : OpenGraph Value) : slice string :=
  let errors := foldl (orphanFindings g) nil_slice (edges g) in
  let isolatedNodes := isolatedIn g order in
  if bool_decide (0 < len isolatedNodes)
  then append errors ("Found " +:+ pretty (len isolatedNodes)
                      +:+ " isolated nodes: " +:+ sprintStrings (elems isolatedNodes))
  else errors.

Definition ValidateGraph (g : OpenGraph Value) : slice string :=
  ValidateGraphIn (map_to_list (nodes g)).*1 g.

End queries.

(** ** JSON documents and the encoder

    [encoding/json] is not part of the repository.  A document is kept as
    the tree the encoder writes and the decoder reads back; indentation and
    the order of object members are not represented.  What is used of the
    encoder is its documented behaviour on the types that occur here: a map
    becomes an object whose members are written in the order of their keys,
    a nil slice becomes [null], any other slice an array, a string a string,
    and an interface value is encoded as the value it holds, which may be
    refused.  A Go string is a sequence of bytes; the encoder writes every
    string, map keys included, as valid UTF-8, replacing each byte that is
    not part of a well-formed sequence by U+FFFD (function [coerceUTF8]
    below).  An object is kept as the map a reader of the document obtains:
    when two keys of a Go map are written as the same string, the member
    written last is the one that is read. *)
Inductive JSON : Type :=
| JNull
| JBool (b : bool)
| JNumber (literal : string)
| JString (s : string)
| JArray (l : list JSON)
| JObject (m : gmap string JSON).

(** How a property value is written, when the encoder accepts it, and what
    the decoder makes of a JSON value that is read into an [interface{}]. *)
Class Codec (Value : Type) : Type := {
  marshalValue : Value → option JSON;
  unmarshalValue : JSON → Value
}.

(** *** Strings as the encoder writes them *)

Definition between (lo hi : N) (c : ascii) : bool :=
  (lo <=? N_of_ascii c)%N && (N_of_ascii c <=? hi)%N.

(** For a lead byte: the width of the sequence it starts and the range
    accepted for the second byte (the tables [first] and [acceptRanges] of
    [unicode/utf8]); [None] for a byte that starts no sequence. *)
Definition leadByte (c : ascii) : option (nat * N * N) :=
  if between 0xC2 0xDF c then Some (2, 0x80%N, 0xBF%N)
  else if between 0xE0 0xE0 c then Some (3, 0xA0%N, 0xBF%N)
  else if between 0xE1 0xEC c then Some (3, 0x80%N, 0xBF%N)
  else if between 0xED 0xED c then Some (3, 0x80%N, 0x9F%N)
  else if between 0xEE 0xEF c then Some (3, 0x80%N, 0xBF%N)
  else if between 0xF0 0xF0 c then Some (4, 0x90%N, 0xBF%N)
  else if between 0xF1 0xF3 c then Some (4, 0x80%N, 0xBF%N)
  else if between 0xF4 0xF4 c then Some (4, 0x80%N, 0x8F%N)
  else None.

(** [utf8.DecodeRuneInString], as far as the encoder uses it: the width of
    the well-formed sequence at the start of [s], or [None] where it returns
    [RuneError] with width 1 (a byte that starts no sequence, a sequence cut
    short, a byte out of range). *)
Definition runeWidth (s : string) : option nat :=
  match s with
  | EmptyString => None
  | String c0 rest =>
    if (N_of_ascii c0 <? 0x80)%N then Some 1
    else
      match leadByte c0, rest with
      | Some (w, lo, hi), String c1 rest1 =>
        if negb (between lo hi c1) then None
        else if bool_decide (w ≤ 2) then Some 2
        else
          match rest1 with
          | String c2 rest2 =>
            if negb (between 0x80 0xBF c2) then None
            else if bool_decide (w ≤ 3) then Some 3
            else
              match rest2 with
              | String c3 _ => if between 0x80 0xBF c3 then Some 4 else None
              | EmptyString => None
              end
          | EmptyString => None
          end
      | _, _ => None
      end
  end.

(** U+FFFD in UTF-8, the bytes EF BF BD, put in front of [rest]. *)
Definition replacementChar (rest : string) : string :=
  String (ascii_of_N 0xEF) (String (ascii_of_N 0xBF) (String (ascii_of_N 0xBD) rest)).

(** The loop of the encoder over the bytes of a string.  [pending] counts
    the bytes still to copy of the sequence that was accepted last; at the
    start of a sequence, a byte at which [runeWidth] fails is replaced by
    U+FFFD and the loop goes on with the next byte. *)
Fixpoint coerceFrom (pending : nat) (s : string) : string :=
  match s with
  | EmptyString => EmptyString
  | String c rest =>
    match pending with
    | S k => String c (coerceFrom k rest)
    | O =>
      match runeWidth s with
      | Some w => String c (coerceFrom (w - 1) rest)
      | None => replacementChar (coerceFrom 0 rest)
      end
    end
  end.

Definition coerceUTF8 (s : string) : string := coerceFrom 0 s.

(** [utf8.ValidString]: no position at which decoding fails. *)
Fixpoint validFrom (pending : nat) (s : string) : bool :=
  match s with
  | EmptyString => true
  | String c rest =>
    match pending with
    | S k => validFrom k rest
    | O =>
      match runeWidth s with
      | Some w => validFrom (w - 1) rest
      | None => false
      end
    end
  end.

Definition ValidString (s : string) : bool := validFrom 0 s.

(** The members of a Go map in the order in which the encoder writes them:
    sorted by key, bytewise. *)
Definition keyLe {A} (x y : string * A) : Prop := String.leb x.1 y.1 = true.

#[export] Instance keyLe_dec {A} : RelDecision (@keyLe A) :=
  fun x y => decide (String.leb x.1 y.1 = true).

Definition sortedMembers {A} (m : gmap string A) : list (string * A) :=
  merge_sort keyLe (map_to_list m).

(** The object read from the members written for [m]: each key is written
    like any string, and a later member replaces an earlier one of the same
    name. *)
Definition writeMembers (m : gmap string JSON) : gmap string JSON :=
  foldl (fun acc kv => <[coerceUTF8 kv.1 := kv.2]> acc) ∅ (sortedMembers m).

Definition asObject (j : JSON) : option (gmap string JSON) :=
  match j with JObject m => Some m | _ => None end.

Definition asArray (j : JSON) : option (list JSON) :=
  match j with JArray l => Some l | _ => None end.

Definition asString (j : JSON) : option string :=
  match j with JString s => Some s | _ => None end.

(** The values of [graphContent] are [[]map[string]interface{}]; those of
    [graphData] are [graphContent] itself and the metadata dictionary. *)
Inductive Part (Value : Type) : Type :=
| PContent (m : gmap string (slice (gmap string (Dyn Value))))
| PDict (m : gmap string (Dyn Value)).
Arguments PContent {Value} m.
Arguments PDict {Value} m.

Section export.
Context {Value : Type} `{!Codec Value}.

(** A map is encoded member by member; one refused member refuses the map. *)
Definition marshalMap {A} (f : A → option JSON) (m : gmap string A) : option JSON :=
  if decide (map_Forall (fun _ a => is_Some (f a)) m)
  then Some (JObject (writeMembers (omap f m))) else None.

Definition marshalString (s : string) : JSON := JString (coerceUTF8 s).

Definition marshalStrings (s : slice string) : JSON :=
  match s with
  | nil_slice => JNull
  | mk_slice l => JArray (marshalString <$> l)
  end.

Definition marshalDyn (d : Dyn Value) : option JSON :=
  match d with
  | DString s => Some (marshalString s)
  | DStrings l => Some (marshalStrings l)
  | DStringMap m => Some (JObject (writeMembers (marshalString <$> m)))
  | DProps m => marshalMap marshalValue m
  end.

Definition marshalDicts (s : slice (gmap string (Dyn Value))) : option JSON :=
  match s with
  | nil_slice => Some JNull
  | mk_slice l => JArray <$> mapM (marshalMap marshalDyn) l
  end.

Definition marshalPart (p : Part Value) : option JSON :=
  match p with
  | PContent m => marshalMap marshalDicts m
  | PDict m => marshalMap marshalDyn m
  end.

(** [json.MarshalIndent(graphData, "", "  ")]; [None] is its error. *)
Definition MarshalIndent (graphData : gmap string (Part Value)) : option JSON :=
  marshalMap marshalPart graphData.

(** [ExportJSON] when [range g.nodes] yields the nodes in the order [order].
    Go leaves that order unspecified. *)
Definition ExportJSONIn (order : list (node.Node Value)) (g : OpenGraph Value)
    (includeMetadata : bool) : option JSON :=
  let nodesData :=
    foldl (fun acc n => append acc (node.ToDict n)) (mk_slice []) order in
  let graphContent : gmap string (slice (gmap string (Dyn Value))) :=
    <["nodes" := nodesData]> ∅ in
  let edgesData :=
    foldl (fun acc e => append acc (edge.ToDict e)) (mk_slice []) (edges g) in
  let graphContent := <["edges" := edgesData]> graphContent in
  let graphData : gmap string (Part Value) := <["graph" := PContent graphContent]> ∅ in
  let graphData :=
    if includeMetadata && negb (bool_decide (sourceKind g = ""))
    then <["metadata" := PDict (<["source_kind" := DString (sourceKind g)]> ∅)]> graphData
    else graphData in
  MarshalIndent graphData.

(** One admissible order, for running the export. *)
Definition ExportJSON (g : OpenGraph Value) (includeMetadata : bool) : option JSON :=
  ExportJSONIn (map_to_list (nodes g)).*2 g includeMetadata.

(** *** Import *)

Definition parseStrings (j : option JSON) : option (slice string) :=
  match j with
  | None | Some JNull => Some nil_slice
  | Some j => mk_slice <$> (asArray j ≫= mapM asString)
  end.

Definition parseProperties (j : option JSON)
    : option (option (properties.Properties Value)) :=
  match j with
  | None | Some JNull => Some None
  | Some j => m ← asObject j; Some (Some (properties.mk (unmarshalValue <$> m)))
  end.

Definition fromResult {A} (r : result A) : option A :=
  match r with Ok a => Some a | Err _ => None end.

Definition parseNode (j : JSON) : option (node.Node Value) :=
  o ← asObject j;
  id ← o !! "id" ≫= asString;
  kinds ← parseStrings (o !! "kinds");
  p ← parseProperties (o !! "properties");
  fromResult (node.NewNode id kinds p).

Definition parseEndpoint (j : option JSON) : option string :=
  o ← j; m ← asObject o; v ← m !! "value"; asString v.

Definition parseEdge (j : JSON) : option (edge.Edge Value) :=
  o ← asObject j;
  kind ← o !! "kind" ≫= asString;
  startID ← parseEndpoint (o !! "start");
  endID ← parseEndpoint (o !! "end");
  p ← parseProperties (o !! "properties");
  fromResult (edge.NewEdge startID endID kind p).

Fixpoint importNodes (g : OpenGraph Value) (records : list JSON)
    : option (OpenGraph Value) :=
  match records with
  | [] => Some g
  | r :: records => n ← parseNode r; importNodes (AddNode g n).2 records
  end.

Fixpoint importEdges (g : OpenGraph Value) (records : list JSON)
    : option (OpenGraph Value) :=
  match records with
  | [] => Some g
  | r :: records => e ← parseEdge r; importEdges (AddEdge g e).2 records
  end.

Definition importSourceKind (g : OpenGraph Value) (doc : gmap string JSON)
    : option (OpenGraph Value) :=
  match doc !! "metadata" with
  | None => Some g
  | Some meta =>
    m ← asObject meta;
    match m !! "source_kind" with
    | None => Some g
    | Some sk => s ← asString sk; Some (mkOpenGraph (nodes g) (edges g) s)
    end
  end.

(** Modelled from the spec: [FromJSON], the import that the repository's
    round-trip test calls, is not among the sources.  Following the
    description of the import in the section on external interfaces, it
    reads the node records first and registers each node, then the edge
    records, registering each edge through the validating [AddEdge], and
    last takes the sourceKind from the metadata when they are present.
    A record that does not have the documented shape, or that the
    constructors [NewNode] and [NewEdge] reject, makes the import fail
    ([None]); a registration that is rejected is skipped. *)
Definition FromJSON (g : OpenGraph Value) (jsonData : JSON)
    : option (OpenGraph Value) :=
  doc ← asObject jsonData;
  graph ← doc !! "graph" ≫= asObject;
  ns ← graph !! "nodes" ≫= asArray;
  es ← graph !! "edges" ≫= asArray;
  g ← importNodes g ns;
  g ← importEdges g es;
  importSourceKind g doc.

(** Modelled from the spec: the accessor [GetSourceKind] used by the
    round-trip test is not among the sources; it reads the field. *)
Definition GetSourceKind (g : OpenGraph Value) : string := sourceKind g.

End export.

(** ** Test data

    The property values the repository's own tests store: strings, integers
    and booleans, and nil.  [SNaN] stands for a floating-point value that the
    encoder refuses. *)
Inductive Scalar : Type :=
| SNil
| SString (s : string)
| SInt (z : Z)
| SBool (b : bool)
| SNaN.

Definition digits (z : Z) : string := pretty z.

#[export] Instance Scalar_codec : Codec Scalar := {|
  marshalValue v :=
    match v with
    | SNil => Some JNull
    | SString s => Some (JString (coerceUTF8 s))
    | SInt z => Some (JNumber (digits z))
    | SBool b => Some (JBool b)
    | SNaN => None
    end;
  unmarshalValue j :=
    match j with
    | JString s => SString s
    | JBool b => SBool b
    | _ => SNil
    end
|}.

Definition noProps : properties.Properties Scalar := properties.NewProperties.

Definition testNode (id : string) (kinds : list string) : node.Node Scalar :=
  node.mk id kinds noProps.

Definition testEdge (startID endID kind : string) : edge.Edge Scalar :=
  edge.mk startID endID kind noProps.

(** The graph of the repository's example and round-trip test. *)
Definition personProps (displayname property objectid name : string)
    : properties.Properties Scalar :=
  properties.mk
    (<["name" := SString name]>
    (<["objectid" := SString objectid]>
    (<["property" := SString property]>
    (<["displayname" := SString displayname]> ∅)))).

Definition bobNode : node.Node Scalar :=
  node.mk "123" ["Person"; "Base"] (personProps "bob" "a" "123" "BOB").

Definition aliceNode : node.Node Scalar :=
  node.mk "234" ["Person"; "Base"] (personProps "alice" "b" "234" "ALICE").

Definition knowsEdge : edge.Edge Scalar := testEdge "123" "234" "Knows".

Definition minimalGraph : OpenGraph Scalar :=
  (AddEdge (AddNode (AddNode (NewOpenGraph "Base") bobNode).2 aliceNode).2 knowsEdge).2.

(** The graph of the path test: 1 -> 2 -> 3. *)
Definition chainGraph : OpenGraph Scalar :=
  let g := (AddNode (NewOpenGraph "test") (testNode "1" ["node1"])).2 in
  let g := (AddNode g (testNode "2" ["node2"])).2 in
  let g := (AddNode g (testNode "3" ["node3"])).2 in
  let g := (AddEdge g (testEdge "1" "2" "CONNECTS_TO")).2 in
  (AddEdge g (testEdge "2" "3" "CONNECTS_TO")).2.

(** Two registered nodes and no edge. *)
Definition apartGraph : OpenGraph Scalar :=
  (AddNode (AddNode (NewOpenGraph "test") (testNode "A" [])).2 (testNode "B" [])).2.

(** A graph that holds one edge, stored without validation, and no node. *)
Definition orphanGraph : OpenGraph Scalar :=
  (AddEdgeWithoutValidation (NewOpenGraph "Base") (testEdge "a" "b" "Knows")).2.

(** A node constructed with the same kind listed twice. *)
Definition twiceBase : node.Node Scalar := testNode "123" ["Base"; "Base"].

(** An edge with one property. *)
Definition weightedEdge : edge.Edge Scalar :=
  edge.mk "start1" "end1" "CONNECTS_TO" (properties.mk (<["weight" := SInt 10]> ∅)).

(** Two one-byte strings that are not valid UTF-8: the byte FF and the byte
    FE.  Go strings hold arbitrary bytes, and the constructors accept every
    string that is not empty. *)
Definition idFF : string := String (ascii_of_N 0xFF) EmptyString.
Definition idFE : string := String (ascii_of_N 0xFE) EmptyString.

(** A graph with the single node FF, and one with the single node FE. *)
Definition graphFF : OpenGraph Scalar :=
  (AddNode (NewOpenGraph "Base") (testNode idFF ["Person"])).2.

Definition graphFE : OpenGraph Scalar :=
  (AddNode (NewOpenGraph "Base") (testNode idFE ["Person"])).2.

(** Number of times [k] occurs in [l]. *)
Definition occurrences (k : string) (l : list string) : nat :=
  length (List.filter (fun k' => bool_decide (k' = k)) l).

(** ** Notions used to state the properties *)
Section notions.
Context {Value : Type}.

(** Some stored edge leads from [a] to [b]. *)
Definition linked (g : OpenGraph Value) (a b : string) : Prop :=
  ∃ e, e ∈ edges g ∧ edge.startNodeID e = a ∧ edge.endNodeID e = b.

(** Every two consecutive ids of [p] are joined by a stored edge, in the
    direction of the edge. *)
Fixpoint walk (g : OpenGraph Value) (p : list string) : Prop :=
  match p with
  | a :: (b :: _) as rest => linked g a b ∧ walk g rest
  | _ => True
  end.

(** A path from [a] to [b] that follows stored edges and uses at most
    [maxDepth] of them. *)
Definition path_within (g : OpenGraph Value) (a b : string) (maxDepth : Z)
    (p : list string) : Prop :=
  head p = Some a ∧ last p = Some b ∧ walk g p
  ∧ (Z.of_nat (length p) ≤ maxDepth + 1)%Z.

(** Edges whose end id has not been marked: what the search can still
    enqueue. *)
Definition unmarked (g : OpenGraph Value) (seen : gset string)
    : list (edge.Edge Value) :=
  List.filter (fun e => negb (bool_decide (edge.endNodeID e ∈ seen))) (edges g).

(** What the search loop maintains, for a search from [startID] to [endID]:
    a queued path starts at [startID], ends at the id it is queued under,
    repeats no id, follows stored edges and lies within the marked ids; the
    end id is never marked; a recorded path starts at [startID], ends at
    [endID], repeats no id, follows stored edges and has at most
    [maxDepth + 1] ids; and the result is nil until a path is recorded. *)
Definition simple_from (g : OpenGraph Value) (startID last_id : string)
    (p : list string) : Prop :=
  head p = Some startID ∧ last p = Some last_id ∧ NoDup p ∧ walk g p.

Record search_ok (g : OpenGraph Value) (startID endID : string) (maxDepth : Z)
    (st : search) : Prop := {
  queued_ok : ∀ it, it ∈ queue st →
    simple_from g startID (item_id it) (item_path it)
    ∧ ∀ x, x ∈ item_path it → x ∈ visited st;
  end_unmarked : endID ∉ visited st;
  recorded_ok : ∀ p, p ∈ elems (paths st) →
    simple_from g startID endID p ∧ (Z.of_nat (length p) ≤ maxDepth + 1)%Z;
  nil_until_found : paths st = nil_slice ∨ elems (paths st) ≠ []
}.

(** The identity of an edge. *)
Definition triple (e : edge.Edge Value) : string * string * string :=
  (edge.startNodeID e, edge.endNodeID e, edge.kind e).

(** What the constructors and the keying of the node map give to every
    graph that is built through the package: a node is stored under its own
    id, and the ids and kinds that [NewNode] and [NewEdge] check are not
    empty. *)
Definition built (g : OpenGraph Value) : Prop :=
  (∀ k n, nodes g !! k = Some n → node.id n = k ∧ k ≠ "")
  ∧ (∀ e, e ∈ edges g →
       edge.startNodeID e ≠ "" ∧ edge.endNodeID e ≠ "" ∧ edge.kind e ≠ "").

(** What the validating [AddEdge] and [RemoveNodeByID] maintain and
    [AddEdgeWithoutValidation] does not: both ends of every edge are
    registered, and no two stored edges have the same triple. *)
Definition validated (g : OpenGraph Value) : Prop :=
  (∀ e, e ∈ edges g →
     is_Some (nodes g !! edge.startNodeID e) ∧ is_Some (nodes g !! edge.endNodeID e))
  ∧ NoDup (triple <$> edges g).

(** Both ends of every edge are registered. *)
Definition registered (g : OpenGraph Value) : Prop :=
  ∀ e, e ∈ edges g →
    is_Some (nodes g !! edge.startNodeID e) ∧ is_Some (nodes g !! edge.endNodeID e).

(** The strings by which nodes and edges are identified, and the
    sourceKind, are valid UTF-8. *)
Definition utf8_named (g : OpenGraph Value) : Prop :=
  (∀ k, is_Some (nodes g !! k) → ValidString k = true)
  ∧ (∀ e, e ∈ edges g → ValidString (edge.kind e) = true)
  ∧ ValidString (sourceKind g) = true.

(** What C1 asks of the graph [g'] imported from the export of [g]. *)
Definition same_graph (g g' : OpenGraph Value) : Prop :=
  GetNodeCount g' = GetNodeCount g
  ∧ GetEdgeCount g' = GetEdgeCount g
  ∧ GetSourceKind g' = GetSourceKind g
  ∧ (∀ k n, nodes g !! k = Some n →
       ∃ n', nodes g' !! k = Some n' ∧ node.Equal n (Some n') = true)
  ∧ (∀ k n', nodes g' !! k = Some n' →
       ∃ n, nodes g !! k = Some n ∧ node.Equal n' (Some n) = true)
  ∧ Forall2 (fun e e' => edge.Equal e (Some e') = true) (edges g) (edges g').

(** Graphs assembled with the constructors and the validating mutators
    only. *)
Inductive assembled : OpenGraph Value → Prop :=
| assembled_new sk :
    assembled (NewOpenGraph sk)
| assembled_node g id kinds p n :
    assembled g → node.NewNode id kinds p = Ok n → assembled (AddNode g n).2
| assembled_edge g startID endID kind p e :
    assembled g → edge.NewEdge startID endID kind p = Ok e →
    assembled (AddEdge g e).2
| assembled_remove g id :
    assembled g → assembled (RemoveNodeByID g id).2
| assembled_clear g :
    assembled g → assembled (Clear g).

End notions.

(** ** Further test data and notions *)

(** The values of the property tests: the scalars, a slice of strings, and
    the values the tests expect to be refused (a map, a struct, a function,
    a channel). *)
Inductive Sample : Type :=
| OfScalar (v : Scalar)
| StringSlice (l : list string)
| AMap
| AStruct
| AFunc
| AChan.

#[export] Instance Sample_reflect : Reflect Sample := {|
  nilValue := OfScalar SNil;
  isNil v := match v with OfScalar SNil => true | _ => false end;
  kindOf v :=
    match v with
    | OfScalar SNil => reflect.Invalid
    | OfScalar (SString _) => reflect.String
    | OfScalar (SInt _) => reflect.Int
    | OfScalar (SBool _) => reflect.Bool
    | OfScalar SNaN => reflect.Float64
    | StringSlice _ => reflect.Slice
    | AMap => reflect.Map
    | AStruct => reflect.Struct
    | AFunc => reflect.Func
    | AChan => reflect.Chan
    end;
  typeName v :=
    match v with
    | OfScalar SNil => "<nil>"
    | OfScalar (SString _) => "string"
    | OfScalar (SInt _) => "int"
    | OfScalar (SBool _) => "bool"
    | OfScalar SNaN => "float64"
    | StringSlice _ => "[]string"
    | AMap => "map[string]string"
    | AStruct => "struct {}"
    | AFunc => "func()"
    | AChan => "chan int"
    end
|}.

Definition nameAge : gmap string Sample :=
  <["name" := OfScalar (SString "test")]> (<["age" := OfScalar (SInt 25)]> ∅).

Definition userNode : node.Node Scalar := testNode "node1" ["User"].

(** The graph of the component test: 1 -> 2 and 3 -> 4. *)
Definition pairsGraph : OpenGraph Scalar :=
  let g := (AddNode (NewOpenGraph "test") (testNode "1" ["node1"])).2 in
  let g := (AddNode g (testNode "2" ["node2"])).2 in
  let g := (AddNode g (testNode "3" ["node3"])).2 in
  let g := (AddNode g (testNode "4" ["node4"])).2 in
  let g := (AddEdge g (testEdge "1" "2" "CONNECTS_TO")).2 in
  (AddEdge g (testEdge "3" "4" "CONNECTS_TO")).2.

Section more_notions.
Context {Value : Type}.

(** Joined by a stored edge, in either direction. *)
Definition adjacent (g : OpenGraph Value) (a b : string) : Prop :=
  linked g a b ∨ linked g b a.

(** Joined by a chain of stored edges, each taken in either direction. *)
Definition connected (g : OpenGraph Value) : string → string → Prop :=
  rtc (adjacent g).

(** No stored edge leaves or enters the set. *)
Definition closed (g : OpenGraph Value) (C : gset string) : Prop :=
  ∀ e, e ∈ edges g → edge.startNodeID e ∈ C ↔ edge.endNodeID e ∈ C.

(** Ends of stored edges that lie outside [seen], counted per edge and per
    end: what a sweep can still push. *)
Definition pending (g : OpenGraph Value) (seen : gset string) : nat :=
  length (List.filter (fun e => negb (bool_decide (edge.startNodeID e ∈ seen))) (edges g))
  + length (List.filter (fun e => negb (bool_decide (edge.endNodeID e ∈ seen))) (edges g)).

(** What one sweep maintains, started from [root] with the ids [seen0]
    already assigned to earlier components. *)
Record sweep_ok (g : OpenGraph Value) (seen0 : gset string) (root : string)
    (seen component : gset string) (stack : list string) : Prop := {
  sweep_seen : seen = component ∪ seen0;
  sweep_fresh : component ## seen0;
  sweep_root : root ∈ component ∨ root ∈ stack;
  sweep_reach : ∀ x, x ∈ component ∨ x ∈ stack → connected g root x;
  sweep_frontier : ∀ a b, a ∈ component → adjacent g a b → b ∈ seen ∨ b ∈ stack
}.

(** What the loop over the node ids maintains. *)
Record components_ok (g : OpenGraph Value) (seen : gset string)
    (components : list (gset string)) : Prop := {
  comps_cover : ∀ x, x ∈ seen ↔ ∃ C, C ∈ components ∧ x ∈ C;
  comps_closed : ∀ C, C ∈ components → closed g C;
  comps_joined : ∀ C a b, C ∈ components → a ∈ C → b ∈ C → connected g a b;
  comps_apart : ∀ i j C D, components !! i = Some C → components !! j = Some D →
                i ≠ j → C ## D;
  comps_inhabited : ∀ C, C ∈ components → C ≠ ∅
}.

(** The levels of the breadth-first search from [startID] to [endID], at
    the head of the loop.  [depth] gives, for every marked id, the number of
    ids of the path it was queued with; [finished] holds the ids whose
    outgoing edges have all been visited. *)
Record levels_ok (g : OpenGraph Value) (startID endID : string) (st : search)
    (depth : gmap string nat) (finished : gset string) : Prop := {
  lv_marked : ∀ v, v ∈ visited st ↔ is_Some (depth !! v);
  lv_start : depth !! startID = Some 1;
  lv_end : endID ∉ visited st;
  lv_finished : finished ⊆ visited st;
  lv_waiting : ∀ v, v ∈ visited st →
    v ∈ finished ∨ ∃ it, it ∈ queue st ∧ item_id it = v;
  lv_queue : ∀ it, it ∈ queue st → depth !! item_id it = Some (length (item_path it));
  lv_order : ∀ hd rest, queue st = hd :: rest →
    ∃ A B, rest = A ++ B
      ∧ Forall (fun it => length (item_path it) = length (item_path hd)) A
      ∧ Forall (fun it => length (item_path it) = S (length (item_path hd))) B
      ∧ ∀ v n, depth !! v = Some n → n ≤ S (length (item_path hd));
  lv_edges : ∀ u n e, u ∈ finished → depth !! u = Some n → e ∈ edges g →
    edge.startNodeID e = u →
    (edge.endNodeID e = endID ∧ elems (paths st) ≠ [])
    ∨ ∃ m, depth !! edge.endNodeID e = Some m ∧ m ≤ S n
}.

(** The same while the edges [seen_edges] that leave the item [current]
    have been visited; [A] is the part of the queue that is as deep as
    [current]. *)
Record visiting_ok (g : OpenGraph Value) (startID endID : string)
    (current : queueItem) (A : list queueItem) (finished : gset string)
    (seen_edges : list (edge.Edge Value)) (st : search)
    (depth : gmap string nat) : Prop := {
  vs_marked : ∀ v, v ∈ visited st ↔ is_Some (depth !! v);
  vs_start : depth !! startID = Some 1;
  vs_end : endID ∉ visited st;
  vs_finished : finished ⊆ visited st;
  vs_current : depth !! item_id current = Some (length (item_path current));
  vs_waiting : ∀ v, v ∈ visited st →
    v ∈ finished ∨ v = item_id current ∨ ∃ it, it ∈ queue st ∧ item_id it = v;
  vs_queue : ∀ it, it ∈ queue st → depth !! item_id it = Some (length (item_path it));
  vs_order : ∃ B, queue st = A ++ B
    ∧ Forall (fun it => length (item_path it) = S (length (item_path current))) B;
  vs_bound : ∀ v n, depth !! v = Some n → n ≤ S (length (item_path current));
  vs_edges : ∀ u n e, u ∈ finished → depth !! u = Some n → e ∈ edges g →
    edge.startNodeID e = u →
    (edge.endNodeID e = endID ∧ elems (paths st) ≠ [])
    ∨ ∃ m, depth !! edge.endNodeID e = Some m ∧ m ≤ S n;
  vs_seen : ∀ e, e ∈ seen_edges →
    (edge.endNodeID e = endID ∧ elems (paths st) ≠ [])
    ∨ ∃ m, depth !! edge.endNodeID e = Some m
           ∧ m ≤ S (length (item_path current))
}.

End more_notions.

(** * Properties *)

Section graph_facts.
Context {Value : Type}.
Implicit Types (g : OpenGraph Value) (n : node.Node Value) (e : edge.Edge Value).

Lemma HasKind_true n k : node.HasKind n k = true ↔ k ∈ node.kinds n.
Proof.
  unfold node.HasKind. rewrite existsb_exists. split.
  - intros (k' & Hin & Heq). apply bool_decide_eq_true in Heq. subst k'.
    by apply list_elem_of_In.
  - intros Hin. exists k. split; [by apply list_elem_of_In|].
    by apply bool_decide_eq_true.
Qed.

Lemma HasKind_false n k : node.HasKind n k = false ↔ k ∉ node.kinds n.
Proof.
  rewrite <- HasKind_true. destruct (node.HasKind n k); naive_solver.
Qed.

Lemma Edge_Equal_true e o :
  edge.Equal e (Some o) = true ↔
  edge.startNodeID e = edge.startNodeID o ∧ edge.endNodeID e = edge.endNodeID o
  ∧ edge.kind e = edge.kind o.
Proof.
  unfold edge.Equal. rewrite !andb_true_iff, !bool_decide_eq_true. tauto.
Qed.

(** The copying loop of [GetAllProperties] returns a map with the entries
    of the original. *)
Lemma GetAllProperties_copy (p : properties.Properties Value) :
  properties.GetAllProperties p = properties.entries p.
Proof.
  unfold properties.GetAllProperties.
  apply (map_fold_weak_ind (fun r m => r = m)); [done|].
  intros i x m r _ ->. done.
Qed.

Lemma duplicate_edge_found g e :
  existsb (fun e' => edge.Equal e' (Some e)) (edges g) = true ↔
  ∃ e', e' ∈ edges g ∧ edge.startNodeID e' = edge.startNodeID e
        ∧ edge.endNodeID e' = edge.endNodeID e ∧ edge.kind e' = edge.kind e.
Proof.
  rewrite existsb_exists. split.
  - intros (e' & Hin & Heq). exists e'. split; [by apply list_elem_of_In|].
    by apply Edge_Equal_true.
  - intros (e' & Hin & Heq). exists e'. split; [by apply list_elem_of_In|].
    by apply Edge_Equal_true.
Qed.

Lemma AddEdge_rejected g e :
  nodes g !! edge.startNodeID e = None
  ∨ nodes g !! edge.endNodeID e = None
  ∨ (∃ e', e' ∈ edges g ∧ edge.startNodeID e' = edge.startNodeID e
           ∧ edge.endNodeID e' = edge.endNodeID e ∧ edge.kind e' = edge.kind e) →
  AddEdge g e = (false, g).
Proof.
  unfold AddEdge, edge.GetStartNodeID, edge.GetEndNodeID.
  intros [->|[Hend|Hdup]]; [done| |].
  - rewrite Hend. by destruct (nodes g !! edge.startNodeID e).
  - apply duplicate_edge_found in Hdup. rewrite Hdup.
    by destruct (nodes g !! edge.startNodeID e), (nodes g !! edge.endNodeID e).
Qed.

Lemma AddEdge_accepted g e :
  is_Some (nodes g !! edge.startNodeID e) →
  is_Some (nodes g !! edge.endNodeID e) →
  (∀ e', e' ∈ edges g → triple e' ≠ triple e) →
  AddEdge g e = (true, mkOpenGraph (nodes g) (edges g ++ [e]) (sourceKind g)).
Proof.
  unfold AddEdge, edge.GetStartNodeID, edge.GetEndNodeID.
  intros [? ->] [? ->] Hfresh.
  destruct (existsb _ (edges g)) eqn:Hex; [|done].
  apply duplicate_edge_found in Hex as (e' & Hin & Hs & He & Hk).
  destruct (Hfresh e' Hin). unfold triple. congruence.
Qed.

(** C3. [AddEdge] fails, leaving the graph as it was, when the start id or
    the end id of the edge is not a key of the node map or when a stored
    edge has the same (start, end, kind) triple, whatever the properties of
    the two edges; in every other case it succeeds and the edge becomes the
    last element of the edge list, the earlier edges keeping their order. *)
Theorem AddEdge_spec g e :
  let rejected :=
    nodes g !! edge.startNodeID e = None
    ∨ nodes g !! edge.endNodeID e = None
    ∨ ∃ e', e' ∈ edges g ∧ edge.startNodeID e' = edge.startNodeID e
            ∧ edge.endNodeID e' = edge.endNodeID e ∧ edge.kind e' = edge.kind e in
  (rejected → AddEdge g e = (false, g))
  ∧ (¬ rejected →
     AddEdge g e = (true, mkOpenGraph (nodes g) (edges g ++ [e]) (sourceKind g))).
Proof.
  intros rejected. subst rejected. split; [apply AddEdge_rejected|].
  intros Hnot. apply AddEdge_accepted.
  - destruct (nodes g !! edge.startNodeID e) eqn:Hs; [done|]. destruct Hnot. by left.
  - destruct (nodes g !! edge.endNodeID e) eqn:He; [done|].
    destruct Hnot. right. by left.
  - intros e' Hin [= Hs He Hk]. destruct Hnot. right. right. by exists e'.
Qed.

(** C4. When the graph already holds a node under the id [X], [AddNode]
    of any node with that id returns false and writes nothing: the graph,
    and with it the stored node, its kinds and its properties, and the edge
    list, are what they were, and so is the node that was passed. *)
Theorem AddNode_duplicate g n X stored :
  nodes g !! X = Some stored →
  node.GetID n = X →
  AddNode g n = (false, n, g)
  ∧ nodes (AddNode g n).2 !! X = Some stored
  ∧ edges (AddNode g n).2 = edges g.
Proof.
  intros Hs <-. unfold AddNode. rewrite Hs. done.
Qed.

Lemma occurrences_app k l1 l2 :
  occurrences k (l1 ++ l2) = occurrences k l1 + occurrences k l2.
Proof. unfold occurrences. by rewrite List.filter_app, length_app. Qed.

Lemma occurrences_absent k l : k ∉ l → occurrences k l = 0.
Proof.
  unfold occurrences. induction l as [|a l IH]; [done|]. intros Hn.
  apply not_elem_of_cons in Hn as [Hne Hn]. simpl.
  rewrite bool_decide_eq_false_2 by congruence. auto.
Qed.

Lemma occurrences_present k l : k ∈ l → 1 ≤ occurrences k l.
Proof.
  unfold occurrences. induction l as [|a l IH]; [by intros ?%elem_of_nil|].
  intros Hin. simpl. destruct (bool_decide (a = k)) eqn:Ha; simpl; [lia|].
  apply bool_decide_eq_false in Ha. apply elem_of_cons in Hin as [->|Hin]; [done|auto].
Qed.

(** C5, as the code has it.  In a graph whose sourceKind [sk] is not empty,
    a successful [AddNode] leaves the node, which is also the node stored
    under its id, with [sk] among its kinds.  A node that did not carry
    [sk] gets it appended once, at the end; for a node that carried it the
    kinds list is unchanged.  In both cases no further occurrence of [sk] is
    created: the list holds [sk] once if the node held it at most once
    before, and a list without duplicates stays without duplicates. *)
Theorem AddNode_stamps_sourceKind g n n' g' :
  sourceKind g ≠ "" →
  AddNode g n = (true, n', g') →
  sourceKind g ∈ node.kinds n'
  ∧ nodes g' !! node.id n = Some n'
  ∧ node.id n' = node.id n
  ∧ (sourceKind g ∉ node.kinds n → node.kinds n' = node.kinds n ++ [sourceKind g])
  ∧ (sourceKind g ∈ node.kinds n → node.kinds n' = node.kinds n)
  ∧ occurrences (sourceKind g) (node.kinds n')
    = Nat.max 1 (occurrences (sourceKind g) (node.kinds n))
  ∧ (NoDup (node.kinds n) → NoDup (node.kinds n')).
Proof.
  intros Hsk. unfold AddNode, AddNodeWithoutValidation, node.GetID.
  destruct (nodes g !! node.id n) eqn:Hl; [done|].
  rewrite (bool_decide_eq_false_2 _ Hsk). simpl.
  destruct (node.HasKind n (sourceKind g)) eqn:Hk; simpl.
  - intros [= <- <-]. simpl. apply HasKind_true in Hk.
    rewrite lookup_insert_eq. repeat split; try done.
    pose proof (occurrences_present _ _ Hk). lia.
  - unfold node.AddKind. rewrite Hk. simpl. intros [= <- <-]. simpl.
    apply HasKind_false in Hk. rewrite lookup_insert_eq.
    repeat split; try done.
    + apply elem_of_app. right. by apply list_elem_of_singleton.
    + rewrite occurrences_app, (occurrences_absent _ _ Hk).
      unfold occurrences. simpl. by rewrite bool_decide_eq_true_2.
    + intros Hnd. apply NoDup_app. repeat split; [done| |apply NoDup_singleton].
      intros x Hx ->%list_elem_of_singleton. done.
Qed.

(** C6. [RemoveNodeByID] returns false and changes nothing for an id that
    is not registered.  For a registered id it returns true, the node map
    loses exactly that key, and the edge list keeps, in their order,
    exactly the edges whose start id and end id both differ from the id; no
    stored edge references the id afterwards. *)
Theorem RemoveNodeByID_spec g id :
  (nodes g !! id = None → RemoveNodeByID g id = (false, g))
  ∧ (is_Some (nodes g !! id) →
     ∃ g', RemoveNodeByID g id = (true, g')
       ∧ nodes g' = delete id (nodes g)
       ∧ nodes g' !! id = None
       ∧ edges g' `sublist_of` edges g
       ∧ (∀ e, e ∈ edges g' ↔
               e ∈ edges g ∧ edge.startNodeID e ≠ id ∧ edge.endNodeID e ≠ id)
       ∧ sourceKind g' = sourceKind g).
Proof.
  unfold RemoveNodeByID. split.
  - intros ->. done.
  - intros [x ->]. eexists. split; [done|]. simpl.
    split; [done|]. split; [apply lookup_delete_eq|].
    split; [|split; [|done]].
    + induction (edges g) as [|a l IH]; simpl; [done|].
      destruct (_ && _); by constructor.
    + intros e. rewrite !list_elem_of_In, filter_In, andb_true_iff, !negb_true_iff,
        !bool_decide_eq_false. done.
Qed.

(** C8. The dictionary that [Edge.ToDict] builds has the key "properties"
    exactly when the edge has at least one property; the value under the
    key is then the property map of the edge, and for an edge without
    properties the key is not there at all. *)
Theorem Edge_ToDict_properties e :
  (is_Some (edge.ToDict e !! "properties") ↔ 0 < properties.Len (edge.properties e))
  ∧ (0 < properties.Len (edge.properties e) →
     edge.ToDict e !! "properties"
     = Some (DProps (properties.entries (edge.properties e))))
  ∧ (properties.Len (edge.properties e) = 0 → edge.ToDict e !! "properties" = None).
Proof.
  unfold edge.ToDict, properties.ToDict, properties.Len.
  rewrite GetAllProperties_copy.
  destruct (decide (0 < size (properties.entries (edge.properties e)))) as [Hpos|Hz].
  - rewrite (bool_decide_eq_true_2 _ Hpos), lookup_insert_eq.
    split; [split; [done|eauto]|]. split; [done|lia].
  - rewrite (bool_decide_eq_false_2 _ Hz).
    rewrite !lookup_insert_ne, lookup_empty by done.
    split; [split; [by intros []|lia]|]. split; [lia|done].
Qed.

(** C9. For a registered node [x], [FindPaths(x, x, k)] returns one path,
    the path [[x]], whatever the depth bound [k]. *)
Theorem FindPaths_same_node g x (k : Z) :
  is_Some (nodes g !! x) →
  FindPaths g x x k = Some (mk_slice [[x]]).
Proof.
  intros [n Hn]. unfold FindPaths. rewrite Hn.
  by rewrite bool_decide_eq_true_2.
Qed.

End graph_facts.

(** ** Graphs built through the package *)
Section built_facts.
Context {Value : Type}.
Implicit Types (g : OpenGraph Value) (n : node.Node Value) (e : edge.Edge Value).

Lemma NewNode_Ok id (kinds : slice string) p n :
  node.NewNode id kinds p = Ok n → node.id n = id ∧ id ≠ "".
Proof.
  unfold node.NewNode. destruct (bool_decide_reflect (id = "")); [done|].
  by intros [= <-].
Qed.

Lemma NewEdge_Ok startID endID kind p e :
  edge.NewEdge startID endID kind p = Ok e →
  triple e = (startID, endID, kind) ∧ startID ≠ "" ∧ endID ≠ "" ∧ kind ≠ "".
Proof.
  unfold edge.NewEdge.
  destruct (bool_decide_reflect (startID = "")); [done|].
  destruct (bool_decide_reflect (endID = "")); [done|].
  destruct (bool_decide_reflect (kind = "")); [done|].
  by intros [= <-].
Qed.

Lemma NewOpenGraph_validated sk :
  built (NewOpenGraph sk : OpenGraph Value)
  ∧ validated (NewOpenGraph sk : OpenGraph Value).
Proof.
  unfold built, validated. cbn [NewOpenGraph nodes edges].
  split; split.
  - intros k n Hk. by rewrite lookup_empty in Hk.
  - by intros ? ?%elem_of_nil.
  - by intros ? ?%elem_of_nil.
  - apply NoDup_nil_2.
Qed.

Lemma AddNodeWithoutValidation_validated g n :
  node.id n ≠ "" → built g ∧ validated g →
  built (AddNodeWithoutValidation g n).2 ∧ validated (AddNodeWithoutValidation g n).2.
Proof.
  intros Hid [[Hkey Hfields] [Hreg Hnd]].
  unfold built, validated, AddNodeWithoutValidation, node.GetID.
  cbn [snd nodes edges]. split; split; [|done| |done].
  - intros k m [[<- <-]|[_ Hk]]%lookup_insert_Some; [done|by apply Hkey].
  - intros e He. rewrite !lookup_insert_is_Some'. split; right; by apply Hreg.
Qed.

Lemma AddNode_validated g n :
  node.id n ≠ "" → built g ∧ validated g →
  built (AddNode g n).2 ∧ validated (AddNode g n).2.
Proof.
  intros Hid Hg. unfold AddNode.
  destruct (nodes g !! node.GetID n); [done|].
  match goal with |- context [AddNodeWithoutValidation g ?m] =>
    assert (Hm : node.id m ≠ ""); [|apply (AddNodeWithoutValidation_validated g m Hm Hg)]
  end.
  destruct (_ && _); [|done]. unfold node.AddKind. by destruct (negb _).
Qed.

Lemma AddEdgeWithoutValidation_built g e :
  edge.startNodeID e ≠ "" ∧ edge.endNodeID e ≠ "" ∧ edge.kind e ≠ "" →
  built g → built (AddEdgeWithoutValidation g e).2.
Proof.
  intros He [Hkey Hfields]. split; [done|].
  cbn [AddEdgeWithoutValidation snd edges].
  intros e' [Hin| ->%list_elem_of_singleton]%elem_of_app; [by apply Hfields|done].
Qed.

Lemma AddEdge_validated g e :
  edge.startNodeID e ≠ "" ∧ edge.endNodeID e ≠ "" ∧ edge.kind e ≠ "" →
  built g ∧ validated g →
  built (AddEdge g e).2 ∧ validated (AddEdge g e).2.
Proof.
  intros He [Hb [Hreg Hnd]]. unfold AddEdge, edge.GetStartNodeID, edge.GetEndNodeID.
  destruct (nodes g !! edge.startNodeID e) eqn:Hs; [|done].
  destruct (nodes g !! edge.endNodeID e) eqn:Ht; [|done].
  destruct (existsb _ (edges g)) eqn:Hex; [done|].
  split; [by apply AddEdgeWithoutValidation_built|].
  cbn [AddEdgeWithoutValidation snd]. split; cbn [nodes edges].
  - intros e' [Hin| ->%list_elem_of_singleton]%elem_of_app; [by apply Hreg|].
    rewrite Hs, Ht. by split.
  - rewrite fmap_app. apply NoDup_app. split; [done|].
    split; [|apply NoDup_singleton].
    intros t (e' & -> & Hin)%list_elem_of_fmap [= Hts Hte Htk]%list_elem_of_singleton.
    apply not_true_iff_false in Hex. apply Hex, duplicate_edge_found.
    by exists e'.
Qed.

Lemma RemoveNodeByID_validated g id :
  built g ∧ validated g →
  built (RemoveNodeByID g id).2 ∧ validated (RemoveNodeByID g id).2.
Proof.
  intros [[Hkey Hfields] [Hreg Hnd]]. unfold RemoveNodeByID.
  destruct (nodes g !! id) eqn:Hid; [|done]. cbn [snd].
  assert (Hin : ∀ e, e ∈ List.filter
            (fun e => negb (bool_decide (edge.GetStartNodeID e = id))
                      && negb (bool_decide (edge.GetEndNodeID e = id))) (edges g) →
            e ∈ edges g ∧ edge.startNodeID e ≠ id ∧ edge.endNodeID e ≠ id).
  { intros e. rewrite !list_elem_of_In, filter_In, andb_true_iff, !negb_true_iff,
      !bool_decide_eq_false. done. }
  split; split; cbn [nodes edges].
  - intros k m [_ Hk]%lookup_delete_Some. by apply Hkey.
  - intros e [He _]%Hin. by apply Hfields.
  - intros e (He & Hs & Ht)%Hin. rewrite !lookup_delete_ne by done. by apply Hreg.
  - clear Hin Hreg Hfields. induction (edges g) as [|a l IH]; [apply NoDup_nil_2|].
    rewrite fmap_cons in Hnd. apply NoDup_cons in Hnd as [Ha Hl].
    cbn [List.filter]. destruct (_ && _); [|by apply IH].
    rewrite fmap_cons. apply NoDup_cons. split; [|by apply IH].
    intros (e' & Heq & Hin')%list_elem_of_fmap. apply Ha.
    apply list_elem_of_fmap. exists e'. split; [done|].
    apply list_elem_of_In in Hin'. apply filter_In in Hin' as [Hin' _].
    by apply list_elem_of_In.
Qed.

(** Every graph assembled with the validating mutators is of the kind the
    round-trip law is about. *)
Lemma assembled_validated g : assembled g → built g ∧ validated g.
Proof.
  induction 1 as [sk|g id kinds p n _ IH Hn|g s t k p e _ IH He|g id _ IH|g _ _].
  - apply NewOpenGraph_validated.
  - apply NewNode_Ok in Hn as [Heq Hid]. apply AddNode_validated; [congruence|done].
  - apply NewEdge_Ok in He as ([= Hs Ht Hk] & ? & ? & ?).
    apply AddEdge_validated; [|done]. repeat split; congruence.
  - by apply RemoveNodeByID_validated.
  - apply (NewOpenGraph_validated (sourceKind g)).
Qed.

End built_facts.

(** ** Path enumeration *)
Section find_paths.
Context {Value : Type}.
Implicit Types (g : OpenGraph Value) (e : edge.Edge Value) (st : search).

Lemma foldl_preserves {A B} (P : A → Prop) (f : A → B → A) (l : list B) (a : A) :
  P a → (∀ a b, b ∈ l → P a → P (f a b)) → P (foldl f a l).
Proof.
  revert a. induction l as [|b l IH]; intros a Ha Hstep; simpl; [done|].
  apply IH.
  - apply Hstep; [left|done].
  - intros a' b' Hb'. apply Hstep. by right.
Qed.

Lemma GetEdgesFromNode_elem g id e :
  e ∈ GetEdgesFromNode g id ↔ e ∈ edges g ∧ edge.startNodeID e = id.
Proof.
  unfold GetEdgesFromNode, edge.GetStartNodeID.
  by rewrite !list_elem_of_In, filter_In, bool_decide_eq_true.
Qed.

(** *** The loop ends *)

Lemma unmarked_length_mono (l : list (edge.Edge Value)) (seen seen' : gset string) :
  seen ⊆ seen' →
  length (List.filter (fun e => negb (bool_decide (edge.endNodeID e ∈ seen'))) l)
  ≤ length (List.filter (fun e => negb (bool_decide (edge.endNodeID e ∈ seen))) l).
Proof.
  intros Hsub. induction l as [|a l IH]; simpl; [done|].
  destruct (decide (edge.endNodeID a ∈ seen)) as [Hin|Hnin].
  - rewrite (bool_decide_eq_true_2 _ Hin).
    rewrite bool_decide_eq_true_2 by set_solver. done.
  - rewrite (bool_decide_eq_false_2 _ Hnin). simpl.
    destruct (bool_decide (edge.endNodeID a ∈ seen')); simpl; lia.
Qed.

(** Marking the end id of a stored edge for the first time leaves strictly
    fewer unmarked edges. *)
Lemma unmarked_mark g (seen : gset string) e :
  e ∈ edges g → edge.endNodeID e ∉ seen →
  S (length (unmarked g ({[edge.endNodeID e]} ∪ seen))) ≤ length (unmarked g seen).
Proof.
  intros Hin Hnew. unfold unmarked.
  induction (edges g) as [|a l IH]; [by apply elem_of_nil in Hin|].
  pose proof (unmarked_length_mono l seen ({[edge.endNodeID e]} ∪ seen)) as Hmono.
  apply elem_of_cons in Hin as [<-|Hin]; simpl.
  - rewrite (bool_decide_eq_false_2 _ Hnew).
    rewrite bool_decide_eq_true_2 by set_solver. simpl.
    apply le_n_S, Hmono. set_solver.
  - specialize (IH Hin).
    destruct (decide (edge.endNodeID a ∈ seen)) as [Ha|Ha].
    + rewrite (bool_decide_eq_true_2 _ Ha).
      rewrite bool_decide_eq_true_2 by set_solver. done.
    + rewrite (bool_decide_eq_false_2 _ Ha). simpl.
      destruct (bool_decide _); simpl; lia.
Qed.

(** One visit does not raise the number of queued items plus the number of
    edges that can still cause an item to be queued. *)
Lemma visit_measure g endID current st e :
  e ∈ edges g →
  length (queue (visit endID current st e))
    + length (unmarked g (visited (visit endID current st e)))
  ≤ length (queue st) + length (unmarked g (visited st)).
Proof.
  intros Hin. unfold visit, edge.GetEndNodeID.
  destruct (decide (edge.endNodeID e ∈ visited st)) as [Hv|Hv].
  - by rewrite (bool_decide_eq_true_2 _ Hv).
  - rewrite (bool_decide_eq_false_2 _ Hv).
    destruct (bool_decide (edge.endNodeID e = endID)); simpl; [done|].
    rewrite length_app. simpl.
    pose proof (unmarked_mark g (visited st) e Hin Hv). lia.
Qed.

Lemma bfs_enough_fuel g endID maxDepth fuel st :
  length (queue st) + length (unmarked g (visited st)) ≤ fuel →
  is_Some (bfs fuel g endID maxDepth st).
Proof.
  revert st. induction fuel as [|fuel IH]; intros st Hm.
  - destruct st as [ps vs [|c q]]; simpl in *; [eauto|lia].
  - destruct st as [ps vs [|c q]]; simpl in *; [eauto|].
    destruct (bool_decide _); [|eauto].
    apply IH.
    apply (foldl_preserves
      (fun s => length (queue s) + length (unmarked g (visited s))
                ≤ fuel)); simpl; [lia|].
    intros a b Hb Ha. apply GetEdgesFromNode_elem in Hb as [Hb _].
    pose proof (visit_measure g endID c a b Hb). lia.
Qed.

(** [FindPaths] returns on every input: the fuel it hands to the loop is
    never used up. *)
Lemma FindPaths_returns g startID endID maxDepth :
  is_Some (FindPaths g startID endID maxDepth).
Proof.
  unfold FindPaths.
  destruct (nodes g !! startID); [|eauto].
  destruct (nodes g !! endID); [|eauto].
  destruct (bool_decide _); [eauto|].
  apply bfs_enough_fuel. simpl.
  assert (length (unmarked g {[startID]}) ≤ length (edges g)); [|lia].
  unfold unmarked. apply List.filter_length_le.
Qed.

(** *** What the loop records *)

Lemma walk_snoc g p a b :
  walk g p → last p = Some a → linked g a b → walk g (p ++ [b]).
Proof.
  induction p as [|x [|y p] IH]; simpl; [done| |].
  - intros _ [= ->] Hl. done.
  - intros [Hxy Hw] Hlast Hl. split; [done|]. by apply IH.
Qed.

Lemma simple_from_snoc g startID (seen : gset string) a b p e :
  simple_from g startID a p →
  (∀ x, x ∈ p → x ∈ seen) →
  e ∈ edges g → edge.startNodeID e = a → edge.endNodeID e = b → b ∉ seen →
  simple_from g startID b (p ++ [b]).
Proof.
  intros (Hhd & Hlast & Hnd & Hw) Hseen He Hs Ht Hb. repeat split.
  - destruct p; [done|]. done.
  - by rewrite last_snoc.
  - apply NoDup_app. repeat split; [done| |apply NoDup_singleton].
    intros x Hx ->%list_elem_of_singleton. by apply Hb, Hseen.
  - apply (walk_snoc g p a b); [done..|]. by exists e.
Qed.

(** The invariant survives the visit of an edge that leaves the item that
    was taken from the queue. *)
Lemma visit_ok g startID endID maxDepth current st e :
  simple_from g startID (item_id current) (item_path current) →
  (Z.of_nat (length (item_path current)) ≤ maxDepth)%Z →
  e ∈ edges g → edge.startNodeID e = item_id current →
  search_ok g startID endID maxDepth st
    ∧ (∀ x, x ∈ item_path current → x ∈ visited st) →
  search_ok g startID endID maxDepth (visit endID current st e)
    ∧ (∀ x, x ∈ item_path current → x ∈ visited (visit endID current st e)).
Proof.
  intros Hcur Hlen He Hs [[Hq Hend Hrec Hnil] Hseen].
  unfold visit, edge.GetEndNodeID. simpl.
  destruct (decide (edge.endNodeID e ∈ visited st)) as [Hv|Hv].
  { rewrite (bool_decide_eq_true_2 _ Hv). by split. }
  rewrite (bool_decide_eq_false_2 _ Hv).
  pose proof (simple_from_snoc g startID (visited st) _ _ _ e Hcur Hseen He Hs eq_refl Hv)
    as Hnew.
  destruct (decide (edge.endNodeID e = endID)) as [Heq|Hne].
  - rewrite (bool_decide_eq_true_2 _ Heq). split; [|done].
    split; simpl; [done..| |].
    + intros p [Hp| ->%list_elem_of_singleton]%elem_of_app; [by apply Hrec|].
      rewrite <- Heq. split; [done|]. rewrite length_app. simpl. lia.
    + right. by destruct (elems (paths st)).
  - rewrite (bool_decide_eq_false_2 _ Hne).
    split; [|simpl; intros x Hx; by apply elem_of_union_r, Hseen].
    split; simpl; [| |done..].
    + intros it [Hit| ->%list_elem_of_singleton]%elem_of_app.
      * destruct (Hq it Hit) as [? Hsub]. split; [done|].
        intros x Hx. by apply elem_of_union_r, Hsub.
      * simpl. split; [done|].
        intros x [Hx| ->%list_elem_of_singleton]%elem_of_app.
        -- by apply elem_of_union_r, Hseen.
        -- by apply elem_of_union_l, elem_of_singleton.
    + rewrite not_elem_of_union, not_elem_of_singleton. by split.
Qed.

Lemma bfs_ok g startID endID maxDepth fuel st res :
  search_ok g startID endID maxDepth st →
  bfs fuel g endID maxDepth st = Some res →
  (∀ p, p ∈ elems res →
     simple_from g startID endID p ∧ (Z.of_nat (length p) ≤ maxDepth + 1)%Z)
  ∧ (res = nil_slice ∨ elems res ≠ []).
Proof.
  revert st. induction fuel as [|fuel IH]; intros st Hok.
  - destruct st as [ps vs [|c q]]; simpl.
    + intros [= <-]. by destruct Hok.
    + destruct (bool_decide _); [done|]. intros [= <-]. by destruct Hok.
  - destruct st as [ps vs [|c q]]; simpl.
    + intros [= <-]. by destruct Hok.
    + destruct (bool_decide_reflect (Z.of_nat (length (item_path c)) ≤ maxDepth)%Z)
        as [Hlen|_]; [|intros [= <-]; by destruct Hok].
      apply IH.
      destruct Hok as [Hq Hend Hrec Hnil]. simpl in *.
      destruct (Hq c) as [Hc Hcseen]; [left|].
      apply (foldl_preserves (fun s =>
        search_ok g startID endID maxDepth s
        ∧ (∀ x, x ∈ item_path c → x ∈ visited s))).
      * split; [|done]. split; simpl; [|done..].
        intros it Hit. apply Hq. by right.
      * intros a b Hb Ha. apply GetEdgesFromNode_elem in Hb as [Hb Hs].
        by apply (visit_ok g startID endID maxDepth c a b).
Qed.

Lemma search_ok_initial g startID endID maxDepth :
  startID ≠ endID →
  search_ok g startID endID maxDepth
    (mkSearch nil_slice {[startID]} [mkItem startID [startID]]).
Proof.
  intros Hne. split; simpl.
  - intros it ->%list_elem_of_singleton. simpl. split.
    + repeat split; [apply NoDup_singleton].
    + intros x ->%list_elem_of_singleton. by apply elem_of_singleton.
  - rewrite not_elem_of_singleton. congruence.
  - intros p Hp. by apply elem_of_nil in Hp.
  - by left.
Qed.

(** What [FindPaths] returns for two distinct registered ids. *)
Lemma FindPaths_distinct g startID endID maxDepth :
  is_Some (nodes g !! startID) → is_Some (nodes g !! endID) → startID ≠ endID →
  ∃ res, FindPaths g startID endID maxDepth = Some res
    ∧ (∀ p, p ∈ elems res →
         simple_from g startID endID p ∧ (Z.of_nat (length p) ≤ maxDepth + 1)%Z)
    ∧ (res = nil_slice ∨ elems res ≠ []).
Proof.
  intros [ns Hs] [ne He] Hne.
  destruct (FindPaths_returns g startID endID maxDepth) as [res Hres].
  exists res. split; [done|].
  unfold FindPaths in Hres. rewrite Hs, He in Hres.
  rewrite (bool_decide_eq_false_2 _ Hne) in Hres.
  eapply bfs_ok; [|done]. by apply search_ok_initial.
Qed.

(** C10. For two distinct registered ids, [FindPaths] returns, and every
    path in its result begins with [startID], ends with [endID], repeats no
    node id and has at most [maxDepth + 1] node ids.  (Each path also
    follows stored edges.) *)
Theorem FindPaths_paths_simple g startID endID maxDepth :
  is_Some (nodes g !! startID) → is_Some (nodes g !! endID) → startID ≠ endID →
  ∃ res, FindPaths g startID endID maxDepth = Some res
    ∧ ∀ p, p ∈ elems res →
        head p = Some startID ∧ last p = Some endID ∧ NoDup p
        ∧ (Z.of_nat (length p) ≤ maxDepth + 1)%Z
        ∧ walk g p.
Proof.
  intros Hs He Hne.
  destruct (FindPaths_distinct g startID endID maxDepth Hs He Hne)
    as (res & Hres & Hall & _).
  exists res. split; [done|]. intros p Hp.
  destruct (Hall p Hp) as [(? & ? & ? & ?) ?]. done.
Qed.

(** C2, as the code has it.  When either id is not registered the result
    is the nil slice.  When both ids are registered and distinct and no path
    along stored edges leads from [startID] to [endID] within [maxDepth]
    edges, the result holds no path, and it is the nil slice again: the
    variable [paths] is declared without a value and only [append] gives it
    one. *)
Theorem FindPaths_no_path g startID endID maxDepth :
  (nodes g !! startID = None ∨ nodes g !! endID = None →
   FindPaths g startID endID maxDepth = Some nil_slice)
  ∧ (is_Some (nodes g !! startID) → is_Some (nodes g !! endID) →
     startID ≠ endID →
     (¬ ∃ p, path_within g startID endID maxDepth p) →
     FindPaths g startID endID maxDepth = Some nil_slice).
Proof.
  split.
  - unfold FindPaths. intros [->| Hn]; [done|].
    rewrite Hn. by destruct (nodes g !! startID).
  - intros Hs He Hne Hnone.
    destruct (FindPaths_distinct g startID endID maxDepth Hs He Hne)
      as (res & Hres & Hall & Hnil).
    rewrite Hres. f_equal.
    destruct Hnil as [->|Hnonempty]; [done|].
    destruct (elems res) as [|p ps] eqn:Hel; [done|].
    destruct (Hall p) as [(? & ? & ? & ?) ?]; [left|].
    destruct Hnone. exists p. by repeat split.
Qed.

Lemma no_path_without_edges g a b maxDepth :
  edges g = [] → a ≠ b → ¬ ∃ p, path_within g a b maxDepth p.
Proof.
  intros Hnone Hne (p & Hhd & Hlast & Hw & _).
  destruct p as [|x [|y p]]; [done| |].
  - cbn in Hhd, Hlast. congruence.
  - destruct Hw as [(e & Hin & _) _]. rewrite Hnone in Hin.
    by apply elem_of_nil in Hin.
Qed.

End find_paths.

(** ** Export *)
(** The keys of a dictionary that is built from string literals are written
    as they are. *)
Ltac literal_keys :=
  let k := fresh "k" in
  let a := fresh "a" in
  let Hk := fresh "Hk" in
  intros k [a Hk];
  repeat (apply lookup_insert_Some in Hk as [[<- _]|[_ Hk]];
          [vm_compute; reflexivity|]);
  by rewrite lookup_empty in Hk.

Section export_facts.
Context {Value : Type} `{!Codec Value}.
Implicit Types (g : OpenGraph Value) (n : node.Node Value) (e : edge.Edge Value).

(** A valid string is written as it is. *)
Lemma validFrom_coerceFrom k s : validFrom k s = true → coerceFrom k s = s.
Proof.
  revert k. induction s as [|c s IH]; intros k; [done|].
  cbn [validFrom coerceFrom]. destruct k as [|k].
  - destruct (runeWidth (String c s)) as [w|]; [|done].
    intros Hv. by rewrite (IH _ Hv).
  - intros Hv. by rewrite (IH _ Hv).
Qed.

Lemma ValidString_coerceUTF8 s : ValidString s = true → coerceUTF8 s = s.
Proof. apply validFrom_coerceFrom. Qed.

(** Writing never shortens a string, so only a valid string is written as
    it is. *)
Lemma coerceFrom_length k s : String.length s ≤ String.length (coerceFrom k s).
Proof.
  revert k. induction s as [|c s IH]; intros k; [done|].
  cbn [coerceFrom]. destruct k as [|k].
  - destruct (runeWidth (String c s)) as [w|].
    + cbn [String.length]. specialize (IH (w - 1)). lia.
    + cbn [replacementChar String.length]. specialize (IH 0). lia.
  - cbn [String.length]. specialize (IH k). lia.
Qed.

Lemma coerceFrom_validFrom k s : coerceFrom k s = s → validFrom k s = true.
Proof.
  revert k. induction s as [|c s IH]; intros k; [done|].
  cbn [validFrom coerceFrom]. destruct k as [|k].
  - destruct (runeWidth (String c s)) as [w|].
    + intros [= Heq]. by apply IH.
    + intros Heq. apply (f_equal String.length) in Heq.
      cbn [replacementChar String.length] in Heq.
      pose proof (coerceFrom_length 0 s). lia.
  - intros [= Heq]. by apply IH.
Qed.

Lemma ValidString_iff s : ValidString s = true ↔ coerceUTF8 s = s.
Proof. split; [apply validFrom_coerceFrom|apply coerceFrom_validFrom]. Qed.

(** Members under distinct keys that are written as they are. *)
Lemma foldl_insert_members (c : string → string) (l : list (string * JSON))
    (acc : gmap string JSON) :
  NoDup l.*1 → (∀ kv, kv ∈ l → c kv.1 = kv.1) →
  foldl (fun acc kv => <[c kv.1 := kv.2]> acc) acc l = list_to_map l ∪ acc.
Proof.
  revert acc. induction l as [|[k v] l IH]; intros acc Hnd Hc.
  - cbn [foldl list_to_map foldr]. by rewrite (left_id_L ∅ (∪)).
  - rewrite fmap_cons in Hnd. apply NoDup_cons in Hnd as [Hk Hnd].
    cbn [foldl]. rewrite (Hc (k, v)) by left. cbn [fst snd].
    rewrite IH; [|done|intros kv Hkv; apply Hc; by right].
    cbn [list_to_map foldr fst snd uncurry]. rewrite <- insert_union_l.
    symmetry. apply insert_union_r. by apply not_elem_of_list_to_map_1.
Qed.

(** An object all of whose keys are valid is read back as it is. *)
Lemma writeMembers_valid (m : gmap string JSON) :
  (∀ k, is_Some (m !! k) → coerceUTF8 k = k) → writeMembers m = m.
Proof.
  intros Hkeys. unfold writeMembers, sortedMembers.
  assert (Hperm : merge_sort keyLe (map_to_list m) ≡ₚ map_to_list m)
    by apply merge_sort_Permutation.
  rewrite foldl_insert_members.
  - rewrite (right_id_L ∅ (∪)).
    rewrite (list_to_map_proper _ (map_to_list m)); [apply list_to_map_to_list| |done].
    rewrite Hperm. apply NoDup_fst_map_to_list.
  - rewrite Hperm. apply NoDup_fst_map_to_list.
  - intros [k v] Hkv. rewrite Hperm in Hkv. apply elem_of_map_to_list in Hkv.
    apply Hkeys. by eexists.
Qed.

Lemma writeMembers_omap {A} (f : A → option JSON) (m : gmap string A) :
  (∀ k, is_Some (m !! k) → coerceUTF8 k = k) →
  writeMembers (omap f m) = omap f m.
Proof.
  intros Hkeys. apply writeMembers_valid. intros k [j Hj]. apply Hkeys.
  rewrite lookup_omap in Hj. destruct (m !! k); [by eexists|done].
Qed.

Lemma writeMembers_fmap {A} (f : A → JSON) (m : gmap string A) :
  (∀ k, is_Some (m !! k) → coerceUTF8 k = k) →
  writeMembers (f <$> m) = f <$> m.
Proof.
  intros Hkeys. apply writeMembers_valid. intros k [j Hj]. apply Hkeys.
  rewrite lookup_fmap in Hj. destruct (m !! k); [by eexists|done].
Qed.

Lemma node_ToDict_keys n k : is_Some (node.ToDict n !! k) → coerceUTF8 k = k.
Proof. revert k. unfold node.ToDict. literal_keys. Qed.

Lemma edge_ToDict_keys e k : is_Some (edge.ToDict e !! k) → coerceUTF8 k = k.
Proof.
  revert k. unfold edge.ToDict. destruct (bool_decide _); literal_keys.
Qed.

Lemma marshalMap_Some {A} (f : A → option JSON) (m : gmap string A) j :
  marshalMap f m = Some j →
  j = JObject (writeMembers (omap f m)) ∧ ∀ k a, m !! k = Some a → is_Some (f a).
Proof.
  unfold marshalMap. destruct (decide _) as [Hall|]; [|done].
  intros [= <-]. split; [done|]. intros k a Hk.
  by apply (map_Forall_lookup_1 _ _ _ _ Hall Hk).
Qed.

Lemma marshalMap_is_Some {A} (f : A → option JSON) (m : gmap string A) :
  (∀ k a, m !! k = Some a → is_Some (f a)) →
  marshalMap f m = Some (JObject (writeMembers (omap f m))).
Proof.
  intros Hall. unfold marshalMap. rewrite decide_True; [done|].
  by apply map_Forall_lookup.
Qed.

(** Appending the dictionaries one by one to an allocated slice. *)
Lemma foldl_append {A B} (f : A → B) (l : list A) (acc : list B) :
  foldl (fun s x => append s (f x)) (mk_slice acc) l = mk_slice (acc ++ (f <$> l)).
Proof.
  revert acc. induction l as [|x l IH]; intros acc; simpl.
  - by rewrite app_nil_r.
  - unfold append at 2. simpl. rewrite IH. by rewrite <- app_assoc.
Qed.

(** The shape of every document that [ExportJSON] produces. *)
Lemma ExportJSONIn_Some order g includeMetadata doc :
  ExportJSONIn order g includeMetadata = Some doc →
  ∃ top content nodesArr edgesArr,
    doc = JObject top
    ∧ top !! "graph" = Some (JObject content)
    ∧ content !! "nodes" = Some (JArray nodesArr)
    ∧ mapM (marshalMap marshalDyn) (node.ToDict <$> order) = Some nodesArr
    ∧ content !! "edges" = Some (JArray edgesArr)
    ∧ mapM (marshalMap marshalDyn) (edge.ToDict <$> edges g) = Some edgesArr
    ∧ top !! "metadata"
      = if includeMetadata && negb (bool_decide (sourceKind g = ""))
        then Some (JObject {["source_kind" := marshalString (sourceKind g)]})
        else None.
Proof.
  unfold ExportJSONIn, MarshalIndent. rewrite !foldl_append, !app_nil_l.
  set (content := (<["edges" := mk_slice (edge.ToDict <$> edges g)]>
                    (<["nodes" := mk_slice (node.ToDict <$> order)]> ∅)
                    : gmap string (slice (gmap string (Dyn Value))))).
  match goal with |- marshalMap _ ?gd = _ → _ => set (graphData := gd) end.
  intros [-> Hall]%marshalMap_Some.
  assert (Hkd : ∀ k, is_Some (graphData !! k) → coerceUTF8 k = k).
  { subst graphData. destruct (_ && _); literal_keys. }
  assert (Hkc : ∀ k, is_Some (content !! k) → coerceUTF8 k = k).
  { subst content. literal_keys. }
  rewrite (writeMembers_omap _ _ Hkd).
  assert (Hgraph : graphData !! "graph" = Some (PContent content)).
  { subst graphData. destruct (_ && _).
    - rewrite lookup_insert_ne by (intros [=]). apply lookup_insert_eq.
    - apply lookup_insert_eq. }
  destruct (Hall _ _ Hgraph) as [jc Hjc]. cbn [marshalPart] in Hjc.
  pose proof Hjc as [Hjc' Hallc]%marshalMap_Some.
  rewrite (writeMembers_omap _ _ Hkc) in Hjc'. subst jc.
  assert (Hnodes : content !! "nodes" = Some (mk_slice (node.ToDict <$> order))).
  { subst content. rewrite lookup_insert_ne by (intros [=]). apply lookup_insert_eq. }
  assert (Hedges : content !! "edges" = Some (mk_slice (edge.ToDict <$> edges g))).
  { subst content. apply lookup_insert_eq. }
  destruct (Hallc _ _ Hnodes) as [jn Hjn].
  destruct (Hallc _ _ Hedges) as [je Hje]. cbn [marshalDicts] in Hjn, Hje.
  destruct (mapM (marshalMap marshalDyn) (node.ToDict <$> order))
    as [nodesArr|] eqn:HN; [|discriminate Hjn].
  destruct (mapM (marshalMap marshalDyn) (edge.ToDict <$> edges g))
    as [edgesArr|] eqn:HE; [|discriminate Hje].
  exists (omap marshalPart graphData), (omap marshalDicts content), nodesArr, edgesArr.
  split; [reflexivity|]. rewrite !lookup_omap, Hgraph, Hnodes, Hedges.
  cbn [mbind option_bind marshalPart marshalDicts]. rewrite HN, HE, Hjc.
  do 5 (split; [reflexivity|]).
  subst graphData. destruct (_ && _).
  - rewrite lookup_insert_eq. cbn [mbind option_bind marshalPart].
    rewrite marshalMap_is_Some.
    + rewrite writeMembers_omap by literal_keys.
      by rewrite omap_insert_Some with (y := marshalString (sourceKind g)), omap_empty.
    + intros k a [[_ <-]|[_ Hk]]%lookup_insert_Some; [by eexists|].
      by rewrite lookup_empty in Hk.
  - rewrite lookup_insert_ne by (intros [=]). by rewrite lookup_empty.
Qed.

Lemma marshal_properties_is_Some (p : properties.Properties Value) :
  map_Forall (fun _ v => is_Some (marshalValue v)) (properties.entries p) →
  is_Some (marshalDyn (DProps (properties.GetAllProperties p))).
Proof.
  intros Hall. cbn [marshalDyn]. rewrite GetAllProperties_copy.
  rewrite marshalMap_is_Some; [by eexists|].
  intros k a Hk. by apply (map_Forall_lookup_1 _ _ _ _ Hall Hk).
Qed.

Lemma marshal_node_is_Some n :
  map_Forall (fun _ v => is_Some (marshalValue v))
             (properties.entries (node.properties n)) →
  is_Some (marshalMap marshalDyn (node.ToDict n)).
Proof.
  intros Hall. rewrite marshalMap_is_Some; [by eexists|]. unfold node.ToDict.
  intros k a [[_ <-]|[_ [[_ <-]|[_ [[_ <-]|[_ Hk]]%lookup_insert_Some]]%lookup_insert_Some]]
    %lookup_insert_Some.
  - by eexists.
  - by eexists.
  - by apply marshal_properties_is_Some.
  - by rewrite lookup_empty in Hk.
Qed.

Lemma marshal_edge_is_Some e :
  map_Forall (fun _ v => is_Some (marshalValue v))
             (properties.entries (edge.properties e)) →
  is_Some (marshalMap marshalDyn (edge.ToDict e)).
Proof.
  intros Hall. rewrite marshalMap_is_Some; [by eexists|].
  unfold edge.ToDict, properties.ToDict.
  assert (Hbase : ∀ k a,
    (<["kind" := DString (edge.kind e)]>
     (<["start" := DStringMap (<["value" := edge.startNodeID e]> (<["match_by" := "id"]> ∅))]>
     (<["end" := DStringMap (<["value" := edge.endNodeID e]> (<["match_by" := "id"]> ∅))]> ∅))
     : gmap string (Dyn Value)) !! k = Some a → is_Some (marshalDyn a)).
  { intros k a [[_ <-]|[_ [[_ <-]|[_ [[_ <-]|[_ Hk]]%lookup_insert_Some]]
      %lookup_insert_Some]]%lookup_insert_Some; [by eexists..|].
    by rewrite lookup_empty in Hk. }
  destruct (bool_decide _); [|done].
  intros k a [[_ <-]|[_ Hk]]%lookup_insert_Some; [|by apply (Hbase k)].
  by apply marshal_properties_is_Some.
Qed.

(** [ExportJSON] produces a document as soon as the encoder accepts every
    property value of the graph. *)
Lemma ExportJSONIn_returns order g includeMetadata :
  (∀ n, n ∈ order → map_Forall (fun _ v => is_Some (marshalValue v))
                               (properties.entries (node.properties n))) →
  (∀ e, e ∈ edges g → map_Forall (fun _ v => is_Some (marshalValue v))
                                 (properties.entries (edge.properties e))) →
  is_Some (ExportJSONIn order g includeMetadata).
Proof.
  intros Hns Hes. unfold ExportJSONIn, MarshalIndent.
  rewrite !foldl_append, !app_nil_l.
  assert (Hcontent : is_Some (marshalPart (PContent
    (<["edges" := mk_slice (edge.ToDict <$> edges g)]>
    (<["nodes" := mk_slice (node.ToDict <$> order)]> ∅))))).
  { cbn [marshalPart]. rewrite marshalMap_is_Some; [by eexists|].
    intros k a [[_ <-]|[_ [[_ <-]|[_ Hk]]%lookup_insert_Some]]%lookup_insert_Some.
    - cbn [marshalDicts]. apply fmap_is_Some, mapM_is_Some, Forall_fmap, Forall_forall.
      intros e He. by apply marshal_edge_is_Some, Hes.
    - cbn [marshalDicts]. apply fmap_is_Some, mapM_is_Some, Forall_fmap, Forall_forall.
      intros n Hn. by apply marshal_node_is_Some, Hns.
    - by rewrite lookup_empty in Hk. }
  rewrite marshalMap_is_Some; [by eexists|].
  destruct (_ && _).
  - intros k a [[_ <-]|[_ [[_ <-]|[_ Hk]]%lookup_insert_Some]]%lookup_insert_Some.
    + cbn [marshalPart]. rewrite marshalMap_is_Some; [by eexists|].
      intros k' a' [[_ <-]|[_ Hk']]%lookup_insert_Some; [by eexists|].
      by rewrite lookup_empty in Hk'.
    + done.
    + by rewrite lookup_empty in Hk.
  - intros k a [[_ <-]|[_ Hk]]%lookup_insert_Some; [done|].
    by rewrite lookup_empty in Hk.
Qed.

(** C7, as the code has it.  Whenever [ExportJSON] produces a document,
    whatever the order in which the nodes are enumerated, the document is an
    object whose member "graph" is an object with the members "nodes" and
    "edges", both arrays: one element per node and one per edge, hence the
    empty array for a graph without nodes or without edges, and never null.
    The top level has the member "metadata" exactly when [includeMetadata]
    is true and the sourceKind is not empty; it is then the object whose
    only member "source_kind" is the sourceKind as the encoder writes a
    string, each byte that is not part of a well-formed UTF-8 sequence
    replaced by U+FFFD: the sourceKind itself when it is valid UTF-8. *)
Theorem ExportJSON_shape order g includeMetadata doc :
  order ≡ₚ (map_to_list (nodes g)).*2 →
  ExportJSONIn order g includeMetadata = Some doc →
  ∃ top content nodesArr edgesArr,
    doc = JObject top
    ∧ top !! "graph" = Some (JObject content)
    ∧ content !! "nodes" = Some (JArray nodesArr)
    ∧ length nodesArr = GetNodeCount g
    ∧ content !! "edges" = Some (JArray edgesArr)
    ∧ length edgesArr = GetEdgeCount g
    ∧ (is_Some (top !! "metadata") ↔ includeMetadata = true ∧ sourceKind g ≠ "")
    ∧ (is_Some (top !! "metadata") →
       top !! "metadata"
       = Some (JObject {["source_kind" := JString (coerceUTF8 (sourceKind g))]}))
    ∧ (is_Some (top !! "metadata") → ValidString (sourceKind g) = true →
       top !! "metadata" = Some (JObject {["source_kind" := JString (sourceKind g)]})).
Proof.
  intros Hperm Hdoc.
  destruct (ExportJSONIn_Some _ _ _ _ Hdoc)
    as (top & content & nodesArr & edgesArr & -> & Hg & Hn & HN & He & HE & Hm).
  exists top, content, nodesArr, edgesArr.
  apply mapM_Some, Forall2_length in HN. apply mapM_Some, Forall2_length in HE.
  rewrite length_fmap in HN. rewrite length_fmap in HE.
  do 3 (split; [assumption || reflexivity|]).
  split; [rewrite <- HN, Hperm, length_fmap; apply length_map_to_list|].
  split; [assumption|]. split; [by rewrite <- HE|].
  rewrite Hm. clear Hm Hdoc Hg. unfold marshalString.
  destruct includeMetadata; cbn [andb].
  - destruct (decide (sourceKind g = "")) as [Heq|Hne].
    + rewrite (bool_decide_eq_true_2 _ Heq). cbn [negb].
      split; [split; [by intros []|by intros []]|].
      split; [by intros []|by intros []].
    + rewrite (bool_decide_eq_false_2 _ Hne). cbn [negb].
      split; [split; [by intros _|by eexists]|].
      split; [by intros _|]. intros _ Hvalid.
      by rewrite (ValidString_coerceUTF8 _ Hvalid).
  - split; [split; [by intros []|by intros []]|].
    split; [by intros []|by intros []].
Qed.

End export_facts.

(** ** Import of an exported document *)
Section import_facts.
Context {Value : Type} `{!Codec Value}.
Implicit Types (g : OpenGraph Value) (n : node.Node Value) (e : edge.Edge Value).

Lemma parseStrings_marshal (l : list string) :
  parseStrings (Some (marshalStrings (mk_slice l)))
  = Some (mk_slice (coerceUTF8 <$> l)).
Proof.
  cbn [parseStrings marshalStrings asArray mbind option_bind].
  replace (marshalString <$> l) with (JString <$> (coerceUTF8 <$> l))
    by (by rewrite <- list_fmap_compose).
  by rewrite (mapM_fmap_Some asString JString (coerceUTF8 <$> l)).
Qed.

(** Reading back the record of a node whose id is valid UTF-8 gives a node
    with the same id; its kinds are the kinds as they were written. *)
Lemma parseNode_marshal n j :
  node.id n ≠ "" → ValidString (node.id n) = true →
  marshalMap marshalDyn (node.ToDict n) = Some j →
  ∃ n', parseNode j = Some n' ∧ node.id n' = node.id n
        ∧ node.kinds n' = coerceUTF8 <$> node.kinds n.
Proof.
  intros Hid Hvalid [-> Hall]%marshalMap_Some. unfold parseNode.
  rewrite (writeMembers_omap _ _ (node_ToDict_keys n)).
  cbn [asObject mbind option_bind]. rewrite !lookup_omap.
  assert (Hi : node.ToDict n !! "id" = Some (DString (node.id n))).
  { unfold node.ToDict. apply lookup_insert_eq. }
  assert (Hk : node.ToDict n !! "kinds"
               = Some (DStrings (mk_slice (node.kinds n)))).
  { unfold node.ToDict. rewrite lookup_insert_ne by (intros [=]).
    rewrite app_nil_l. apply lookup_insert_eq. }
  assert (Hp : ∃ m, node.ToDict n !! "properties" = Some (DProps m)).
  { unfold node.ToDict. eexists. rewrite !lookup_insert_ne by (intros [=]).
    apply lookup_insert_eq. }
  destruct Hp as [m Hp]. rewrite Hi, Hk, Hp.
  cbn [mbind option_bind marshalDyn marshalString asString].
  rewrite parseStrings_marshal. cbn [mbind option_bind].
  destruct (Hall _ _ Hp) as [jp Hjp]. cbn [marshalDyn] in Hjp.
  rewrite Hjp. apply marshalMap_Some in Hjp as [-> _].
  cbn [parseProperties asObject mbind option_bind].
  rewrite (ValidString_coerceUTF8 _ Hvalid).
  unfold node.NewNode. rewrite (bool_decide_eq_false_2 _ Hid).
  cbn [fromResult]. eexists. split; [reflexivity|]. by split.
Qed.

Lemma parseEndpoint_marshal (v : string) :
  parseEndpoint
    (Some (JObject (writeMembers
                      (marshalString <$> (<["value" := v]> (<["match_by" := "id"]> ∅))))))
  = Some (coerceUTF8 v).
Proof.
  unfold parseEndpoint. cbn [asObject mbind option_bind].
  rewrite writeMembers_fmap by literal_keys.
  by rewrite lookup_fmap, lookup_insert_eq.
Qed.

(** Reading back the record of an edge gives an edge with the same triple. *)
Lemma parseEdge_marshal e j :
  edge.startNodeID e ≠ "" → edge.endNodeID e ≠ "" → edge.kind e ≠ "" →
  ValidString (edge.startNodeID e) = true → ValidString (edge.endNodeID e) = true →
  ValidString (edge.kind e) = true →
  marshalMap marshalDyn (edge.ToDict e) = Some j →
  ∃ e', parseEdge j = Some e' ∧ triple e' = triple e.
Proof.
  intros Hs He Hk Hvs Hve Hvk [-> Hall]%marshalMap_Some. unfold parseEdge.
  rewrite (writeMembers_omap _ _ (edge_ToDict_keys e)).
  cbn [asObject mbind option_bind]. rewrite !lookup_omap.
  set (d := edge.ToDict e) in *.
  assert (Hkind : d !! "kind" = Some (DString (edge.kind e))).
  { subst d. unfold edge.ToDict. destruct (bool_decide _).
    - rewrite lookup_insert_ne by (intros [=]). apply lookup_insert_eq.
    - apply lookup_insert_eq. }
  assert (Hstart : d !! "start" = Some (DStringMap
            (<["value" := edge.startNodeID e]> (<["match_by" := "id"]> ∅)))).
  { subst d. unfold edge.ToDict. destruct (bool_decide _).
    - rewrite !lookup_insert_ne by (intros [=]). apply lookup_insert_eq.
    - rewrite !lookup_insert_ne by (intros [=]). apply lookup_insert_eq. }
  assert (Hend : d !! "end" = Some (DStringMap
            (<["value" := edge.endNodeID e]> (<["match_by" := "id"]> ∅)))).
  { subst d. unfold edge.ToDict. destruct (bool_decide _).
    - rewrite !lookup_insert_ne by (intros [=]). apply lookup_insert_eq.
    - rewrite !lookup_insert_ne by (intros [=]). apply lookup_insert_eq. }
  assert (Hprops : d !! "properties" = None
                   ∨ ∃ m, d !! "properties" = Some (DProps m)).
  { subst d. unfold edge.ToDict. destruct (bool_decide _).
    - right. eexists. apply lookup_insert_eq.
    - left. rewrite !lookup_insert_ne by (intros [=]). apply lookup_empty. }
  rewrite Hkind, Hstart, Hend.
  cbn [mbind option_bind marshalDyn marshalString asString].
  rewrite !parseEndpoint_marshal. cbn [mbind option_bind].
  rewrite (ValidString_coerceUTF8 _ Hvs), (ValidString_coerceUTF8 _ Hve),
    (ValidString_coerceUTF8 _ Hvk).
  assert (Hpp : ∃ p, parseProperties (d !! "properties" ≫= marshalDyn) = Some p).
  { destruct Hprops as [->|[m Hm]]; [by eexists|].
    rewrite Hm. destruct (Hall _ _ Hm) as [jp Hjp].
    cbn [mbind option_bind]. rewrite Hjp.
    cbn [marshalDyn] in Hjp. apply marshalMap_Some in Hjp as [-> _].
    by eexists. }
  destruct Hpp as [p ->]. cbn [mbind option_bind].
  unfold edge.NewEdge.
  rewrite (bool_decide_eq_false_2 _ Hs), (bool_decide_eq_false_2 _ He),
    (bool_decide_eq_false_2 _ Hk).
  cbn [fromResult]. eexists. split; reflexivity.
Qed.

(** What [AddNode] does to the graph, whether it succeeds or not. *)
Lemma AddNode_graph g n :
  edges (AddNode g n).2 = edges g
  ∧ sourceKind (AddNode g n).2 = sourceKind g
  ∧ (∀ k, is_Some (nodes (AddNode g n).2 !! k)
          ↔ is_Some (nodes g !! k) ∨ k = node.id n)
  ∧ (∀ k m, nodes (AddNode g n).2 !! k = Some m →
            nodes g !! k = Some m ∨ (k = node.id n ∧ node.id m = node.id n)).
Proof.
  unfold AddNode, AddNodeWithoutValidation, node.GetID.
  destruct (nodes g !! node.id n) as [old|] eqn:Hold; cbn [snd].
  - do 2 (split; [done|]). split.
    + intros k. split; [by left|]. intros [?| ->]; [done|by eexists].
    + intros k m ?. by left.
  - match goal with |- context [if ?c then ?a else n] =>
      set (n' := if c then a else n) end.
    assert (Hid : node.id n' = node.id n).
    { subst n'. destruct (_ && _); [|done]. unfold node.AddKind.
      by destruct (negb _). }
    rewrite Hid. cbn [nodes edges sourceKind]. do 2 (split; [done|]). split.
    + intros k. rewrite lookup_insert_is_Some. split.
      * intros [<-|[_ ?]]; [by right|by left].
      * intros [?| ->]; [|by left].
        destruct (decide (node.id n = k)); [by left|by right].
    + intros k m [[<- <-]|[? ?]]%lookup_insert_Some; [by right|by left].
Qed.

Lemma importNodes_marshal (ns : list (node.Node Value)) arr g :
  Forall (fun n => node.id n ≠ "" ∧ ValidString (node.id n) = true) ns →
  mapM (marshalMap marshalDyn) (node.ToDict <$> ns) = Some arr →
  ∃ g', importNodes g arr = Some g'
    ∧ edges g' = edges g
    ∧ sourceKind g' = sourceKind g
    ∧ (∀ k, is_Some (nodes g' !! k)
            ↔ is_Some (nodes g !! k) ∨ k ∈ node.id <$> ns)
    ∧ ((∀ k m, nodes g !! k = Some m → node.id m = k) →
       ∀ k m, nodes g' !! k = Some m → node.id m = k).
Proof.
  intros Hids. revert arr g.
  induction Hids as [|n ns [Hid Hvalid] Hids IH]; intros arr g Harr.
  - apply mapM_Some in Harr. inversion Harr; subst. exists g.
    cbn [importNodes]. do 3 (split; [done|]). split; [|done].
    intros k. rewrite fmap_nil, elem_of_nil. tauto.
  - apply mapM_Some in Harr. rewrite fmap_cons in Harr.
    inversion Harr as [|? j ? arr' Hj Hrest]; subst.
    destruct (parseNode_marshal n j Hid Hvalid Hj) as (n' & Hparse & Hn' & _).
    cbn [importNodes]. rewrite Hparse. cbn [mbind option_bind].
    apply mapM_Some in Hrest.
    destruct (IH arr' (AddNode g n').2 Hrest) as (g' & Himp & He & Hsk & Hdom & Hkey).
    destruct (AddNode_graph g n') as (He1 & Hsk1 & Hdom1 & Hkey1).
    exists g'. split; [done|]. split; [congruence|]. split; [congruence|]. split.
    + intros k. rewrite Hdom, Hdom1, fmap_cons, elem_of_cons, Hn'. tauto.
    + intros Hg. apply Hkey. intros k m Hm.
      destruct (Hkey1 k m Hm) as [?|[-> ?]]; [by apply Hg|done].
Qed.

Lemma importEdges_marshal (es : list (edge.Edge Value)) arr g :
  Forall (fun e => (edge.startNodeID e ≠ "" ∧ edge.endNodeID e ≠ ""
                    ∧ edge.kind e ≠ "")
                   ∧ ValidString (edge.startNodeID e) = true
                   ∧ ValidString (edge.endNodeID e) = true
                   ∧ ValidString (edge.kind e) = true) es →
  mapM (marshalMap marshalDyn) (edge.ToDict <$> es) = Some arr →
  (∀ e, e ∈ es → is_Some (nodes g !! edge.startNodeID e)
                 ∧ is_Some (nodes g !! edge.endNodeID e)) →
  NoDup (triple <$> (edges g ++ es)) →
  ∃ g' es', importEdges g arr = Some g'
    ∧ nodes g' = nodes g
    ∧ sourceKind g' = sourceKind g
    ∧ edges g' = edges g ++ es'
    ∧ Forall2 (fun e e' => triple e' = triple e) es es'.
Proof.
  intros Hfields. revert arr g.
  induction Hfields as [|e es ((Hs & He & Hk) & Hvs & Hve & Hvk) Hfields IH];
    intros arr g Harr Hreg Hnd.
  - apply mapM_Some in Harr. inversion Harr; subst. exists g, [].
    cbn [importEdges]. rewrite app_nil_r. by repeat split.
  - apply mapM_Some in Harr. rewrite fmap_cons in Harr.
    inversion Harr as [|? j ? arr' Hj Hrest]; subst.
    destruct (parseEdge_marshal e j Hs He Hk Hvs Hve Hvk Hj) as (e' & Hparse & Htr).
    cbn [importEdges]. rewrite Hparse. cbn [mbind option_bind].
    assert (Hadd : AddEdge g e'
              = (true, mkOpenGraph (nodes g) (edges g ++ [e']) (sourceKind g))).
    { pose proof Htr as [= Hts Hte Htk]. apply AddEdge_accepted.
      - rewrite Hts. apply Hreg. by left.
      - rewrite Hte. apply Hreg. by left.
      - intros e0 Hin Heq. rewrite fmap_app, fmap_cons in Hnd.
        apply NoDup_app in Hnd as (_ & Hdisj & _).
        apply (Hdisj (triple e0)); [by apply list_elem_of_fmap_2|].
        apply elem_of_cons. left. congruence. }
    rewrite Hadd. cbn [snd]. apply mapM_Some in Hrest.
    destruct (IH arr' (mkOpenGraph (nodes g) (edges g ++ [e']) (sourceKind g)) Hrest)
      as (g' & es' & Himp & Hn & Hsk & Hedges & Hall).
    + intros e0 Hin. cbn [nodes]. apply Hreg. by right.
    + cbn [edges]. rewrite <- app_assoc. cbn [app].
      rewrite fmap_app, fmap_cons, Htr, <- fmap_cons, <- fmap_app. done.
    + exists g', (e' :: es'). split; [done|]. split; [done|]. split; [done|].
      split; [|by constructor].
      rewrite Hedges. cbn [edges]. by rewrite <- app_assoc.
Qed.

Lemma order_nodes g (order : list (node.Node Value)) n :
  order ≡ₚ (map_to_list (nodes g)).*2 →
  n ∈ order ↔ ∃ k, nodes g !! k = Some n.
Proof.
  intros ->. rewrite list_elem_of_fmap. split.
  - intros ([k n'] & -> & Hin). exists k. by apply elem_of_map_to_list.
  - intros [k Hk]. exists (k, n). split; [done|]. by apply elem_of_map_to_list.
Qed.

(** Round trip for graphs whose edges are all validated and whose ids,
    edge kinds and sourceKind are valid UTF-8. *)
Lemma roundtrip_validated g order doc :
  built g → validated g → utf8_named g →
  order ≡ₚ (map_to_list (nodes g)).*2 →
  ExportJSONIn order g true = Some doc →
  ∃ g', FromJSON (NewOpenGraph "") doc = Some g'
    ∧ GetNodeCount g' = GetNodeCount g
    ∧ GetEdgeCount g' = GetEdgeCount g
    ∧ GetSourceKind g' = GetSourceKind g
    ∧ (∀ k, is_Some (nodes g' !! k) ↔ is_Some (nodes g !! k))
    ∧ (∀ k n', nodes g' !! k = Some n' → node.id n' = k)
    ∧ Forall2 (fun e e' => triple e' = triple e) (edges g) (edges g').
Proof.
  intros [Hkey Hfields] [Hreg Hnd] (Hvn & Hvk & Hvsk) Hperm Hdoc.
  destruct (ExportJSONIn_Some _ _ _ _ Hdoc)
    as (top & content & nodesArr & edgesArr & -> & Hg & Hn & HN & He & HE & Hm).
  assert (Hids : Forall (fun n => node.id n ≠ "" ∧ ValidString (node.id n) = true)
                        order).
  { apply Forall_forall. intros n Hin.
    apply (order_nodes g order n Hperm) in Hin as [k Hk].
    destruct (Hkey k n Hk) as [-> ?]. split; [done|]. apply Hvn. by eexists. }
  destruct (importNodes_marshal order nodesArr (NewOpenGraph "") Hids HN)
    as (g1 & Himp1 & He1 & Hsk1 & Hdom1 & Hkey1).
  assert (Hdom : ∀ k, is_Some (nodes g1 !! k) ↔ is_Some (nodes g !! k)).
  { intros k. rewrite Hdom1. cbn [NewOpenGraph nodes]. rewrite lookup_empty.
    rewrite list_elem_of_fmap. split.
    - intros [[? [=]]|(n & -> & Hin)].
      apply (order_nodes g order n Hperm) in Hin as [k' Hk'].
      destruct (Hkey k' n Hk') as [-> _]. by eexists.
    - intros [n Hk]. right. exists n. destruct (Hkey k n Hk) as [-> _].
      split; [done|]. apply (order_nodes g order n Hperm). by exists k. }
  destruct (importEdges_marshal (edges g) edgesArr g1) as
    (g2 & es' & Himp2 & Hn2 & Hsk2 & He2 & Hall); [|done| | |].
  { apply Forall_forall. intros e Hin. destruct (Hreg e Hin) as [Hrs Hre].
    split; [by apply Hfields|]. split; [by apply Hvn|]. split; [by apply Hvn|].
    by apply Hvk. }
  { intros e Hin. rewrite !Hdom. by apply Hreg. }
  { rewrite He1. cbn [NewOpenGraph edges app]. done. }
  rewrite He1 in He2. cbn [NewOpenGraph edges app] in He2.
  cbn [NewOpenGraph sourceKind] in Hsk1.
  assert (Hsize : size (nodes g2) = size (nodes g)).
  { rewrite Hn2, <- !size_dom. f_equal. apply set_eq. intros k.
    rewrite !elem_of_dom. apply Hdom. }
  assert (Hkey2 : ∀ k n', nodes g2 !! k = Some n' → node.id n' = k).
  { rewrite Hn2. apply Hkey1. cbn [NewOpenGraph nodes]. intros k m Hm'.
    by rewrite lookup_empty in Hm'. }
  assert (Hlen : length es' = length (edges g)).
  { symmetry. by eapply Forall2_length. }
  unfold FromJSON. cbn [asObject mbind option_bind]. rewrite Hg.
  cbn [asObject mbind option_bind]. rewrite Hn, He.
  cbn [asArray mbind option_bind]. rewrite Himp1.
  cbn [mbind option_bind]. rewrite Himp2. cbn [mbind option_bind].
  unfold importSourceKind. rewrite Hm. cbn [andb].
  unfold GetNodeCount, GetEdgeCount, GetSourceKind.
  destruct (decide (sourceKind g = "")) as [Hsk|Hsk].
  - rewrite (bool_decide_eq_true_2 _ Hsk). cbn [negb].
    exists g2. split; [reflexivity|]. split; [assumption|].
    split; [by rewrite He2|]. split; [congruence|].
    split; [by rewrite Hn2|]. split; [assumption|]. by rewrite He2.
  - rewrite (bool_decide_eq_false_2 _ Hsk). cbn [negb asObject mbind option_bind].
    rewrite lookup_singleton_eq. cbn [marshalString asString mbind option_bind].
    rewrite (ValidString_coerceUTF8 _ Hvsk).
    eexists. split; [reflexivity|]. cbn [nodes edges sourceKind].
    split; [assumption|].
    split; [by rewrite He2|]. split; [reflexivity|].
    split; [by rewrite Hn2|]. split; [assumption|]. by rewrite He2.
Qed.

(** C1, as the code and the described import have it.  Let [g] be a graph
    built through the package in which both ends of every edge are
    registered and no two edges share a triple, as is every graph whose edges
    all went through [AddEdge], and in which the node ids, the edge kinds and
    the sourceKind are valid UTF-8, so that the encoder writes them as they
    are.  Whenever the export of [g] with metadata produces a document, in
    whatever order the nodes are enumerated, importing that document into a
    fresh graph succeeds and yields a graph with the same node count, the
    same edge count and the same sourceKind; under every id that one graph
    registers the other registers a node that is [Equal] to it, and the two
    edge lists are [Equal] edge by edge, in order. *)
Theorem import_export_roundtrip g order doc :
  built g → validated g → utf8_named g →
  order ≡ₚ (map_to_list (nodes g)).*2 →
  ExportJSONIn order g true = Some doc →
  ∃ g', FromJSON (NewOpenGraph "") doc = Some g'
    ∧ GetNodeCount g' = GetNodeCount g
    ∧ GetEdgeCount g' = GetEdgeCount g
    ∧ GetSourceKind g' = GetSourceKind g
    ∧ (∀ k n, nodes g !! k = Some n →
         ∃ n', nodes g' !! k = Some n' ∧ node.Equal n (Some n') = true)
    ∧ (∀ k n', nodes g' !! k = Some n' →
         ∃ n, nodes g !! k = Some n ∧ node.Equal n' (Some n) = true)
    ∧ Forall2 (fun e e' => edge.Equal e (Some e') = true) (edges g) (edges g').
Proof.
  intros Hb Hv Hu Hperm Hdoc.
  destruct (roundtrip_validated g order doc Hb Hv Hu Hperm Hdoc)
    as (g' & Himp & Hnc & Hec & Hsk & Hdom & Hkey' & Hedges).
  destruct Hb as [Hkey _].
  exists g'. do 4 (split; [assumption|]). split; [|split].
  - intros k n Hk. destruct (proj2 (Hdom k)) as [n' Hn']; [by eexists|].
    exists n'. split; [done|]. cbn [node.Equal]. apply bool_decide_eq_true.
    destruct (Hkey k n Hk) as [-> _]. symmetry. by apply Hkey'.
  - intros k n' Hk. destruct (proj1 (Hdom k)) as [n Hn]; [by eexists|].
    exists n. split; [done|]. cbn [node.Equal]. apply bool_decide_eq_true.
    destruct (Hkey k n Hn) as [-> _]. by apply Hkey'.
  - eapply Forall2_impl; [exact Hedges|]. intros e e' [= Hs He Hk].
    apply Edge_Equal_true. by rewrite Hs, He, Hk.
Qed.

End import_facts.

(** ** Scenarios *)

(** The test nodes and edges are what the constructors return. *)
Lemma testNode_constructed id kinds :
  id ≠ "" → node.NewNode id (mk_slice kinds) None = Ok (testNode id kinds).
Proof. intros Hid. unfold node.NewNode. by rewrite (bool_decide_eq_false_2 _ Hid). Qed.

Lemma testEdge_constructed startID endID kind :
  startID ≠ "" → endID ≠ "" → kind ≠ "" →
  edge.NewEdge startID endID kind None = Ok (testEdge startID endID kind).
Proof.
  intros Hs He Hk. unfold edge.NewEdge.
  by rewrite (bool_decide_eq_false_2 _ Hs), (bool_decide_eq_false_2 _ He),
    (bool_decide_eq_false_2 _ Hk).
Qed.

Lemma minimalGraph_validated : built minimalGraph ∧ validated minimalGraph.
Proof.
  unfold minimalGraph.
  apply AddEdge_validated; [done|].
  apply AddNode_validated; [done|].
  apply AddNode_validated; [done|].
  apply NewOpenGraph_validated.
Qed.

Lemma graphFF_built : built graphFF.
Proof.
  unfold graphFF. apply AddNode_validated; [intros [=]|]. apply NewOpenGraph_validated.
Qed.

Lemma graphFE_built : built graphFE.
Proof.
  unfold graphFE. apply AddNode_validated; [intros [=]|]. apply NewOpenGraph_validated.
Qed.

Lemma orphanGraph_utf8 : utf8_named orphanGraph.
Proof.
  split; [|split].
  - intros k [n Hk]. unfold orphanGraph in Hk. cbn [AddEdgeWithoutValidation snd nodes
      NewOpenGraph] in Hk. by rewrite lookup_empty in Hk.
  - intros e He. unfold orphanGraph in He. cbn [AddEdgeWithoutValidation snd edges
      NewOpenGraph app] in He. apply list_elem_of_singleton in He as ->.
    vm_compute. reflexivity.
  - vm_compute. reflexivity.
Qed.

(** C1, as it is stated, fails, and whatever the import does.  The encoder
    writes the ids FF and FE, neither of them valid UTF-8, as the same
    string U+FFFD.  The graph whose only node has the id FF and the graph
    whose only node has the id FE therefore export the same document, and no
    import can give both of them back.  For the import that the spec
    describes, which registers edges through the validating [AddEdge], the
    claim fails on valid UTF-8 as well: a graph that holds an edge stored
    without validation exports one edge and imports none. *)
Lemma roundtrip_fails :
  (¬ ∃ import : JSON → option (OpenGraph Scalar),
       ∀ (g : OpenGraph Scalar) (doc : JSON),
         built g →
         ExportJSON g true = Some doc →
         ∃ g', import doc = Some g' ∧ same_graph g g')
  ∧ ¬ (∀ (g : OpenGraph Scalar) (doc : JSON),
         built g → utf8_named g →
         ExportJSON g true = Some doc →
         ∃ g', FromJSON (NewOpenGraph "") doc = Some g' ∧ same_graph g g').
Proof.
  split.
  - intros [import Hlaw].
    assert (Hsame : ExportJSON graphFE true = ExportJSON graphFF true)
      by (vm_compute; reflexivity).
    assert (HFF : ExportJSON graphFF true
                  = Some (default JNull (ExportJSON graphFF true)))
      by (vm_compute; reflexivity).
    destruct (Hlaw graphFF _ graphFF_built HFF) as (g1 & Himp1 & _ & _ & _ & Hin & _).
    rewrite <- Hsame in HFF.
    destruct (Hlaw graphFE _ graphFE_built HFF) as (g2 & Himp2 & _ & _ & _ & _ & Hback & _).
    rewrite Hsame, Himp1 in Himp2. injection Himp2 as <-.
    destruct (Hin idFF (testNode idFF ["Person"; "Base"])) as (n' & Hn' & _);
      [vm_compute; reflexivity|].
    destruct (Hback idFF n' Hn') as (n & Hn & _).
    vm_compute in Hn. discriminate Hn.
  - intros Hclaim.
    destruct (Hclaim orphanGraph (default JNull (ExportJSON orphanGraph true)))
      as (g' & Himp & _ & Hcount & _).
    + unfold orphanGraph. apply AddEdgeWithoutValidation_built; [done|].
      apply NewOpenGraph_validated.
    + apply orphanGraph_utf8.
    + vm_compute. reflexivity.
    + vm_compute in Himp. injection Himp as <-. vm_compute in Hcount. discriminate.
Qed.

Lemma minimalGraph_utf8 : utf8_named minimalGraph.
Proof.
  split; [|split].
  - intros k [n Hk].
    assert (Hall : map_Forall (fun k (_ : node.Node Scalar) => ValidString k = true)
                              (nodes minimalGraph)).
    { apply (bool_decide_unpack _). vm_compute. exact I. }
    by apply (Hall k n).
  - apply Forall_forall. apply (bool_decide_unpack _). vm_compute. exact I.
  - vm_compute. reflexivity.
Qed.

(** C1 on the graph of the repository's round-trip test. *)
Lemma import_export_roundtrip_witness :
  built minimalGraph ∧ validated minimalGraph ∧ utf8_named minimalGraph
  ∧ ExportJSON minimalGraph true
    = Some (default JNull (ExportJSON minimalGraph true))
  ∧ ∃ g', FromJSON (NewOpenGraph "") (default JNull (ExportJSON minimalGraph true))
          = Some g'
    ∧ GetNodeCount g' = GetNodeCount minimalGraph
    ∧ GetEdgeCount g' = GetEdgeCount minimalGraph
    ∧ GetSourceKind g' = GetSourceKind minimalGraph
    ∧ (∀ k n, nodes minimalGraph !! k = Some n →
         ∃ n', nodes g' !! k = Some n' ∧ node.Equal n (Some n') = true)
    ∧ (∀ k n', nodes g' !! k = Some n' →
         ∃ n, nodes minimalGraph !! k = Some n ∧ node.Equal n' (Some n) = true)
    ∧ Forall2 (fun e e' => edge.Equal e (Some e') = true)
              (edges minimalGraph) (edges g').
Proof.
  assert (Hdoc : ExportJSON minimalGraph true
                 = Some (default JNull (ExportJSON minimalGraph true))).
  { vm_compute. reflexivity. }
  split; [apply minimalGraph_validated|].
  split; [apply minimalGraph_validated|].
  split; [apply minimalGraph_utf8|].
  split; [exact Hdoc|].
  apply (import_export_roundtrip minimalGraph
           (map_to_list (nodes minimalGraph)).*2
           (default JNull (ExportJSON minimalGraph true))).
  - apply minimalGraph_validated.
  - apply minimalGraph_validated.
  - apply minimalGraph_utf8.
  - reflexivity.
  - exact Hdoc.
Defined.

Lemma chainGraph_edges :
  edges chainGraph
  = [testEdge "1" "2" "CONNECTS_TO"; testEdge "2" "3" "CONNECTS_TO"].
Proof. vm_compute. reflexivity. Qed.

Lemma apartGraph_edges : edges apartGraph = [].
Proof. vm_compute. reflexivity. Qed.

(** C2, as it is stated, fails: for two registered nodes without a path
    between them the code returns the nil slice, which is the value it
    returns for an unknown endpoint, and not an allocated empty slice. *)
Lemma FindPaths_no_path_is_nil :
  ¬ (∀ (g : OpenGraph Scalar) (startID endID : string) (maxDepth : Z),
       is_Some (nodes g !! startID) → is_Some (nodes g !! endID) →
       startID ≠ endID →
       (¬ ∃ p, path_within g startID endID maxDepth p) →
       FindPaths g startID endID maxDepth = Some (mk_slice [])).
Proof.
  intros Hclaim.
  assert (Hnil : FindPaths apartGraph "A" "B" 2 = Some nil_slice).
  { vm_compute. reflexivity. }
  rewrite (Hclaim apartGraph "A" "B" 2%Z) in Hnil; [discriminate| | | |].
  - eexists. vm_compute. reflexivity.
  - eexists. vm_compute. reflexivity.
  - intros [=].
  - apply no_path_without_edges; [apply apartGraph_edges|intros [=]].
Qed.

(** C2 on two registered nodes without an edge, and on an unknown end. *)
Lemma FindPaths_no_path_witness :
  nodes apartGraph !! "D" = None
  ∧ FindPaths apartGraph "A" "D" 2 = Some nil_slice
  ∧ is_Some (nodes apartGraph !! "A") ∧ is_Some (nodes apartGraph !! "B")
  ∧ "A" ≠ "B"
  ∧ (¬ ∃ p, path_within apartGraph "A" "B" 2 p)
  ∧ FindPaths apartGraph "A" "B" 2 = Some nil_slice.
Proof.
  assert (HD : nodes apartGraph !! "D" = None) by (vm_compute; reflexivity).
  assert (HA : is_Some (nodes apartGraph !! "A")) by (eexists; vm_compute; reflexivity).
  assert (HB : is_Some (nodes apartGraph !! "B")) by (eexists; vm_compute; reflexivity).
  assert (HAB : "A" ≠ "B") by (intros [=]).
  assert (Hno : ¬ ∃ p, path_within apartGraph "A" "B" 2 p).
  { apply no_path_without_edges; [apply apartGraph_edges|exact HAB]. }
  split; [exact HD|].
  split; [apply (proj1 (FindPaths_no_path apartGraph "A" "D" 2)); right; exact HD|].
  do 4 (split; [assumption|]).
  exact (proj2 (FindPaths_no_path apartGraph "A" "B" 2) HA HB HAB Hno).
Defined.

(** C3 on the path-test graph: an edge that repeats a stored triple with
    other properties is rejected, a new triple is appended. *)
Lemma AddEdge_spec_witness :
  AddEdge chainGraph
    (edge.mk "1" "2" "CONNECTS_TO" (properties.mk (<["weight" := SInt 10]> ∅)))
  = (false, chainGraph)
  ∧ AddEdge chainGraph (testEdge "1" "3" "CONNECTS_TO")
    = (true, mkOpenGraph (nodes chainGraph)
               (edges chainGraph ++ [testEdge "1" "3" "CONNECTS_TO"])
               (sourceKind chainGraph)).
Proof.
  split.
  - apply (proj1 (AddEdge_spec chainGraph _)). right. right.
    exists (testEdge "1" "2" "CONNECTS_TO"). rewrite chainGraph_edges.
    split; [left|]. by repeat split.
  - apply (proj2 (AddEdge_spec chainGraph _)). intros [H|[H|(e' & Hin & Hs & He & _)]].
    + vm_compute in H. discriminate.
    + vm_compute in H. discriminate.
    + rewrite chainGraph_edges in Hin.
      apply elem_of_cons in Hin as [->|Hin]; [vm_compute in He; discriminate|].
      apply list_elem_of_singleton in Hin as ->. vm_compute in Hs. discriminate.
Defined.

(** C4 on the path-test graph. *)
Lemma AddNode_duplicate_witness :
  nodes chainGraph !! "1" = Some (testNode "1" ["node1"; "test"])
  ∧ node.GetID (testNode "1" ["other"]) = "1"
  ∧ AddNode chainGraph (testNode "1" ["other"])
    = (false, testNode "1" ["other"], chainGraph)
  ∧ nodes (AddNode chainGraph (testNode "1" ["other"])).2 !! "1"
    = Some (testNode "1" ["node1"; "test"])
  ∧ edges (AddNode chainGraph (testNode "1" ["other"])).2 = edges chainGraph.
Proof.
  assert (H1 : nodes chainGraph !! "1" = Some (testNode "1" ["node1"; "test"])).
  { vm_compute. reflexivity. }
  split; [exact H1|]. split; [reflexivity|].
  exact (AddNode_duplicate chainGraph (testNode "1" ["other"]) "1"
           (testNode "1" ["node1"; "test"]) H1 eq_refl).
Defined.

(** C5, as it is stated, fails for a node that was constructed with the
    sourceKind listed twice: [AddNode] succeeds, the kinds list is
    unchanged, and it holds the sourceKind twice. *)
Lemma AddNode_keeps_repeated_kind :
  ¬ (∀ (g : OpenGraph Scalar) (n n' : node.Node Scalar) (g' : OpenGraph Scalar),
       sourceKind g ≠ "" →
       AddNode g n = (true, n', g') →
       sourceKind g ∈ node.kinds n'
       ∧ occurrences (sourceKind g) (node.kinds n') = 1).
Proof.
  intros Hclaim.
  destruct (Hclaim (NewOpenGraph "Base") twiceBase twiceBase
              (AddNode (NewOpenGraph "Base") twiceBase).2) as [_ Hocc].
  - intros [=].
  - vm_compute. reflexivity.
  - vm_compute in Hocc. discriminate.
Qed.

(** C5 on the node of the repository's [AddNode] test. *)
Lemma AddNode_stamps_sourceKind_witness :
  sourceKind (NewOpenGraph "test" : OpenGraph Scalar) ≠ ""
  ∧ AddNode (NewOpenGraph "test") (testNode "test-id" ["test-label"])
    = (true, testNode "test-id" ["test-label"; "test"],
       (AddNode (NewOpenGraph "test") (testNode "test-id" ["test-label"])).2)
  ∧ "test" ∈ node.kinds (testNode "test-id" ["test-label"; "test"])
  ∧ occurrences "test" (node.kinds (testNode "test-id" ["test-label"; "test"])) = 1.
Proof.
  assert (Hsk : sourceKind (NewOpenGraph "test" : OpenGraph Scalar) ≠ "")
    by (intros [=]).
  assert (Hadd : AddNode (NewOpenGraph "test") (testNode "test-id" ["test-label"])
    = (true, testNode "test-id" ["test-label"; "test"],
       (AddNode (NewOpenGraph "test") (testNode "test-id" ["test-label"])).2)).
  { vm_compute. reflexivity. }
  split; [exact Hsk|]. split; [exact Hadd|].
  destruct (AddNode_stamps_sourceKind _ _ _ _ Hsk Hadd)
    as (Hin & _ & _ & _ & _ & Hocc & _).
  split; [exact Hin|exact Hocc].
Defined.

(** C6 on the path-test graph: an unknown id, and the middle node. *)
Lemma RemoveNodeByID_spec_witness :
  RemoveNodeByID chainGraph "4" = (false, chainGraph)
  ∧ ∃ g', RemoveNodeByID chainGraph "2" = (true, g')
      ∧ nodes g' = delete "2" (nodes chainGraph)
      ∧ nodes g' !! "2" = None
      ∧ edges g' `sublist_of` edges chainGraph
      ∧ (∀ e, e ∈ edges g' ↔
              e ∈ edges chainGraph ∧ edge.startNodeID e ≠ "2"
              ∧ edge.endNodeID e ≠ "2")
      ∧ sourceKind g' = sourceKind chainGraph.
Proof.
  split.
  - apply (proj1 (RemoveNodeByID_spec chainGraph "4")). vm_compute. reflexivity.
  - apply (proj2 (RemoveNodeByID_spec chainGraph "2")). eexists. vm_compute. reflexivity.
Defined.

(** C7, as it is stated, fails for a sourceKind that is not valid UTF-8:
    the graph created with the sourceKind FF exports the member
    "source_kind" as U+FFFD, which is not the sourceKind. *)
Lemma ExportJSON_sourceKind_rewritten :
  ¬ (∀ (g : OpenGraph Scalar) (includeMetadata : bool) (doc : JSON),
       ExportJSON g includeMetadata = Some doc →
       ∃ top content nodesArr edgesArr,
         doc = JObject top
         ∧ top !! "graph" = Some (JObject content)
         ∧ content !! "nodes" = Some (JArray nodesArr)
         ∧ content !! "edges" = Some (JArray edgesArr)
         ∧ (is_Some (top !! "metadata") ↔ includeMetadata = true ∧ sourceKind g ≠ "")
         ∧ (is_Some (top !! "metadata") →
            top !! "metadata"
            = Some (JObject {["source_kind" := JString (sourceKind g)]}))).
Proof.
  intros Hclaim.
  destruct (Hclaim (NewOpenGraph idFF) true
              (default JNull (ExportJSON (NewOpenGraph idFF : OpenGraph Scalar) true)))
    as (top & content & nodesArr & edgesArr & Htop & _ & _ & _ & Hiff & Hmeta).
  - vm_compute. reflexivity.
  - assert (Hsome : is_Some (top !! "metadata")).
    { apply Hiff. split; [reflexivity|]. intros [=]. }
    specialize (Hmeta Hsome).
    vm_compute in Htop. injection Htop as <-.
    vm_compute in Hmeta. discriminate Hmeta.
Qed.

(** C7 on the graph of the repository's example. *)
Lemma ExportJSON_shape_witness :
  (map_to_list (nodes minimalGraph)).*2 ≡ₚ (map_to_list (nodes minimalGraph)).*2
  ∧ ExportJSON minimalGraph true
    = Some (default JNull (ExportJSON minimalGraph true))
  ∧ ∃ top content nodesArr edgesArr,
      default JNull (ExportJSON minimalGraph true) = JObject top
      ∧ top !! "graph" = Some (JObject content)
      ∧ content !! "nodes" = Some (JArray nodesArr)
      ∧ length nodesArr = GetNodeCount minimalGraph
      ∧ content !! "edges" = Some (JArray edgesArr)
      ∧ length edgesArr = GetEdgeCount minimalGraph
      ∧ (is_Some (top !! "metadata")
         ↔ true = true ∧ sourceKind minimalGraph ≠ "")
      ∧ (is_Some (top !! "metadata") →
         top !! "metadata"
         = Some (JObject {["source_kind"
                           := JString (coerceUTF8 (sourceKind minimalGraph))]}))
      ∧ (is_Some (top !! "metadata") →
         ValidString (sourceKind minimalGraph) = true →
         top !! "metadata"
         = Some (JObject {["source_kind" := JString (sourceKind minimalGraph)]})).
Proof.
  assert (Hdoc : ExportJSON minimalGraph true
                 = Some (default JNull (ExportJSON minimalGraph true))).
  { vm_compute. reflexivity. }
  split; [reflexivity|]. split; [exact Hdoc|].
  exact (ExportJSON_shape (map_to_list (nodes minimalGraph)).*2 minimalGraph true
           (default JNull (ExportJSON minimalGraph true))
           (reflexivity _) Hdoc).
Defined.

(** C8 on an edge with one property and on an edge without any. *)
Lemma Edge_ToDict_properties_witness :
  0 < properties.Len (edge.properties weightedEdge)
  ∧ edge.ToDict weightedEdge !! "properties"
    = Some (DProps (properties.entries (edge.properties weightedEdge)))
  ∧ properties.Len (edge.properties knowsEdge) = 0
  ∧ edge.ToDict knowsEdge !! "properties" = None.
Proof.
  assert (H1 : 0 < properties.Len (edge.properties weightedEdge))
    by (vm_compute; lia).
  assert (H0 : properties.Len (edge.properties knowsEdge) = 0)
    by (vm_compute; reflexivity).
  split; [exact H1|].
  split; [exact (proj1 (proj2 (Edge_ToDict_properties weightedEdge)) H1)|].
  split; [exact H0|].
  exact (proj2 (proj2 (Edge_ToDict_properties knowsEdge)) H0).
Defined.

(** C9 on the path-test graph, with depth bound 0. *)
Lemma FindPaths_same_node_witness :
  is_Some (nodes chainGraph !! "1")
  ∧ FindPaths chainGraph "1" "1" 0 = Some (mk_slice [["1"]]).
Proof.
  assert (H1 : is_Some (nodes chainGraph !! "1")) by (eexists; vm_compute; reflexivity).
  split; [exact H1|]. exact (FindPaths_same_node chainGraph "1" 0 H1).
Defined.

(** C10 on the path-test graph. *)
Lemma FindPaths_paths_simple_witness :
  is_Some (nodes chainGraph !! "1") ∧ is_Some (nodes chainGraph !! "3")
  ∧ "1" ≠ "3"
  ∧ ∃ res, FindPaths chainGraph "1" "3" 2 = Some res
    ∧ ∀ p, p ∈ elems res →
        head p = Some "1" ∧ last p = Some "3" ∧ NoDup p
        ∧ (Z.of_nat (length p) ≤ 2 + 1)%Z
        ∧ walk chainGraph p.
Proof.
  assert (H1 : is_Some (nodes chainGraph !! "1")) by (eexists; vm_compute; reflexivity).
  assert (H3 : is_Some (nodes chainGraph !! "3")) by (eexists; vm_compute; reflexivity).
  assert (Hne : "1" ≠ "3") by (intros [=]).
  do 3 (split; [assumption|]).
  exact (FindPaths_paths_simple chainGraph "1" "3" 2 H1 H3 Hne).
Defined.

(** The encoder's treatment of strings on the cases of [unicode/utf8]:
    well-formed sequences of one to four bytes are kept; an overlong
    encoding (C0 80), a surrogate (ED A0 80), a sequence cut short (E2 82),
    a sequence with a wrong third byte (E2 82 41), a code point beyond
    U+10FFFF (F4 90 80 80) and the byte FF have every offending byte
    replaced by U+FFFD. *)
Lemma coerceUTF8_samples :
  let bytes := foldr (fun b s => String (ascii_of_N b) s) EmptyString in
  let fffd := [0xEF; 0xBF; 0xBD]%N in
  coerceUTF8 "Knows" = "Knows"
  ∧ coerceUTF8 (bytes [0xC3; 0xA9]%N) = bytes [0xC3; 0xA9]%N
  ∧ coerceUTF8 (bytes [0xE2; 0x82; 0xAC]%N) = bytes [0xE2; 0x82; 0xAC]%N
  ∧ coerceUTF8 (bytes [0xF0; 0x9F; 0x98; 0x80]%N) = bytes [0xF0; 0x9F; 0x98; 0x80]%N
  ∧ coerceUTF8 (bytes fffd) = bytes fffd
  ∧ coerceUTF8 (bytes [0xC0; 0x80]%N) = bytes (fffd ++ fffd)
  ∧ coerceUTF8 (bytes [0xED; 0xA0; 0x80]%N) = bytes (fffd ++ fffd ++ fffd)
  ∧ coerceUTF8 (bytes [0xE2; 0x82]%N) = bytes (fffd ++ fffd)
  ∧ coerceUTF8 (bytes [0xE2; 0x82; 0x41]%N) = bytes (fffd ++ fffd ++ [0x41]%N)
  ∧ coerceUTF8 (bytes [0xF4; 0x90; 0x80; 0x80]%N)
    = bytes (fffd ++ fffd ++ fffd ++ fffd)
  ∧ coerceUTF8 idFF = bytes fffd
  ∧ coerceUTF8 idFE = bytes fffd
  ∧ ValidString idFF = false
  ∧ ValidString (bytes [0xF0; 0x9F; 0x98; 0x80]%N) = true.
Proof. vm_compute. repeat split. Qed.

(** The scenario of the path test: one path, through the middle node. *)
Lemma FindPaths_chain :
  FindPaths chainGraph "1" "3" 2 = Some (mk_slice [["1"; "2"; "3"]])
  ∧ FindPaths chainGraph "1" "4" 2 = Some nil_slice.
Proof. split; vm_compute; reflexivity. Qed.

(** ** Package [properties] *)
Section properties_facts.
Context {Value : Type} `{!Reflect Value}.
Implicit Types (p : properties.Properties Value).


(** X2. After [RemoveProperty] the key is absent, so [GetProperty] answers
    with the first default, or with nil when there is none; the other keys
    are untouched, and removing an absent key changes nothing. *)
Theorem RemoveProperty_GetProperty p key :
  properties.HasProperty (properties.RemoveProperty p key) key = false
  ∧ properties.GetProperty (properties.RemoveProperty p key) key [] = nilValue
  ∧ (∀ d ds, properties.GetProperty (properties.RemoveProperty p key) key (d :: ds) = d)
  ∧ (∀ k d, k ≠ key →
       properties.GetProperty (properties.RemoveProperty p key) k d
       = properties.GetProperty p k d)
  ∧ (properties.HasProperty p key = false → properties.RemoveProperty p key = p)
  ∧ (properties.HasProperty p key = true →
     S (properties.Len (properties.RemoveProperty p key)) = properties.Len p).
Proof.
  unfold properties.RemoveProperty, properties.GetProperty, properties.HasProperty,
    properties.Len. cbn [properties.entries].
  rewrite lookup_delete_eq. split; [|split; [done|split; [done|split; [|split]]]].
  - apply bool_decide_eq_false. by intros [].
  - intros k d Hk. by rewrite lookup_delete_ne.
  - intros Hno%bool_decide_eq_false. destruct p as [m]. cbn [properties.entries] in *.
    f_equal. apply delete_id. by apply eq_None_not_Some.
  - intros [v Hv]%bool_decide_eq_true.
    rewrite map_size_delete_Some by eauto.
    assert (size (properties.entries p) ≠ 0); [|lia].
    apply map_size_non_empty_iff. intros Hem. by rewrite Hem, lookup_empty in Hv.
Qed.

Lemma fold_SetProperty_panics (l : list (string * Value)) msg :
  foldl (fun acc kv =>
           match acc with
           | Returns p => properties.SetProperty p kv.1 kv.2
           | Panics m => Panics m
           end) (Panics msg) l = Panics msg.
Proof. induction l as [|kv l IH]; [done|]. apply IH. Qed.

Lemma fold_SetProperty_returns (l : list (string * Value)) p :
  Forall (fun kv => properties.IsPropertyValueValid kv.2 = true) l →
  ∃ p', foldl (fun acc kv =>
           match acc with
           | Returns p => properties.SetProperty p kv.1 kv.2
           | Panics m => Panics m
           end) (Returns p) l = Returns p'
    ∧ (∀ k, k ∉ l.*1 → properties.entries p' !! k = properties.entries p !! k)
    ∧ (NoDup l.*1 → ∀ k v, (k, v) ∈ l → properties.entries p' !! k = Some v).
Proof.
  intros Hall. revert p. induction Hall as [|[k0 v0] l Hv _ IH]; intros p.
  - exists p. split; [done|]. split; [done|]. by intros _ k v ?%elem_of_nil.
  - cbn [foldl fst snd]. unfold properties.SetProperty at 2. cbn [snd] in Hv. rewrite Hv.
    destruct (IH (properties.mk (<[k0 := v0]> (properties.entries p))))
      as (p' & Hfold & Hout & Hin).
    exists p'. split; [exact Hfold|]. cbn [properties.entries] in Hout.
    split.
    + intros k Hk. rewrite fmap_cons in Hk. apply not_elem_of_cons in Hk as [Hne Hk].
      rewrite (Hout k Hk). by rewrite lookup_insert_ne.
    + rewrite fmap_cons. intros [Hk0 Hnd]%NoDup_cons k v [[= -> ->]|Hkv]%elem_of_cons.
      * rewrite (Hout k0 Hk0). apply lookup_insert_eq.
      * by apply Hin.
Qed.

Lemma fold_SetProperty_invalid (l : list (string * Value)) p :
  ¬ Forall (fun kv => properties.IsPropertyValueValid kv.2 = true) l →
  ∃ msg, foldl (fun acc kv =>
           match acc with
           | Returns p => properties.SetProperty p kv.1 kv.2
           | Panics m => Panics m
           end) (Returns p) l = Panics msg.
Proof.
  revert p. induction l as [|[k0 v0] l IH]; intros p Hnot.
  - destruct Hnot. constructor.
  - cbn [foldl fst snd]. unfold properties.SetProperty at 2.
    destruct (properties.IsPropertyValueValid v0) eqn:Hv.
    + apply IH. intros Hall. apply Hnot. by constructor.
    + eexists. apply fold_SetProperty_panics.
Qed.

(** X3. [NewPropertiesFromMap] does not depend on the order in which the
    map is ranged over: when every value is valid it returns properties
    whose entries are those of the map, and when some value is not it
    panics. *)
Theorem NewPropertiesFromMap_any_order (values : gmap string Value) order :
  order ≡ₚ map_to_list values →
  (map_Forall (fun _ v => properties.IsPropertyValueValid v = true) values →
   properties.NewPropertiesFromMapIn order = Returns (properties.mk values))
  ∧ (¬ map_Forall (fun _ v => properties.IsPropertyValueValid v = true) values →
     ∃ msg, properties.NewPropertiesFromMapIn order = Panics msg).
Proof.
  intros Hperm. unfold properties.NewPropertiesFromMapIn.
  assert (Hin : ∀ k v, (k, v) ∈ order ↔ values !! k = Some v).
  { intros k v. rewrite Hperm. apply elem_of_map_to_list. }
  assert (Hall : Forall (fun kv => properties.IsPropertyValueValid kv.2 = true) order
                 ↔ map_Forall (fun _ v => properties.IsPropertyValueValid v = true) values).
  { rewrite Forall_forall, map_Forall_lookup. split.
    - intros H k v Hk. by apply (H (k, v)), Hin.
    - intros H [k v] Hk. by apply (H k), Hin. }
  split.
  - intros Hvalid%Hall.
    destruct (fold_SetProperty_returns order properties.NewProperties Hvalid)
      as (p' & -> & Hout & Hfound).
    f_equal. destruct p' as [m]. f_equal. cbn [properties.entries] in *.
    apply map_eq. intros k.
    destruct (values !! k) as [v|] eqn:Hk.
    + apply Hfound; [|by apply Hin]. rewrite Hperm. apply NoDup_fst_map_to_list.
    + rewrite Hout; [apply lookup_empty|].
      intros ([k' v] & Heq & Hkv)%list_elem_of_fmap. cbn in Heq. subst k'.
      apply Hin in Hkv. congruence.
  - intros Hnot. apply fold_SetProperty_invalid. by rewrite Hall.
Qed.

End properties_facts.

(** X3 on the map of the property tests. *)
Lemma NewPropertiesFromMap_any_order_witness :
  map_to_list nameAge ≡ₚ map_to_list nameAge
  ∧ properties.NewPropertiesFromMap nameAge = Returns (properties.mk nameAge)
  ∧ ∃ msg, properties.NewPropertiesFromMap (<["bad" := AMap]> nameAge) = Panics msg.
Proof.
  split; [reflexivity|]. split.
  - apply (proj1 (NewPropertiesFromMap_any_order nameAge (map_to_list nameAge)
                    (reflexivity _))).
    apply map_Forall_lookup. intros k v Hk.
    unfold nameAge in Hk.
    apply lookup_insert_Some in Hk as [[_ <-]|[_ Hk]]; [reflexivity|].
    apply lookup_insert_Some in Hk as [[_ <-]|[_ Hk]]; [reflexivity|].
    by rewrite lookup_empty in Hk.
  - apply (proj2 (NewPropertiesFromMap_any_order (<["bad" := AMap]> nameAge)
                    (map_to_list (<["bad" := AMap]> nameAge)) (reflexivity _))).
    intros Hall. apply map_Forall_lookup in Hall.
    specialize (Hall "bad" AMap (lookup_insert_eq _ _ _)). discriminate Hall.
Defined.

(** ** Packages [node] and [edge] *)
Section node_facts.
Context {Value : Type}.
Implicit Types (n : node.Node Value) (e : edge.Edge Value).

(** X4. [AddKind] makes the kind present, keeps the kinds that were there
    and their order, adds nothing else, and is idempotent; a kinds list
    without duplicates stays without duplicates. *)
Theorem AddKind_set_semantics n k :
  node.HasKind (node.AddKind n k) k = true
  ∧ node.kinds n `prefix_of` node.kinds (node.AddKind n k)
  ∧ (∀ k', k' ∈ node.kinds (node.AddKind n k) ↔ k' = k ∨ k' ∈ node.kinds n)
  ∧ node.AddKind (node.AddKind n k) k = node.AddKind n k
  ∧ (NoDup (node.kinds n) → NoDup (node.kinds (node.AddKind n k)))
  ∧ node.id (node.AddKind n k) = node.id n.
Proof.
  assert (Hhas : node.HasKind (node.AddKind n k) k = true).
  { unfold node.AddKind. destruct (node.HasKind n k) eqn:Hk; cbn [negb]; [done|].
    apply HasKind_true. cbn [node.kinds]. apply elem_of_app. right.
    by apply list_elem_of_singleton. }
  split; [exact Hhas|].
  split; [|split; [|split; [|split]]].
  - unfold node.AddKind. destruct (negb _); [by eexists|done].
  - intros k'. unfold node.AddKind. destruct (node.HasKind n k) eqn:Hk; cbn [negb].
    + apply HasKind_true in Hk. split; [by right|]. by intros [->|?].
    + cbn [node.kinds]. rewrite elem_of_app, list_elem_of_singleton. tauto.
  - unfold node.AddKind at 1. by rewrite Hhas.
  - intros Hnd. unfold node.AddKind. destruct (node.HasKind n k) eqn:Hk; cbn [negb]; [done|].
    apply HasKind_false in Hk. cbn [node.kinds]. apply NoDup_app.
    split; [done|]. split; [|apply NoDup_singleton].
    by intros x Hx ->%list_elem_of_singleton.
  - unfold node.AddKind. by destruct (negb _).
Qed.

Lemma occurrences_positive k l : 1 ≤ occurrences k l ↔ k ∈ l.
Proof.
  split; [|apply occurrences_present].
  intros Hocc. destruct (decide (k ∈ l)) as [|Hn]; [done|].
  rewrite (occurrences_absent _ _ Hn) in Hocc. lia.
Qed.

Lemma RemoveKind_split n k l1 l2 :
  node.kinds n = l1 ++ k :: l2 → k ∉ l1 →
  node.RemoveKind n k = node.mk (node.id n) (l1 ++ l2) (node.properties n).
Proof.
  intros Hsplit Hl1. unfold node.RemoveKind.
  assert (Hfind : list_find (fun k' => k' = k) (node.kinds n) = Some (length l1, k)).
  { apply list_find_Some. rewrite Hsplit. split; [|split; [done|]].
    - by rewrite lookup_app_r, Nat.sub_diag.
    - intros j y Hj Hlt ->. apply Hl1. rewrite lookup_app_l in Hj by done.
      by eapply list_elem_of_lookup_2. }
  rewrite Hfind, Hsplit. f_equal. rewrite take_app_length. f_equal.
  rewrite drop_app_ge by lia. replace (S (length l1) - length l1) with 1 by lia.
  done.
Qed.

(** X5. [RemoveKind] removes the first occurrence of the kind and nothing
    else; a node without the kind is unchanged.  When the kind was listed
    more than once the node still has it afterwards. *)
Theorem RemoveKind_first_occurrence n k :
  (k ∉ node.kinds n → node.RemoveKind n k = n)
  ∧ (∀ l1 l2, node.kinds n = l1 ++ k :: l2 → k ∉ l1 →
       node.kinds (node.RemoveKind n k) = l1 ++ l2)
  ∧ (node.HasKind (node.RemoveKind n k) k = true ↔ 2 ≤ occurrences k (node.kinds n))
  ∧ (∀ k', k' ≠ k → node.HasKind (node.RemoveKind n k) k' = node.HasKind n k')
  ∧ node.id (node.RemoveKind n k) = node.id n.
Proof.
  assert (Habsent : k ∉ node.kinds n → node.RemoveKind n k = n).
  { intros Hk. unfold node.RemoveKind.
    assert (list_find (fun k' => k' = k) (node.kinds n) = None) as ->; [|done].
    apply list_find_None, Forall_forall. by intros x Hx ->. }
  split; [exact Habsent|]. split.
  { intros l1 l2 Hsplit Hl1. by rewrite (RemoveKind_split n k l1 l2). }
  destruct (decide (k ∈ node.kinds n)) as [Hin|Hout].
  - destruct (list_elem_of_split_l _ _ Hin) as (l1 & l2 & Hsplit & Hl1).
    rewrite (RemoveKind_split n k l1 l2 Hsplit Hl1), Hsplit. cbn [node.id].
    split; [|split; [|done]].
    + rewrite HasKind_true. cbn [node.kinds].
      rewrite occurrences_app, (occurrences_absent _ _ Hl1).
      change (k :: l2) with ([k] ++ l2). rewrite occurrences_app.
      unfold occurrences at 1. cbn [List.filter]. rewrite bool_decide_eq_true_2 by done.
      cbn [length]. rewrite elem_of_app, <- (occurrences_positive k l2).
      split; [intros [?|?]; [done|lia]|intros ?; right; lia].
    + intros k' Hne. apply eq_true_iff_eq. rewrite !HasKind_true, Hsplit.
      cbn [node.kinds]. rewrite !elem_of_app, elem_of_cons.
      split; [intros [?|?]; [by left|by right; right]|].
      intros [?|[?|?]]; [by left|done|by right].
  - rewrite (Habsent Hout). split; [|done].
    rewrite HasKind_true, (occurrences_absent _ _ Hout). split; [done|lia].
Qed.

(** X6. Removing a kind that [AddKind] has just added to a node that did
    not have it gives the node back. *)
Theorem RemoveKind_AddKind n k :
  k ∉ node.kinds n → node.RemoveKind (node.AddKind n k) k = n.
Proof.
  intros Hk. unfold node.AddKind.
  rewrite (proj2 (HasKind_false n k) Hk). cbn [negb].
  rewrite (RemoveKind_split _ k (node.kinds n) []); [|done..].
  destruct n. cbn. by rewrite app_nil_r.
Qed.

(** X7. [NewNode] fails exactly for the empty id and [NewEdge] exactly when
    the start id, the end id or the kind is empty, reporting the first empty
    one of them in that order; otherwise the object holds the arguments,
    with nil kinds and nil properties replaced by empty ones. *)
Theorem constructors_reject_empty id (kinds : slice string)
    (p : option (properties.Properties Value)) startID endID kind :
  (node.NewNode id kinds p
   = if decide (id = "") then Err "node ID cannot be empty"
     else Ok (node.mk id (elems kinds) (default properties.NewProperties p)))
  ∧ ((∃ e, edge.NewEdge startID endID kind p = Ok e)
     ↔ startID ≠ "" ∧ endID ≠ "" ∧ kind ≠ "")
  ∧ (∀ e, edge.NewEdge startID endID kind p = Ok e →
       e = edge.mk startID endID kind (default properties.NewProperties p))
  ∧ (startID = "" →
     edge.NewEdge startID endID kind p = Err "start node ID cannot be empty")
  ∧ (startID ≠ "" → endID = "" →
     edge.NewEdge startID endID kind p = Err "end node ID cannot be empty")
  ∧ (startID ≠ "" → endID ≠ "" → kind = "" →
     edge.NewEdge startID endID kind p = Err "edge kind cannot be empty").
Proof.
  unfold node.NewNode, edge.NewEdge. split.
  { destruct (decide (id = "")) as [->|Hid]; [done|].
    by rewrite (bool_decide_eq_false_2 _ Hid). }
  destruct (decide (startID = "")) as [->|Hs].
  { cbn. split; [split; [by intros []|by intros []]|]. by repeat split. }
  rewrite (bool_decide_eq_false_2 _ Hs).
  destruct (decide (endID = "")) as [->|He].
  { cbn. split; [split; [by intros []|by intros (? & ? & ?)]|]. by repeat split. }
  rewrite (bool_decide_eq_false_2 _ He).
  destruct (decide (kind = "")) as [->|Hk].
  { cbn. split; [split; [by intros []|by intros (? & ? & ?)]|]. by repeat split. }
  rewrite (bool_decide_eq_false_2 _ Hk).
  split; [split; [done|by eexists]|]. split; [by intros e [= <-]|]. by repeat split.
Qed.

(** X8. [Equal] on edges is an equivalence that looks at the (start, end,
    kind) triple only, and on nodes one that looks at the id only; compared
    with nil, an edge or a node is never equal. *)
Theorem Equal_equivalence :
  (∀ e, edge.Equal e (Some e) = true)
  ∧ (∀ e1 e2, edge.Equal e1 (Some e2) = edge.Equal e2 (Some e1))
  ∧ (∀ e1 e2 e3, edge.Equal e1 (Some e2) = true → edge.Equal e2 (Some e3) = true →
       edge.Equal e1 (Some e3) = true)
  ∧ (∀ e1 e2, edge.Equal e1 (Some e2) = true ↔ triple e1 = triple e2)
  ∧ (∀ e, edge.Equal e None = false)
  ∧ (∀ n1 n2, node.Equal n1 (Some n2) = true ↔ node.id n1 = node.id n2)
  ∧ (∀ n, node.Equal n None = false).
Proof.
  assert (Htriple : ∀ e1 e2, edge.Equal e1 (Some e2) = true ↔ triple e1 = triple e2).
  { intros e1 e2. rewrite Edge_Equal_true. unfold triple.
    split; [by intros (-> & -> & ->)|by intros [= -> -> ->]]. }
  split; [intros e; by apply Htriple|].
  split; [intros e1 e2; apply eq_true_iff_eq; rewrite !Htriple; by split|].
  split; [intros e1 e2 e3; rewrite !Htriple; congruence|].
  split; [exact Htriple|]. split; [done|]. split; [|done].
  intros n1 n2. cbn [node.Equal]. apply bool_decide_eq_true.
Qed.

End node_facts.

(** X6 on the node of the kinds test. *)
Lemma RemoveKind_AddKind_witness :
  ("Group" ∉ node.kinds userNode)
  ∧ node.RemoveKind (node.AddKind userNode "Group") "Group" = userNode.
Proof.
  assert (Hk : "Group" ∉ node.kinds userNode).
  { intros Hin. apply list_elem_of_singleton in Hin. discriminate Hin. }
  split; [exact Hk|]. exact (RemoveKind_AddKind userNode "Group" Hk).
Defined.

(** ** How the mutators and the queries compose *)
Section composition_facts.
Context {Value : Type}.
Implicit Types (g : OpenGraph Value) (n : node.Node Value) (e : edge.Edge Value).

Lemma AddNode_stored g n :
  nodes g !! node.id n = None →
  ∃ n', AddNode g n
        = (true, n', mkOpenGraph (<[node.id n := n']> (nodes g)) (edges g) (sourceKind g))
    ∧ node.id n' = node.id n.
Proof.
  intros Hfree. unfold AddNode, AddNodeWithoutValidation, node.GetID. rewrite Hfree.
  match goal with |- context [if ?c then ?a else n] =>
    set (n' := if c then a else n) end.
  assert (Hid : node.id n' = node.id n).
  { subst n'. destruct (_ && _); [|done]. unfold node.AddKind. by destruct (negb _). }
  exists n'. by rewrite Hid.
Qed.

(** X9. [AddNode] succeeds exactly when no node is registered under the
    id.  The node is then found by [GetNode] under its id, a lookup of any
    other id answers as before, and [Len] has grown by one. *)
Theorem AddNode_then_GetNode g n :
  ((AddNode g n).1.1 = true ↔ nodes g !! node.id n = None)
  ∧ (nodes g !! node.id n = None →
     GetNode (AddNode g n).2 (node.id n) = Some (AddNode g n).1.2
     ∧ (∀ k, k ≠ node.id n → GetNode (AddNode g n).2 k = GetNode g k)
     ∧ Len (AddNode g n).2 = S (Len g)).
Proof.
  split.
  - destruct (nodes g !! node.id n) as [old|] eqn:Hl.
    + unfold AddNode, node.GetID. rewrite Hl. cbn. split; discriminate.
    + destruct (AddNode_stored g n Hl) as (n' & -> & _). by split.
  - intros Hfree. destruct (AddNode_stored g n Hfree) as (n' & -> & Hid).
    unfold GetNode, Len. cbn [fst snd nodes edges]. split; [apply lookup_insert_eq|].
    split; [intros k Hk; by rewrite lookup_insert_ne|].
    by rewrite map_size_insert_None.
Qed.

(** X10. In a graph whose edges all have registered ends, adding a node
    under a free id and removing it again gives the graph back. *)
Theorem RemoveNodeByID_AddNode g n :
  registered g → nodes g !! node.id n = None →
  RemoveNodeByID (AddNode g n).2 (node.id n) = (true, g).
Proof.
  intros Hreg Hfree. destruct (AddNode_stored g n Hfree) as (n' & -> & Hid).
  unfold RemoveNodeByID. cbn [snd nodes edges sourceKind].
  rewrite lookup_insert_eq, (delete_insert_id _ _ _ Hfree).
  assert (Hkeep : List.filter
            (fun e => negb (bool_decide (edge.GetStartNodeID e = node.id n))
                      && negb (bool_decide (edge.GetEndNodeID e = node.id n)))
            (edges g) = edges g).
  { apply forallb_filter_id, forallb_forall. intros e He%list_elem_of_In.
    destruct (Hreg e He) as [[? Hs] [? Ht]]. unfold edge.GetStartNodeID, edge.GetEndNodeID.
    rewrite !bool_decide_eq_false_2; [done|congruence..]. }
  rewrite Hkeep. by destruct g.
Qed.

(** X11. [AddEdge] is idempotent: after an [AddEdge], whether it
    succeeded or not, a further [AddEdge] of an edge with the same triple
    fails and leaves the graph as it is, whatever properties that edge
    carries. *)
Theorem AddEdge_twice g e e' :
  triple e' = triple e →
  AddEdge (AddEdge g e).2 e' = (false, (AddEdge g e).2).
Proof.
  intros [= Hs Ht Hk]. apply AddEdge_rejected.
  destruct (nodes g !! edge.startNodeID e) as [ns|] eqn:Hns.
  2:{ rewrite (AddEdge_rejected g e) by (by left). left. cbn [snd]. congruence. }
  destruct (nodes g !! edge.endNodeID e) as [nt|] eqn:Hnt.
  2:{ rewrite (AddEdge_rejected g e) by (right; by left). right. left.
      cbn [snd]. congruence. }
  destruct (existsb (fun e0 => edge.Equal e0 (Some e)) (edges g)) eqn:Hex.
  - apply duplicate_edge_found in Hex as (e0 & Hin & Hs0 & Ht0 & Hk0).
    rewrite (AddEdge_rejected g e).
    + right. right. exists e0. cbn [snd]. split; [done|]. repeat split; congruence.
    + right. right. exists e0. by repeat split.
  - rewrite (AddEdge_accepted g e); [|by eexists..|].
    + right. right. exists e. cbn [snd edges]. split; [|by repeat split].
      apply elem_of_app. right. by apply list_elem_of_singleton.
    + intros e0 Hin [= Hs0 Ht0 Hk0]. apply not_true_iff_false in Hex. apply Hex.
      apply duplicate_edge_found. by exists e0.
Qed.

(** X12. How [Len] moves: an [AddEdge] that succeeds adds one, one that
    fails adds nothing; removing a registered node takes away the node and
    every edge that starts or ends at it; [Clear] leaves nothing and keeps
    the sourceKind. *)
Theorem Len_accounting g e id :
  Len (AddEdge g e).2 = Len g + (if (AddEdge g e).1 then 1 else 0)
  ∧ (is_Some (nodes g !! id) →
     Len (RemoveNodeByID g id).2
       + 1
       + length (List.filter
                   (fun e => bool_decide (edge.startNodeID e = id)
                             || bool_decide (edge.endNodeID e = id)) (edges g))
     = Len g)
  ∧ Len (Clear g) = 0
  ∧ sourceKind (Clear g) = sourceKind g.
Proof.
  split; [|split; [|split; [|done]]].
  - unfold AddEdge, AddEdgeWithoutValidation.
    destruct (nodes g !! edge.GetStartNodeID e); [|cbn; lia].
    destruct (nodes g !! edge.GetEndNodeID e); [|cbn; lia].
    destruct (existsb _ _); [cbn; lia|].
    unfold Len. cbn [fst snd nodes edges]. rewrite length_app. cbn. lia.
  - intros Hreg. unfold RemoveNodeByID, Len. destruct Hreg as [x Hx]. rewrite Hx.
    cbn [snd nodes edges]. rewrite map_size_delete_Some by eauto.
    assert (size (nodes g) ≠ 0).
    { apply map_size_non_empty_iff. intros Hem. by rewrite Hem, lookup_empty in Hx. }
    unfold edge.GetStartNodeID, edge.GetEndNodeID.
    assert (Hsplit : ∀ l : list (edge.Edge Value),
      length (List.filter
                (fun e => negb (bool_decide (edge.startNodeID e = id))
                          && negb (bool_decide (edge.endNodeID e = id))) l)
      + length (List.filter
                  (fun e => bool_decide (edge.startNodeID e = id)
                            || bool_decide (edge.endNodeID e = id)) l)
      = length l).
    { induction l as [|a l IH]; [done|]. cbn [List.filter].
      destruct (bool_decide (edge.startNodeID a = id)),
               (bool_decide (edge.endNodeID a = id)); cbn; lia. }
    specialize (Hsplit (edges g)). lia.
  - unfold Clear, Len. cbn [nodes edges]. by rewrite map_size_empty.
Qed.

Lemma collect_elems {A} (f : A → bool) (l : list A) (s : slice A) :
  elems (foldl (fun acc x => if f x then append acc x else acc) s l)
  = elems s ++ List.filter f l.
Proof.
  revert s. induction l as [|a l IH]; intros s; cbn [foldl List.filter].
  - by rewrite app_nil_r.
  - destruct (f a); [|done]. rewrite IH. cbn [append elems].
    by rewrite <- app_assoc.
Qed.

Lemma collect_nil {A} (f : A → bool) (l : list A) :
  foldl (fun acc x => if f x then append acc x else acc) nil_slice l = nil_slice
  ↔ List.filter f l = [].
Proof.
  split.
  - intros Hnil. pose proof (collect_elems f l nil_slice) as Hel.
    rewrite Hnil in Hel. by cbn in Hel.
  - induction l as [|a l IH]; [done|]. cbn [foldl List.filter].
    destruct (f a); [done|]. exact IH.
Qed.

(** X13. [GetEdgesByKind] returns, in insertion order, exactly the stored
    edges of the kind; when there is none, the result is the nil slice. *)
Theorem GetEdgesByKind_spec g kind :
  elems (GetEdgesByKind g kind)
  = List.filter (fun e => bool_decide (edge.kind e = kind)) (edges g)
  ∧ (∀ e, e ∈ elems (GetEdgesByKind g kind) ↔ e ∈ edges g ∧ edge.kind e = kind)
  ∧ elems (GetEdgesByKind g kind) `sublist_of` edges g
  ∧ (GetEdgesByKind g kind = nil_slice ↔ ∀ e, e ∈ edges g → edge.kind e ≠ kind).
Proof.
  unfold GetEdgesByKind, edge.GetKind.
  pose proof (collect_elems (fun e => bool_decide (edge.kind e = kind)) (edges g) nil_slice)
    as Hel. cbn [elems app] in Hel.
  split; [exact Hel|]. rewrite Hel. split; [|split].
  - intros e. by rewrite !list_elem_of_In, filter_In, bool_decide_eq_true.
  - clear Hel. induction (edges g) as [|a l IH]; [done|]. cbn [List.filter].
    destruct (bool_decide _); by constructor.
  - rewrite collect_nil. split.
    + intros Hnone e Hin Hk.
      assert (e ∈ List.filter (fun e => bool_decide (edge.kind e = kind)) (edges g)) as He.
      { apply list_elem_of_In, filter_In. split; [by apply list_elem_of_In|].
        by apply bool_decide_eq_true. }
      rewrite Hnone in He. by apply elem_of_nil in He.
    + intros Hall. clear Hel. induction (edges g) as [|a l IH]; [done|].
      cbn [List.filter]. rewrite bool_decide_eq_false_2 by (apply Hall; left).
      apply IH. intros e He. apply Hall. by right.
Qed.

(** X14. Whatever the order in which the node map is ranged over,
    [GetNodesByKind] returns exactly the registered nodes that have the
    kind, each once and in that order; when there is none, the result is the
    nil slice. *)
Theorem GetNodesByKind_spec g order kind :
  order ≡ₚ (map_to_list (nodes g)).*2 →
  elems (GetNodesByKindIn order kind)
  = List.filter (fun n => node.HasKind n kind) order
  ∧ (∀ n, n ∈ elems (GetNodesByKindIn order kind)
          ↔ (∃ k, nodes g !! k = Some n) ∧ kind ∈ node.kinds n)
  ∧ (GetNodesByKindIn order kind = nil_slice
     ↔ ∀ k n, nodes g !! k = Some n → kind ∉ node.kinds n).
Proof.
  intros Hperm. unfold GetNodesByKindIn.
  pose proof (collect_elems (fun n => node.HasKind n kind) order nil_slice) as Hel.
  cbn [elems app] in Hel.
  assert (Hin : ∀ n, n ∈ order ↔ ∃ k, nodes g !! k = Some n).
  { intros n. rewrite Hperm, list_elem_of_fmap. split.
    - intros ([k n'] & -> & Hkn). exists k. by apply elem_of_map_to_list.
    - intros [k Hk]. exists (k, n). split; [done|]. by apply elem_of_map_to_list. }
  split; [exact Hel|]. split.
  - intros n. rewrite Hel, list_elem_of_In, filter_In, <- list_elem_of_In, Hin.
    by rewrite HasKind_true.
  - rewrite collect_nil. split.
    + intros Hnone k n Hk Hkind.
      assert (n ∈ List.filter (fun n => node.HasKind n kind) order) as Hn.
      { apply list_elem_of_In, filter_In. split.
        - apply list_elem_of_In, Hin. by exists k.
        - by apply HasKind_true. }
      rewrite Hnone in Hn. by apply elem_of_nil in Hn.
    + intros Hall.
      assert (Hno : ∀ n, n ∈ order → node.HasKind n kind = false).
      { intros n [k Hk]%Hin. apply HasKind_false. by apply (Hall k). }
      clear Hel Hin Hperm. induction order as [|a l IH]; [done|].
      cbn [List.filter]. rewrite (Hno a) by left.
      apply IH. intros n Hn. apply Hno. by right.
Qed.



End composition_facts.

(** ** Validation *)
Section validation_facts.
Context {Value : Type}.
Implicit Types (g : OpenGraph Value) (e : edge.Edge Value).

Lemma orphanFindings_elems g (errors : slice string) e :
  elems (orphanFindings g errors e)
  = elems errors
    ++ match nodes g !! edge.startNodeID e with
       | Some _ => []
       | None => ["Edge " +:+ edge.kind e +:+ " references non-existent start node: "
                  +:+ edge.startNodeID e]
       end
    ++ match nodes g !! edge.endNodeID e with
       | Some _ => []
       | None => ["Edge " +:+ edge.kind e +:+ " references non-existent end node: "
                  +:+ edge.endNodeID e]
       end.
Proof.
  unfold orphanFindings, edge.GetStartNodeID, edge.GetEndNodeID, edge.GetKind.
  destruct (nodes g !! edge.startNodeID e), (nodes g !! edge.endNodeID e);
    cbn [append elems app]; by rewrite ?app_nil_r, <- ?app_assoc.
Qed.

Lemma orphanFindings_nil g (errors : slice string) e :
  orphanFindings g errors e = nil_slice
  ↔ errors = nil_slice
    ∧ is_Some (nodes g !! edge.startNodeID e) ∧ is_Some (nodes g !! edge.endNodeID e).
Proof.
  unfold orphanFindings, edge.GetStartNodeID, edge.GetEndNodeID.
  destruct (nodes g !! edge.startNodeID e), (nodes g !! edge.endNodeID e);
    cbn [append]; split.
  - intros ->. split; [done|]. split; by eexists.
  - by intros [-> _].
  - intros [=].
  - by intros (_ & _ & []).
  - intros [=].
  - by intros (_ & [] & _).
  - intros [=].
  - by intros (_ & [] & _).
Qed.

Lemma orphan_fold_nil g (l : list (edge.Edge Value)) (errors : slice string) :
  foldl (orphanFindings g) errors l = nil_slice
  ↔ errors = nil_slice
    ∧ ∀ e, e ∈ l →
        is_Some (nodes g !! edge.startNodeID e) ∧ is_Some (nodes g !! edge.endNodeID e).
Proof.
  revert errors. induction l as [|a l IH]; intros errors; cbn [foldl].
  - split; [intros ->; split; [done|by intros ? ?%elem_of_nil]|by intros [-> _]].
  - rewrite IH, orphanFindings_nil. split.
    + intros [(-> & Hs & Ht) Hl]. split; [done|].
      intros e [->|He]%elem_of_cons; [done|by apply Hl].
    + intros [-> Hall]. split; [|intros e He; apply Hall; by right].
      split; [done|]. apply Hall. by left.
Qed.

Lemma orphan_fold_mono g (l : list (edge.Edge Value)) (errors : slice string) m :
  m ∈ elems errors → m ∈ elems (foldl (orphanFindings g) errors l).
Proof.
  revert errors. induction l as [|a l IH]; intros errors Hm; [done|].
  cbn [foldl]. apply IH. rewrite orphanFindings_elems. apply elem_of_app. by left.
Qed.

Lemma orphan_fold_reports g (l : list (edge.Edge Value)) (errors : slice string) e :
  e ∈ l →
  (nodes g !! edge.startNodeID e = None →
   ("Edge " +:+ edge.kind e +:+ " references non-existent start node: "
    +:+ edge.startNodeID e) ∈ elems (foldl (orphanFindings g) errors l))
  ∧ (nodes g !! edge.endNodeID e = None →
     ("Edge " +:+ edge.kind e +:+ " references non-existent end node: "
      +:+ edge.endNodeID e) ∈ elems (foldl (orphanFindings g) errors l)).
Proof.
  revert errors. induction l as [|a l IH]; intros errors Hin;
    [by apply elem_of_nil in Hin|].
  apply elem_of_cons in Hin as [<-|Hin]; [|by apply IH].
  cbn [foldl]. split; intros Hnone; apply orphan_fold_mono;
    rewrite orphanFindings_elems, Hnone, !elem_of_app.
  - right. left. by left.
  - right. right. by left.
Qed.

Lemma isolatedIn_elems g (order : list string) :
  elems (isolatedIn g order)
  = List.filter (fun id => bool_decide (length (GetEdgesFromNode g id) = 0)
                           && bool_decide (length (GetEdgesToNode g id) = 0)) order.
Proof. unfold isolatedIn. by rewrite collect_elems. Qed.

Lemma isolated_iff g id :
  bool_decide (length (GetEdgesFromNode g id) = 0)
  && bool_decide (length (GetEdgesToNode g id) = 0) = true
  ↔ ∀ e, e ∈ edges g → edge.startNodeID e ≠ id ∧ edge.endNodeID e ≠ id.
Proof.
  rewrite andb_true_iff, !bool_decide_eq_true, !length_zero_iff_nil.
  unfold GetEdgesFromNode, GetEdgesToNode, edge.GetStartNodeID, edge.GetEndNodeID.
  split.
  - intros [Hfrom Hto] e He. split; intros Heq.
    + assert (e ∈ List.filter (fun e => bool_decide (edge.startNodeID e = id)) (edges g)) as H.
      { apply list_elem_of_In, filter_In. split; [by apply list_elem_of_In|].
        by apply bool_decide_eq_true. }
      rewrite Hfrom in H. by apply elem_of_nil in H.
    + assert (e ∈ List.filter (fun e => bool_decide (edge.endNodeID e = id)) (edges g)) as H.
      { apply list_elem_of_In, filter_In. split; [by apply list_elem_of_In|].
        by apply bool_decide_eq_true. }
      rewrite Hto in H. by apply elem_of_nil in H.
  - intros Hall. split.
    + induction (edges g) as [|a l IH]; [done|]. cbn [List.filter].
      rewrite bool_decide_eq_false_2 by (apply Hall; left).
      apply IH. intros e He. apply Hall. by right.
    + induction (edges g) as [|a l IH]; [done|]. cbn [List.filter].
      rewrite bool_decide_eq_false_2 by (apply Hall; left).
      apply IH. intros e He. apply Hall. by right.
Qed.

Lemma not_isolated g id :
  bool_decide (length (GetEdgesFromNode g id) = 0)
  && bool_decide (length (GetEdgesToNode g id) = 0) = false →
  ∃ e, e ∈ edges g ∧ (edge.startNodeID e = id ∨ edge.endNodeID e = id).
Proof.
  intros [Hf|Ht]%andb_false_iff.
  - apply bool_decide_eq_false in Hf.
    destruct (GetEdgesFromNode g id) as [|e l] eqn:Hl; [done|].
    assert (e ∈ GetEdgesFromNode g id) as He by (rewrite Hl; left).
    apply GetEdgesFromNode_elem in He as [He Hs]. exists e. by eauto.
  - apply bool_decide_eq_false in Ht.
    destruct (GetEdgesToNode g id) as [|e l] eqn:Hl; [done|].
    assert (e ∈ GetEdgesToNode g id) as He by (rewrite Hl; left).
    unfold GetEdgesToNode, edge.GetEndNodeID in He.
    apply list_elem_of_In, filter_In in He as [He Hs].
    apply bool_decide_eq_true in Hs. exists e. split; [by apply list_elem_of_In|by right].
Qed.

(** X16. [ValidateGraph] returns the nil slice exactly when both ends of
    every edge are registered and every registered node has an incident
    edge.  Every edge with an unregistered start or end is reported with
    its kind and the missing id, and when some registered node has no
    incident edge the finding that counts and lists the isolated nodes is
    there. *)
Theorem ValidateGraph_findings g order :
  order ≡ₚ (map_to_list (nodes g)).*1 →
  (ValidateGraphIn order g = nil_slice
   ↔ (∀ e, e ∈ edges g →
        is_Some (nodes g !! edge.startNodeID e) ∧ is_Some (nodes g !! edge.endNodeID e))
     ∧ (∀ id, is_Some (nodes g !! id) →
          ∃ e, e ∈ edges g ∧ (edge.startNodeID e = id ∨ edge.endNodeID e = id)))
  ∧ (∀ e, e ∈ edges g → nodes g !! edge.startNodeID e = None →
       ("Edge " +:+ edge.kind e +:+ " references non-existent start node: "
        +:+ edge.startNodeID e) ∈ elems (ValidateGraphIn order g))
  ∧ (∀ e, e ∈ edges g → nodes g !! edge.endNodeID e = None →
       ("Edge " +:+ edge.kind e +:+ " references non-existent end node: "
        +:+ edge.endNodeID e) ∈ elems (ValidateGraphIn order g))
  ∧ ((∃ id, is_Some (nodes g !! id)
            ∧ ∀ e, e ∈ edges g → edge.startNodeID e ≠ id ∧ edge.endNodeID e ≠ id)
     → ("Found " +:+ pretty (len (isolatedIn g order)) +:+ " isolated nodes: "
        +:+ sprintStrings (elems (isolatedIn g order)))
       ∈ elems (ValidateGraphIn order g)).
Proof.
  intros Hperm.
  assert (Hkeys : ∀ id, id ∈ order ↔ is_Some (nodes g !! id)).
  { intros id. rewrite Hperm, list_elem_of_fmap. split.
    - intros ([k n] & -> & Hkn). exists n. by apply elem_of_map_to_list.
    - intros [n Hn]. exists (id, n). split; [done|]. by apply elem_of_map_to_list. }
  assert (Hiso : 0 < len (isolatedIn g order)
                 ↔ ∃ id, is_Some (nodes g !! id)
                     ∧ ∀ e, e ∈ edges g → edge.startNodeID e ≠ id ∧ edge.endNodeID e ≠ id).
  { unfold len. rewrite isolatedIn_elems. split.
    - intros Hpos. destruct (List.filter _ order) as [|id l] eqn:Hf; [cbn in Hpos; lia|].
      assert (id ∈ List.filter
        (fun id => bool_decide (length (GetEdgesFromNode g id) = 0)
                   && bool_decide (length (GetEdgesToNode g id) = 0)) order) as Hid.
      { rewrite Hf. left. }
      apply list_elem_of_In, filter_In in Hid as [Hid Hisol].
      exists id. split; [by apply Hkeys, list_elem_of_In|]. by apply isolated_iff.
    - intros (id & Hreg & Hisol).
      assert (id ∈ List.filter
        (fun id => bool_decide (length (GetEdgesFromNode g id) = 0)
                   && bool_decide (length (GetEdgesToNode g id) = 0)) order) as Hid.
      { apply list_elem_of_In, filter_In. split; [by apply list_elem_of_In, Hkeys|].
        by apply isolated_iff. }
      destruct (List.filter _ order); [by apply elem_of_nil in Hid|cbn; lia]. }
  unfold ValidateGraphIn. split; [|split; [|split]].
  - destruct (bool_decide_reflect (0 < len (isolatedIn g order))) as [Hpos|Hzero].
    + split; [done|]. intros [_ Hcov]. apply Hiso in Hpos as (id & Hreg & Hisol).
      destruct (Hcov id Hreg) as (e & He & [Hs|Ht]); by destruct (Hisol e He).
    + rewrite orphan_fold_nil. split.
      * intros [_ Hreg]. split; [done|]. intros id Hid.
        destruct (bool_decide (length (GetEdgesFromNode g id) = 0)
                  && bool_decide (length (GetEdgesToNode g id) = 0)) eqn:Hb;
          [|by apply not_isolated].
        destruct Hzero. apply Hiso. exists id. split; [done|]. by apply isolated_iff.
      * by intros [Hreg _].
  - intros e He Hnone. destruct (bool_decide _);
      [cbn [append elems]; rewrite elem_of_app; left|];
      by apply (orphan_fold_reports g (edges g) nil_slice e He).
  - intros e He Hnone. destruct (bool_decide _);
      [cbn [append elems]; rewrite elem_of_app; left|];
      by apply (orphan_fold_reports g (edges g) nil_slice e He).
  - intros Hex. apply Hiso in Hex as Hpos. rewrite (bool_decide_eq_true_2 _ Hpos).
    cbn [append elems]. apply elem_of_app. right. by left.
Qed.

(** X17. On a graph in which both ends of every edge are registered, as
    [AddEdge] and [RemoveNodeByID] keep it, [ValidateGraph] has no finding
    about edges: its result is the nil slice when no node is isolated, and
    otherwise the single finding that counts and lists the isolated nodes in
    the order in which the node map was ranged over. *)
Theorem ValidateGraph_registered g order :
  registered g →
  order ≡ₚ (map_to_list (nodes g)).*1 →
  ValidateGraphIn order g
  = match List.filter
            (fun id => bool_decide (length (GetEdgesFromNode g id) = 0)
                       && bool_decide (length (GetEdgesToNode g id) = 0)) order with
    | [] => nil_slice
    | isolated =>
      mk_slice ["Found " +:+ pretty (length isolated) +:+ " isolated nodes: "
                +:+ sprintStrings isolated]
    end.
Proof.
  intros Hreg _. unfold ValidateGraphIn.
  assert (Hnil : foldl (orphanFindings g) nil_slice (edges g) = nil_slice).
  { by apply orphan_fold_nil. }
  rewrite Hnil. unfold len. rewrite isolatedIn_elems.
  destruct (List.filter _ order) as [|id l]; [done|].
  rewrite bool_decide_eq_true_2 by (cbn; lia). done.
Qed.

End validation_facts.

(** ** Connected components *)
Section component_facts.
Context {Value : Type}.
Implicit Types (g : OpenGraph Value) (e : edge.Edge Value).

Lemma pushUnvisited_elem (seen : gset string) (ids stack : list string) x :
  x ∈ pushUnvisited seen stack ids ↔ x ∈ stack ∨ (x ∈ ids ∧ x ∉ seen).
Proof.
  unfold pushUnvisited. revert stack. induction ids as [|a ids IH]; intros stack.
  - cbn [foldl]. rewrite elem_of_nil. tauto.
  - cbn [foldl]. rewrite IH, elem_of_cons.
    destruct (bool_decide_reflect (a ∈ seen)) as [Ha|Ha].
    + split; [tauto|]. intros [?|[[->|?] ?]]; tauto.
    + rewrite elem_of_cons. split; [|tauto].
      intros [[->|?]|?]; tauto.
Qed.

Lemma pushUnvisited_length (seen : gset string) (ids stack : list string) :
  length (pushUnvisited seen stack ids) ≤ length stack + length ids.
Proof.
  unfold pushUnvisited. revert stack. induction ids as [|a ids IH]; intros stack.
  - cbn. lia.
  - cbn [foldl]. destruct (bool_decide _).
    + specialize (IH stack). cbn [length]. lia.
    + specialize (IH (a :: stack)). cbn [length] in *. lia.
Qed.

Lemma mark_counts {A} (f : A → string) (l : list A) (seen : gset string) x :
  x ∉ seen →
  length (List.filter (fun a => negb (bool_decide (f a ∈ ({[x]} ∪ seen : gset string)))) l)
  + length (List.filter (fun a => bool_decide (f a = x)) l)
  = length (List.filter (fun a => negb (bool_decide (f a ∈ seen))) l).
Proof.
  intros Hx. induction l as [|a l IH]; [done|]. cbn [List.filter].
  destruct (decide (f a = x)) as [Heq|Hne].
  - rewrite (bool_decide_eq_true_2 _ Heq).
    rewrite (bool_decide_eq_true_2 (f a ∈ {[x]} ∪ seen))
      by (apply elem_of_union_l, elem_of_singleton; exact Heq).
    rewrite (bool_decide_eq_false_2 (f a ∈ seen)) by (by rewrite Heq).
    cbn. lia.
  - rewrite (bool_decide_eq_false_2 _ Hne).
    destruct (decide (f a ∈ seen)) as [Hin|Hout].
    + rewrite (bool_decide_eq_true_2 _ Hin).
      rewrite (bool_decide_eq_true_2 (f a ∈ {[x]} ∪ seen)) by (by apply elem_of_union_r).
      cbn. lia.
    + rewrite (bool_decide_eq_false_2 _ Hout).
      rewrite (bool_decide_eq_false_2 (f a ∈ {[x]} ∪ seen)).
      * cbn. lia.
      * rewrite elem_of_union, elem_of_singleton. tauto.
Qed.

(** Marking an id pays for everything that is pushed for it. *)
Lemma sweep_measure g (seen : gset string) (stack : list string) current :
  current ∉ seen →
  length (pushUnvisited ({[current]} ∪ seen)
            (pushUnvisited ({[current]} ∪ seen) stack
               (edge.GetEndNodeID <$> GetEdgesFromNode g current))
            (edge.GetStartNodeID <$> GetEdgesToNode g current))
    + pending g ({[current]} ∪ seen)
  ≤ length stack + pending g seen.
Proof.
  intros Hcur.
  pose proof (pushUnvisited_length ({[current]} ∪ seen)
    (edge.GetStartNodeID <$> GetEdgesToNode g current)
    (pushUnvisited ({[current]} ∪ seen) stack
       (edge.GetEndNodeID <$> GetEdgesFromNode g current))) as H1.
  pose proof (pushUnvisited_length ({[current]} ∪ seen)
    (edge.GetEndNodeID <$> GetEdgesFromNode g current) stack) as H2.
  rewrite length_fmap in H1, H2.
  pose proof (mark_counts edge.startNodeID (edges g) seen current Hcur) as H3.
  pose proof (mark_counts edge.endNodeID (edges g) seen current Hcur) as H4.
  unfold pending, GetEdgesFromNode, GetEdgesToNode, edge.GetStartNodeID,
    edge.GetEndNodeID in *.
  lia.
Qed.

Lemma sweep_enough_fuel g fuel (seen component : gset string) (stack : list string) :
  length stack + pending g seen ≤ fuel →
  is_Some (sweep fuel g seen component stack).
Proof.
  revert seen component stack.
  induction fuel as [|fuel IH]; intros seen component stack Hm.
  - destruct stack; [by eexists|cbn in Hm; lia].
  - destruct stack as [|current stack]; [by eexists|]. cbn [sweep].
    destruct (bool_decide_reflect (current ∈ seen)) as [Hin|Hout].
    + apply IH. cbn in Hm. lia.
    + apply IH. pose proof (sweep_measure g seen stack current Hout).
      cbn [length] in Hm. lia.
Qed.

Lemma pending_bound g (seen : gset string) : pending g seen ≤ 2 * length (edges g).
Proof.
  unfold pending.
  pose proof (List.filter_length_le
    (fun e : edge.Edge Value => negb (bool_decide (edge.startNodeID e ∈ seen))) (edges g)).
  pose proof (List.filter_length_le
    (fun e : edge.Edge Value => negb (bool_decide (edge.endNodeID e ∈ seen))) (edges g)).
  lia.
Qed.

Lemma componentsLoop_returns g order (seen : gset string) (components : slice (gset string)) :
  is_Some (componentsLoop g order seen components).
Proof.
  revert seen components. induction order as [|nodeID order IH]; intros seen components.
  - by eexists.
  - cbn [componentsLoop]. destruct (bool_decide _); [apply IH|].
    destruct (sweep_enough_fuel g (S (2 * length (edges g))) seen ∅ [nodeID])
      as [[seen' component] ->]; [|apply IH].
    pose proof (pending_bound g seen). cbn [length]. lia.
Qed.

Lemma adjacent_sym g a b : adjacent g a b → adjacent g b a.
Proof. unfold adjacent. tauto. Qed.

Lemma connected_sym g a b : connected g a b → connected g b a.
Proof.
  unfold connected. induction 1 as [|a b c Hab _ IH]; [done|].
  eapply rtc_r; [exact IH|]. by apply adjacent_sym.
Qed.

Lemma connected_closed g (C : gset string) a b :
  closed g C → connected g a b → a ∈ C → b ∈ C.
Proof.
  intros Hclosed. unfold connected. induction 1 as [|a b c Hab _ IH]; [done|].
  intros Ha. apply IH.
  destruct Hab as [(e & He & <- & <-)|(e & He & <- & <-)]; by apply (Hclosed e He).
Qed.

Lemma sweep_ok_final g (seen0 : gset string) root (seen component : gset string) :
  closed g seen0 →
  sweep_ok g seen0 root seen component [] →
  seen = component ∪ seen0 ∧ component ## seen0 ∧ root ∈ component
  ∧ (∀ x, x ∈ component → connected g root x) ∧ closed g component.
Proof.
  intros Hclosed [Hseen Hfresh Hroot Hreach Hfront].
  split; [done|]. split; [done|].
  split; [by destruct Hroot as [?|?%elem_of_nil]|].
  split; [intros x Hx; apply Hreach; by left|].
  intros e He. split.
  - intros Hs. destruct (Hfront (edge.startNodeID e) (edge.endNodeID e) Hs)
      as [Hin|Hin%elem_of_nil]; [left; by exists e| |done].
    rewrite Hseen in Hin. apply elem_of_union in Hin as [?|Hin0]; [done|].
    apply (Hclosed e He) in Hin0. by destruct (Hfresh (edge.startNodeID e)).
  - intros Ht. destruct (Hfront (edge.endNodeID e) (edge.startNodeID e) Ht)
      as [Hin|Hin%elem_of_nil]; [right; by exists e| |done].
    rewrite Hseen in Hin. apply elem_of_union in Hin as [?|Hin0]; [done|].
    apply (Hclosed e He) in Hin0. by destruct (Hfresh (edge.endNodeID e)).
Qed.

Lemma sweep_ok_skip g (seen0 : gset string) root (seen component : gset string)
    current stack :
  root ∉ seen0 → current ∈ seen →
  sweep_ok g seen0 root seen component (current :: stack) →
  sweep_ok g seen0 root seen component stack.
Proof.
  intros Hroot0 Hcur [Hseen Hfresh Hroot Hreach Hfront]. split; [done..| | |].
  - destruct Hroot as [?|[->|?]%elem_of_cons]; [by left| |by right].
    left. rewrite Hseen in Hcur. by apply elem_of_union in Hcur as [?|?].
  - intros x [?|?]; apply Hreach; [by left|right; by right].
  - intros a b Ha Hab. destruct (Hfront a b Ha Hab) as [?|[->|?]%elem_of_cons];
      [by left|by left|by right].
Qed.

Lemma sweep_ok_mark g (seen0 : gset string) root (seen component : gset string)
    current stack :
  current ∉ seen →
  sweep_ok g seen0 root seen component (current :: stack) →
  sweep_ok g seen0 root ({[current]} ∪ seen) ({[current]} ∪ component)
    (pushUnvisited ({[current]} ∪ seen)
       (pushUnvisited ({[current]} ∪ seen) stack
          (edge.GetEndNodeID <$> GetEdgesFromNode g current))
       (edge.GetStartNodeID <$> GetEdgesToNode g current)).
Proof.
  intros Hcur [Hseen Hfresh Hroot Hreach Hfront].
  assert (Hcur0 : current ∉ seen0).
  { intros Hin. apply Hcur. rewrite Hseen. by apply elem_of_union_r. }
  assert (Hcc : connected g root current).
  { apply Hreach. right. by left. }
  split.
  - rewrite Hseen. by rewrite (assoc_L (∪)).
  - intros x [->%elem_of_singleton|Hx]%elem_of_union Hx0; [done|].
    by apply (Hfresh x).
  - destruct Hroot as [?|[->|?]%elem_of_cons].
    + left. by apply elem_of_union_r.
    + left. by apply elem_of_union_l, elem_of_singleton.
    + right. rewrite !pushUnvisited_elem. by left; left.
  - intros x [[->%elem_of_singleton|Hx]%elem_of_union|Hx]; [done| |].
    + apply Hreach. by left.
    + rewrite !pushUnvisited_elem in Hx.
      destruct Hx as [[Hx|[Hx _]]|[Hx _]].
      * apply Hreach. right. by right.
      * apply list_elem_of_fmap in Hx as (e & -> & He).
        apply GetEdgesFromNode_elem in He as [He Hs].
        unfold connected. eapply rtc_r; [exact Hcc|]. left. by exists e.
      * apply list_elem_of_fmap in Hx as (e & -> & He).
        unfold GetEdgesToNode, edge.GetEndNodeID in He.
        apply list_elem_of_In, filter_In in He as [He Ht].
        apply bool_decide_eq_true in Ht. apply list_elem_of_In in He.
        unfold connected. eapply rtc_r; [exact Hcc|]. right. by exists e.
  - intros a b [->%elem_of_singleton|Ha]%elem_of_union Hab.
    + destruct (decide (b ∈ {[current]} ∪ seen)) as [?|Hb]; [by left|]. right.
      rewrite !pushUnvisited_elem.
      destruct Hab as [(e & He & Hs & Ht)|(e & He & Hs & Ht)].
      * left. right. split; [|done]. apply list_elem_of_fmap. exists e.
        split; [done|]. by apply GetEdgesFromNode_elem.
      * right. split; [|done]. apply list_elem_of_fmap. exists e.
        split; [done|]. unfold GetEdgesToNode, edge.GetEndNodeID.
        apply list_elem_of_In, filter_In. split; [by apply list_elem_of_In|].
        by apply bool_decide_eq_true.
    + destruct (Hfront a b Ha Hab) as [?|[->|?]%elem_of_cons].
      * left. by apply elem_of_union_r.
      * left. by apply elem_of_union_l, elem_of_singleton.
      * right. rewrite !pushUnvisited_elem. by left; left.
Qed.

Lemma sweep_correct g (seen0 : gset string) root fuel :
  root ∉ seen0 → closed g seen0 →
  ∀ (seen component : gset string) stack seen' component',
    sweep_ok g seen0 root seen component stack →
    sweep fuel g seen component stack = Some (seen', component') →
    seen' = component' ∪ seen0 ∧ component' ## seen0 ∧ root ∈ component'
    ∧ (∀ x, x ∈ component' → connected g root x) ∧ closed g component'.
Proof.
  intros Hroot0 Hclosed.
  induction fuel as [|fuel IH]; intros seen component stack seen' component' Hok.
  - destruct stack; [|done]. intros [= <- <-]. by apply (sweep_ok_final g seen0 root).
  - destruct stack as [|current stack].
    { intros [= <- <-]. by apply (sweep_ok_final g seen0 root). }
    cbn [sweep]. destruct (bool_decide_reflect (current ∈ seen)) as [Hin|Hout].
    + apply IH. by apply (sweep_ok_skip g seen0 root seen component current).
    + apply IH. by apply sweep_ok_mark.
Qed.

Lemma components_ok_closed g (seen : gset string) components :
  components_ok g seen components → closed g seen.
Proof.
  intros [Hcover Hclosed _ _ _] e He. rewrite !Hcover. split.
  - intros (C & HC & Hs). exists C. split; [done|]. by apply (Hclosed C HC e He).
  - intros (C & HC & Ht). exists C. split; [done|]. by apply (Hclosed C HC e He).
Qed.

Lemma components_ok_snoc g (seen0 : gset string) components root (C : gset string) :
  components_ok g seen0 components →
  C ## seen0 → root ∈ C → (∀ x, x ∈ C → connected g root x) → closed g C →
  components_ok g (C ∪ seen0) (components ++ [C]).
Proof.
  intros [Hcover Hclosed Hjoined Hapart Hinh] Hfresh Hroot Hreach HC. split.
  - intros x. rewrite elem_of_union, Hcover. split.
    + intros [Hx|(D & HD & Hx)].
      * exists C. split; [|done]. apply elem_of_app. right. by left.
      * exists D. split; [|done]. apply elem_of_app. by left.
    + intros (D & [HD| ->%list_elem_of_singleton]%elem_of_app & Hx); [|by left].
      right. by exists D.
  - intros D [HD| ->%list_elem_of_singleton]%elem_of_app; [by apply Hclosed|done].
  - intros D a b [HD| ->%list_elem_of_singleton]%elem_of_app Ha Hb;
      [by apply (Hjoined D)|].
    unfold connected. etrans; [apply connected_sym, Hreach, Ha|by apply Hreach].
  - assert (Hold : ∀ D x, D ∈ components → x ∈ C → x ∈ D → False).
    { intros D x HD Hx HxD. apply (Hfresh x Hx). apply Hcover. by exists D. }
    intros i j D E Hi Hj Hne.
    destruct (decide (i < length components)) as [Hil|Hil];
      destruct (decide (j < length components)) as [Hjl|Hjl].
    + rewrite lookup_app_l in Hi, Hj by done. by apply (Hapart i j).
    + rewrite lookup_app_l in Hi by done. rewrite lookup_app_r in Hj by lia.
      apply list_lookup_singleton_Some in Hj as [_ <-].
      intros x HxD HxC. apply (Hold D x); [by eapply list_elem_of_lookup_2|done..].
    + rewrite lookup_app_l in Hj by done. rewrite lookup_app_r in Hi by lia.
      apply list_lookup_singleton_Some in Hi as [_ <-].
      intros x HxC HxE. apply (Hold E x); [by eapply list_elem_of_lookup_2|done..].
    + rewrite lookup_app_r in Hi, Hj by lia.
      apply list_lookup_singleton_Some in Hi as [Hi _].
      apply list_lookup_singleton_Some in Hj as [Hj _]. lia.
  - intros D [HD| ->%list_elem_of_singleton]%elem_of_app; [by apply Hinh|].
    intros Hem. rewrite Hem in Hroot. by apply not_elem_of_empty in Hroot.
Qed.

Lemma componentsLoop_ok g order :
  ∀ (seen : gset string) (components res : slice (gset string)),
    components_ok g seen (elems components) →
    componentsLoop g order seen components = Some res →
    ∃ seen', components_ok g seen' (elems res)
      ∧ seen ⊆ seen'
      ∧ (∀ x, x ∈ order → x ∈ seen')
      ∧ (∀ C, C ∈ elems res → C ∈ elems components ∨ ∃ r, r ∈ order ∧ r ∈ C)
      ∧ (res = nil_slice ↔ components = nil_slice ∧ ∀ x, x ∈ order → x ∈ seen).
Proof.
  induction order as [|nodeID order IH]; intros seen components res Hok.
  - intros [= <-]. exists seen. split; [done|]. split; [done|].
    split; [by intros x ?%elem_of_nil|]. split; [by left|].
    split; [intros ->; split; [done|by intros x ?%elem_of_nil]|by intros [-> _]].
  - cbn [componentsLoop]. destruct (bool_decide_reflect (nodeID ∈ seen)) as [Hin|Hout].
    + intros Hres. destruct (IH seen components res Hok Hres)
        as (seen' & Hok' & Hsub & Hall & Hfrom & Hnil).
      exists seen'. split; [done|]. split; [done|]. split; [|split].
      * intros x [->|?]%elem_of_cons; [by apply Hsub|by apply Hall].
      * intros C HC. destruct (Hfrom C HC) as [?|(r & ? & ?)]; [by left|].
        right. exists r. split; [by right|done].
      * rewrite Hnil. split.
        -- intros [-> Hrest]. split; [done|].
           intros x [->|?]%elem_of_cons; [done|by apply Hrest].
        -- intros [-> Hrest]. split; [done|]. intros x Hx. apply Hrest. by right.
    + destruct (sweep _ g seen ∅ [nodeID]) as [[seen1 C]|] eqn:Hsweep; [|done].
      intros Hres.
      destruct (sweep_correct g seen nodeID (S (2 * length (edges g))) Hout
                  (components_ok_closed _ _ _ Hok)
                  seen ∅ [nodeID] seen1 C) as (-> & Hfresh & Hroot & Hreach & HC);
        [|exact Hsweep|].
      { split.
        - by rewrite (left_id_L ∅ (∪)).
        - intros x Hx. by apply not_elem_of_empty in Hx.
        - right. by left.
        - intros x [Hx| ->%list_elem_of_singleton]; [by apply not_elem_of_empty in Hx|].
          unfold connected. done.
        - intros a b Ha. by apply not_elem_of_empty in Ha. }
      destruct (IH (C ∪ seen) (append components C) res) as
        (seen' & Hok' & Hsub & Hall & Hfrom & Hnil); [|exact Hres|].
      { cbn [append elems]. by apply (components_ok_snoc g seen _ nodeID). }
      exists seen'. split; [done|]. split; [|split; [|split]].
      * intros x Hx. apply Hsub. by apply elem_of_union_r.
      * intros x [->|?]%elem_of_cons; [|by apply Hall].
        apply Hsub. by apply elem_of_union_l.
      * intros D HD. destruct (Hfrom D HD) as [HD'|(r & ? & ?)].
        -- cbn [append elems] in HD'.
           apply elem_of_app in HD' as [?| ->%list_elem_of_singleton]; [by left|].
           right. exists nodeID. split; [by left|done].
        -- right. exists r. split; [by right|done].
      * rewrite Hnil. split; [by intros [[=] _]|].
        intros [_ Hrest]. destruct Hout. apply Hrest. by left.
Qed.

Lemma components_ok_initial g : components_ok g ∅ [].
Proof.
  split.
  - intros x. split; [by intros ?%not_elem_of_empty|by intros (C & ?%elem_of_nil & _)].
  - by intros C ?%elem_of_nil.
  - by intros C a b ?%elem_of_nil.
  - intros i j C D Hi. by rewrite lookup_nil in Hi.
  - by intros C ?%elem_of_nil.
Qed.

Lemma order_keys g (order : list string) id :
  order ≡ₚ (map_to_list (nodes g)).*1 → id ∈ order ↔ is_Some (nodes g !! id).
Proof.
  intros ->. rewrite list_elem_of_fmap. split.
  - intros ([k n] & -> & Hkn). exists n. by apply elem_of_map_to_list.
  - intros [n Hn]. exists (id, n). split; [done|]. by apply elem_of_map_to_list.
Qed.

(** X18. [GetConnectedComponents] returns on every graph, whatever the
    order in which the node map is ranged over.  Every registered node lies
    in a component, two different components share no id, and every
    component holds a registered node; the result is the nil slice exactly
    for a graph without nodes.  When both ends of every edge are registered,
    the components hold registered ids only, so they partition the node
    set. *)
Theorem GetConnectedComponents_partition g order :
  order ≡ₚ (map_to_list (nodes g)).*1 →
  ∃ comps, GetConnectedComponentsIn order g = Some comps
    ∧ (∀ id, is_Some (nodes g !! id) → ∃ C, C ∈ elems comps ∧ id ∈ C)
    ∧ (∀ i j C D, elems comps !! i = Some C → elems comps !! j = Some D →
         i ≠ j → C ## D)
    ∧ (∀ C, C ∈ elems comps → ∃ r, is_Some (nodes g !! r) ∧ r ∈ C)
    ∧ (comps = nil_slice ↔ nodes g = ∅)
    ∧ (registered g → ∀ C x, C ∈ elems comps → x ∈ C → is_Some (nodes g !! x)).
Proof.
  intros Hperm. unfold GetConnectedComponentsIn.
  destruct (componentsLoop_returns g order ∅ nil_slice) as [comps Hcomps].
  exists comps. split; [done|].
  destruct (componentsLoop_ok g order ∅ nil_slice comps (components_ok_initial g) Hcomps)
    as (seen' & [Hcover Hclosed Hjoined Hapart Hinh] & _ & Hall & Hfrom & Hnil).
  assert (Hreg : ∀ C, C ∈ elems comps → ∃ r, is_Some (nodes g !! r) ∧ r ∈ C).
  { intros C HC. destruct (Hfrom C HC) as [?%elem_of_nil|(r & Hr & HrC)]; [done|].
    exists r. split; [|done]. by apply (order_keys g order r Hperm). }
  split; [|split; [done|split; [done|split]]].
  - intros id Hid. apply Hcover, Hall. by apply (order_keys g order id Hperm).
  - rewrite Hnil. split.
    + intros [_ Hnone]. apply map_empty. intros k.
      destruct (nodes g !! k) eqn:Hk; [|done].
      assert (k ∈ order) as Hin by (apply (order_keys g order k Hperm); by eexists).
      by apply Hnone, not_elem_of_empty in Hin.
    + intros Hem. split; [done|]. intros x Hx%(order_keys g order x Hperm).
      rewrite Hem, lookup_empty in Hx. by destruct Hx.
  - intros Hends C x HC Hx. destruct (Hreg C HC) as (r & Hr & HrC).
    assert (Hdom : closed g (dom (nodes g))).
    { intros e He. rewrite !elem_of_dom. destruct (Hends e He). by split. }
    apply elem_of_dom.
    apply (connected_closed g (dom (nodes g)) r x Hdom); [|by apply elem_of_dom].
    by apply (Hjoined C).
Qed.

(** X19. The components are the classes of undirected connectivity: for
    an id [a] of a component, an id [b] lies in the same component exactly
    when a chain of stored edges, each taken in either direction, joins [a]
    and [b]. *)
Theorem GetConnectedComponents_connectivity g order comps :
  order ≡ₚ (map_to_list (nodes g)).*1 →
  GetConnectedComponentsIn order g = Some comps →
  ∀ C a b, C ∈ elems comps → a ∈ C → (b ∈ C ↔ connected g a b).
Proof.
  intros _ Hcomps C a b HC Ha. unfold GetConnectedComponentsIn in Hcomps.
  destruct (componentsLoop_ok g order ∅ nil_slice comps (components_ok_initial g) Hcomps)
    as (seen' & [Hcover Hclosed Hjoined Hapart Hinh] & _).
  split.
  - intros Hb. by apply (Hjoined C).
  - intros Hab. by apply (connected_closed g C a b (Hclosed C HC)).
Qed.

End component_facts.

(** ** Path enumeration finds a path when there is one *)
Section search_complete.
Context {Value : Type}.
Implicit Types (g : OpenGraph Value) (e : edge.Edge Value) (st : search).

Lemma foldl_prefix {A B} (P : list B → A → Prop) (f : A → B → A) (l : list B) (a : A) :
  P [] a → (∀ pre b a, P pre a → b ∈ l → P (pre ++ [b]) (f a b)) → P l (foldl f a l).
Proof.
  intros Ha Hstep.
  assert (Hgen : ∀ k pre a, P pre a → (∀ b, b ∈ k → b ∈ l) → P (pre ++ k) (foldl f a k)).
  { induction k as [|b k IH]; intros pre a' Ha' Hsub.
    - by rewrite app_nil_r.
    - cbn [foldl]. replace (pre ++ b :: k) with ((pre ++ [b]) ++ k)
        by (by rewrite <- app_assoc).
      apply IH; [apply Hstep; [done|apply Hsub; left]|].
      intros b' Hb'. apply Hsub. by right. }
  apply (Hgen l [] a Ha). done.
Qed.

Lemma visit_levels g startID endID current A finished pre st depth e :
  visiting_ok g startID endID current A finished pre st depth →
  ∃ depth', visiting_ok g startID endID current A finished (pre ++ [e])
              (visit endID current st e) depth'.
Proof.
  intros [Hmarked Hstart Hend Hfin Hcur Hwait Hqueue (B & HAB & HB) Hbound Hedges Hseen].
  unfold visit, edge.GetEndNodeID.
  destruct (bool_decide_reflect (edge.endNodeID e ∈ visited st)) as [Hv|Hv].
  { exists depth. split; try done; [by exists B|].
    intros e' [He'| ->%list_elem_of_singleton]%elem_of_app; [by apply Hseen|].
    right. apply Hmarked in Hv as [m Hm]. exists m. split; [done|]. by eapply Hbound. }
  destruct (bool_decide_reflect (edge.endNodeID e = endID)) as [Heq|Hne].
  { exists depth.
    assert (Hnonempty : elems (append (paths st) (([] ++ item_path current)
                          ++ [edge.endNodeID e])) ≠ []).
    { cbn [append elems]. by destruct (elems (paths st)). }
    split; cbn [paths visited queue]; try done; [by exists B| |].
    - intros u n e' Hu Hn He' Hs.
      destruct (Hedges u n e' Hu Hn He' Hs) as [[? _]|?]; [by left|by right].
    - intros e' [He'| ->%list_elem_of_singleton]%elem_of_app; [|by left].
      destruct (Hseen e' He') as [[? _]|?]; [by left|by right]. }
  assert (Hfresh : depth !! edge.endNodeID e = None).
  { apply eq_None_not_Some. by rewrite <- Hmarked. }
  assert (Hkeep : ∀ v, is_Some (depth !! v) →
            <[edge.endNodeID e := S (length (item_path current))]> depth !! v = depth !! v).
  { intros v [n Hn]. apply lookup_insert_ne. intros <-. congruence. }
  exists (<[edge.endNodeID e := S (length (item_path current))]> depth).
  split; cbn [paths visited queue].
  - intros v. rewrite elem_of_union, elem_of_singleton, lookup_insert_is_Some, Hmarked.
    split; [intros [->|?]; [by left|]|intros [->|[_ ?]]; [by left|by right]].
    destruct (decide (edge.endNodeID e = v)); [by left|by right].
  - rewrite Hkeep; [done|by eexists].
  - rewrite not_elem_of_union, not_elem_of_singleton. split; [congruence|done].
  - intros v Hv'. by apply elem_of_union_r, Hfin.
  - rewrite Hkeep; [done|by eexists].
  - intros v [->%elem_of_singleton|Hv']%elem_of_union.
    + right. right. eexists. split; [apply elem_of_app; right; by left|done].
    + destruct (Hwait v Hv') as [?|[?|(it & Hit & Hid)]]; [by left|by right; left|].
      right. right. exists it. split; [|done]. apply elem_of_app. by left.
  - intros it [Hit| ->%list_elem_of_singleton]%elem_of_app.
    + rewrite Hkeep; [by apply Hqueue|]. rewrite (Hqueue it Hit). by eexists.
    + cbn [item_id item_path]. rewrite lookup_insert_eq. f_equal.
      rewrite app_nil_l, length_app. cbn [length]. lia.
  - exists (B ++ [mkItem (edge.endNodeID e) (([] ++ item_path current)
                    ++ [edge.endNodeID e])]).
    split; [by rewrite HAB, <- app_assoc|].
    apply Forall_app. split; [done|]. apply Forall_singleton. cbn [item_path].
    rewrite app_nil_l, length_app. cbn [length]. lia.
  - intros v n [[_ <-]|[_ Hn]]%lookup_insert_Some; [done|by eapply Hbound].
  - intros u n e' Hu Hn He' Hs.
    assert (Hu' : is_Some (depth !! u)) by (by apply Hmarked, Hfin).
    rewrite (Hkeep u Hu') in Hn.
    destruct (Hedges u n e' Hu Hn He' Hs) as [?|(m & Hm & Hle)]; [by left|].
    right. exists m. split; [|done]. rewrite Hkeep; [done|by eexists].
  - intros e' [He'| ->%list_elem_of_singleton]%elem_of_app.
    + destruct (Hseen e' He') as [?|(m & Hm & Hle)]; [by left|].
      right. exists m. split; [|done]. rewrite Hkeep; [done|by eexists].
    + right. eexists. split; [apply lookup_insert_eq|done].
Qed.

(** One turn of the loop takes the search from one level state to the
    next. *)
Lemma turn_levels g startID endID st depth finished hd rest :
  levels_ok g startID endID st depth finished →
  queue st = hd :: rest →
  ∃ depth' finished',
    levels_ok g startID endID
      (foldl (visit endID hd) (mkSearch (paths st) (visited st) rest)
             (GetEdgesFromNode g (item_id hd)))
      depth' finished'.
Proof.
  intros [Hmarked Hstart Hend Hfin Hwait Hqueue Horder Hedges] Hq.
  destruct (Horder hd rest Hq) as (A & B & -> & HA & HB & Hbound).
  assert (Hhd : depth !! item_id hd = Some (length (item_path hd))).
  { apply Hqueue. rewrite Hq. left. }
  pose proof (foldl_prefix
    (fun pre s => ∃ depth', visiting_ok g startID endID hd A finished pre s depth')
    (visit endID hd) (GetEdgesFromNode g (item_id hd))
    (mkSearch (paths st) (visited st) (A ++ B))) as Hfold.
  destruct Hfold as (depth' & Hvis).
  { exists depth. split; cbn [paths visited queue]; try done.
    - intros v Hv. destruct (Hwait v Hv) as [?|(it & Hit & Hid)]; [by left|].
      rewrite Hq in Hit. apply elem_of_cons in Hit as [->|Hit]; [by right; left|].
      right. right. by exists it.
    - intros it Hit. apply Hqueue. rewrite Hq. by right.
    - by exists B.
    - by intros e ?%elem_of_nil. }
  { intros pre e s [d Hd] _. by apply (visit_levels g startID endID hd A finished pre s d). }
  set (st' := foldl _ _ _) in *.
  destruct Hvis as [Hmarked' Hstart' Hend' Hfin' Hcur' Hwait' Hqueue' (B' & HAB' & HB')
                    Hbound' Hedges' Hseen'].
  exists depth', ({[item_id hd]} ∪ finished).
  split; try done.
  - intros v [->%elem_of_singleton|Hv]%elem_of_union; [|by apply Hfin'].
    apply Hmarked'. by eexists.
  - intros v Hv. destruct (Hwait' v Hv) as [?|[->|?]].
    + left. by apply elem_of_union_r.
    + left. by apply elem_of_union_l, elem_of_singleton.
    + by right.
  - intros hd' rest' Hq'. rewrite HAB' in Hq'.
    destruct A as [|a A'].
    + cbn [app] in Hq'. subst B'. apply Forall_cons in HB' as [Hlen HB'].
      exists rest', []. rewrite app_nil_r. split; [done|].
      split; [by rewrite Hlen|]. split; [done|].
      intros v n Hn. specialize (Hbound' v n Hn). lia.
    + injection Hq' as <- <-. apply Forall_cons in HA as [Hlen HA].
      exists A', B'. split; [done|]. rewrite Hlen. by split.
  - intros u n e [->%elem_of_singleton|Hu]%elem_of_union Hn He Hs;
      [|by apply (Hedges' u n e)].
    rewrite Hcur' in Hn. injection Hn as <-.
    apply Hseen'. by apply GetEdgesFromNode_elem.
Qed.

Lemma levels_initial g startID endID :
  startID ≠ endID →
  levels_ok g startID endID
    (mkSearch nil_slice {[startID]} [mkItem startID [startID]]) {[startID := 1]} ∅.
Proof.
  intros Hne. split; cbn [paths visited queue].
  - intros v. rewrite elem_of_singleton. split.
    + intros ->. rewrite lookup_singleton_eq. by eexists.
    + intros [n [-> _]%lookup_singleton_Some]. done.
  - apply lookup_singleton_eq.
  - rewrite not_elem_of_singleton. congruence.
  - intros v Hv. by apply not_elem_of_empty in Hv.
  - intros v ->%elem_of_singleton. right. eexists. split; [left|done].
  - intros it ->%list_elem_of_singleton. apply lookup_singleton_eq.
  - intros hd rest [= <- <-]. exists [], []. split; [done|]. split; [done|].
    split; [done|]. intros v n [_ <-]%lookup_singleton_Some. cbn. lia.
  - intros u n e Hu. by apply not_elem_of_empty in Hu.
Qed.

(** When the loop stops, a path within the bound has been recorded if one
    exists. *)
Lemma levels_exit g startID endID maxDepth st depth finished :
  levels_ok g startID endID st depth finished →
  (∀ hd rest, queue st = hd :: rest →
     ¬ (Z.of_nat (length (item_path hd)) ≤ maxDepth)%Z) →
  (∃ p, path_within g startID endID maxDepth p) →
  elems (paths st) ≠ [].
Proof.
  intros [Hmarked Hstart Hend Hfin Hwait Hqueue Horder Hedges] Hstop
    (p & Hhd & Hlast & Hwalk & Hlen).
  assert (Hdone : ∀ a n, depth !! a = Some n → (Z.of_nat n ≤ maxDepth)%Z → a ∈ finished).
  { intros a n Ha Hn.
    destruct (Hwait a) as [?|(it & Hit & Hid)]; [apply Hmarked; by eexists|done|].
    destruct (queue st) as [|hd rest] eqn:Hq; [by apply elem_of_nil in Hit|].
    specialize (Hstop hd rest eq_refl).
    destruct (Horder hd rest eq_refl) as (A & B & -> & HA & HB & _).
    pose proof (Hqueue it Hit) as Hd. rewrite Hid, Ha in Hd. injection Hd as ->.
    apply elem_of_cons in Hit as [->|[Hit|Hit]%elem_of_app]; [lia| |].
    - rewrite Forall_forall in HA. rewrite (HA it Hit) in Hn. lia.
    - rewrite Forall_forall in HB. rewrite (HB it Hit) in Hn. lia. }
  assert (Hreach : ∀ q a n, walk g q → head q = Some a → depth !! a = Some n →
            last q = Some endID →
            (Z.of_nat (length q) + Z.of_nat n ≤ maxDepth + 2)%Z →
            elems (paths st) ≠ []).
  { induction q as [|x q IH]; intros a n Hw Hh Ha Hl Hb; [done|].
    injection Hh as ->. destruct q as [|y q].
    - injection Hl as ->. destruct Hend. apply Hmarked. by eexists.
    - destruct Hw as [(e & He & Hs & Ht) Hw].
      assert (a ∈ finished) as Hfa.
      { apply (Hdone a n Ha). cbn [length] in Hb. lia. }
      destruct (Hedges a n e Hfa Ha He Hs) as [[_ ?]|(m & Hm & Hle)]; [done|].
      rewrite Ht in Hm. apply (IH y m Hw eq_refl Hm).
      + by rewrite last_cons_cons in Hl.
      + cbn [length] in *. lia. }
  apply (Hreach p startID 1 Hwalk Hhd Hstart Hlast). lia.
Qed.

Lemma bfs_complete g startID endID maxDepth fuel :
  ∀ st depth finished res,
    levels_ok g startID endID st depth finished →
    bfs fuel g endID maxDepth st = Some res →
    (∃ p, path_within g startID endID maxDepth p) →
    elems res ≠ [].
Proof.
  induction fuel as [|fuel IH]; intros st depth finished res Hok Hres Hpath.
  - destruct st as [ps vs [|hd rest]]; cbn in Hres.
    + injection Hres as <-. apply (levels_exit g startID endID maxDepth _ _ _ Hok); [|done].
      by intros hd rest [=].
    + destruct (bool_decide_reflect (Z.of_nat (length (item_path hd)) ≤ maxDepth)%Z)
        as [|Hstop]; [done|].
      injection Hres as <-. apply (levels_exit g startID endID maxDepth _ _ _ Hok); [|done].
      by intros hd' rest' [= <- <-].
  - destruct st as [ps vs [|hd rest]]; cbn [bfs queue paths visited] in Hres.
    + injection Hres as <-. apply (levels_exit g startID endID maxDepth _ _ _ Hok); [|done].
      by intros hd rest [=].
    + destruct (bool_decide_reflect (Z.of_nat (length (item_path hd)) ≤ maxDepth)%Z)
        as [_|Hstop].
      * destruct (turn_levels g startID endID _ depth finished hd rest Hok eq_refl)
          as (depth' & finished' & Hok').
        by apply (IH _ depth' finished' res Hok' Hres).
      * injection Hres as <-.
        apply (levels_exit g startID endID maxDepth _ _ _ Hok); [|done].
        by intros hd' rest' [= <- <-].
Qed.

(** X20. For two distinct registered ids, [FindPaths] returns a path
    exactly when one exists: its result is not empty if and only if some
    chain of stored edges, followed in their direction and at most
    [maxDepth] long, leads from [startID] to [endID].  Marking the
    intermediate nodes early loses paths, but never all of them. *)
Theorem FindPaths_finds_a_path g startID endID maxDepth :
  is_Some (nodes g !! startID) → is_Some (nodes g !! endID) → startID ≠ endID →
  ∃ res, FindPaths g startID endID maxDepth = Some res
    ∧ (elems res ≠ [] ↔ ∃ p, path_within g startID endID maxDepth p).
Proof.
  intros Hs He Hne.
  destruct (FindPaths_distinct g startID endID maxDepth Hs He Hne)
    as (res & Hres & Hall & _).
  exists res. split; [done|]. split.
  - intros Hnonempty. destruct (elems res) as [|p ps]; [done|].
    destruct (Hall p) as [(? & ? & ? & ?) ?]; [left|].
    exists p. by repeat split.
  - intros Hpath. destruct Hs as [ns Hs], He as [ne He].
    unfold FindPaths in Hres. rewrite Hs, He, (bool_decide_eq_false_2 _ Hne) in Hres.
    apply (bfs_complete g startID endID maxDepth _ _ _ _ res
             (levels_initial g startID endID Hne) Hres Hpath).
Qed.

End search_complete.

(** ** What an exported document holds *)
Section export_records.
Context {Value : Type} `{!Codec Value}.
Implicit Types (g : OpenGraph Value) (n : node.Node Value) (e : edge.Edge Value).

Lemma mapM_lookup {A B} (f : A → option B) (l : list A) (k : list B) i x :
  mapM f l = Some k → l !! i = Some x → ∃ y, f x = Some y ∧ k !! i = Some y.
Proof.
  intros HM%mapM_Some Hx.
  destruct (Forall2_lookup_l _ _ _ _ _ HM Hx) as (y & Hy & Hf). by exists y.
Qed.

Lemma node_ToDict_properties n :
  node.ToDict n !! "properties"
  = Some (DProps (properties.entries (node.properties n))).
Proof.
  unfold node.ToDict. rewrite lookup_insert_ne by (intros [=]).
  rewrite lookup_insert_ne by (intros [=]).
  rewrite lookup_insert_eq. by rewrite GetAllProperties_copy.
Qed.

Lemma marshal_node_inv n j :
  marshalMap marshalDyn (node.ToDict n) = Some j →
  map_Forall (fun _ v => is_Some (marshalValue v))
             (properties.entries (node.properties n)).
Proof.
  intros [_ Hall]%marshalMap_Some.
  destruct (Hall _ _ (node_ToDict_properties n)) as [jp Hjp].
  cbn [marshalDyn] in Hjp. apply marshalMap_Some in Hjp as [_ Hvals].
  apply map_Forall_lookup. intros k v Hk. by apply (Hvals k).
Qed.

Lemma edge_ToDict_properties e :
  edge.ToDict e !! "properties"
  = if bool_decide (0 < properties.Len (edge.properties e))
    then Some (DProps (properties.entries (edge.properties e))) else None.
Proof.
  unfold edge.ToDict, properties.ToDict, properties.Len.
  rewrite GetAllProperties_copy.
  destruct (bool_decide (0 < size (properties.entries (edge.properties e)))).
  - apply lookup_insert_eq.
  - rewrite lookup_insert_ne by (intros [=]).
    rewrite lookup_insert_ne by (intros [=]).
    rewrite lookup_insert_ne by (intros [=]).
    apply lookup_empty.
Qed.

Lemma marshal_edge_inv e j :
  marshalMap marshalDyn (edge.ToDict e) = Some j →
  map_Forall (fun _ v => is_Some (marshalValue v))
             (properties.entries (edge.properties e)).
Proof.
  intros [_ Hall]%marshalMap_Some.
  pose proof (edge_ToDict_properties e) as Hp.
  destruct (bool_decide_reflect (0 < properties.Len (edge.properties e))) as [Hlen|Hlen].
  - destruct (Hall _ _ Hp) as [jp Hjp].
    cbn [marshalDyn] in Hjp. apply marshalMap_Some in Hjp as [_ Hvals].
    apply map_Forall_lookup. intros k v Hk. by apply (Hvals k).
  - unfold properties.Len in Hlen.
    assert (Hempty : properties.entries (edge.properties e) = ∅).
    { apply map_size_empty_inv. lia. }
    rewrite Hempty. apply map_Forall_empty.
Qed.

(** X21. [ExportJSON] fails exactly when the encoder refuses a property
    value of a registered node or of a stored edge; nothing else about the
    graph, and not [includeMetadata], can make it fail. *)
Theorem ExportJSON_succeeds_iff g order includeMetadata :
  order ≡ₚ (map_to_list (nodes g)).*2 →
  is_Some (ExportJSONIn order g includeMetadata)
  ↔ (∀ k n, nodes g !! k = Some n →
       map_Forall (fun _ v => is_Some (marshalValue v))
                  (properties.entries (node.properties n)))
    ∧ (∀ e, e ∈ edges g →
         map_Forall (fun _ v => is_Some (marshalValue v))
                    (properties.entries (edge.properties e))).
Proof.
  intros Hperm. split.
  - intros [doc Hdoc].
    destruct (ExportJSONIn_Some _ _ _ _ Hdoc)
      as (top & content & nodesArr & edgesArr & _ & _ & _ & HN & _ & HE & _).
    split.
    + intros k n Hk.
      assert (Hn : n ∈ order) by (apply (order_nodes g order n Hperm); by exists k).
      apply list_elem_of_lookup in Hn as [i Hi].
      assert (Hd : (node.ToDict <$> order) !! i = Some (node.ToDict n))
        by (by rewrite list_lookup_fmap, Hi).
      destruct (mapM_lookup _ _ _ _ _ HN Hd) as (y & Hy & _).
      by apply (marshal_node_inv n y).
    + intros e He.
      apply list_elem_of_lookup in He as [i Hi].
      assert (Hd : (edge.ToDict <$> edges g) !! i = Some (edge.ToDict e))
        by (by rewrite list_lookup_fmap, Hi).
      destruct (mapM_lookup _ _ _ _ _ HE Hd) as (y & Hy & _).
      by apply (marshal_edge_inv e y).
  - intros [Hns Hes]. apply ExportJSONIn_returns; [|done].
    intros n [k Hk]%(order_nodes g order n Hperm). by apply (Hns k).
Qed.

Lemma lookup_omap_Some {A B} (f : A → option B) (m : gmap string A) k a b :
  m !! k = Some a → f a = Some b → omap f m !! k = Some b.
Proof. intros Hk Hf. rewrite lookup_omap, Hk. exact Hf. Qed.

Lemma marshal_entries (m : gmap string Value) :
  map_Forall (fun _ v => is_Some (marshalValue v)) m →
  marshalDyn (DProps m) = Some (JObject (writeMembers (omap marshalValue m))).
Proof.
  intros Hall. cbn [marshalDyn]. apply marshalMap_is_Some.
  intros k a Hk. by apply (map_Forall_lookup_1 _ _ _ _ Hall Hk).
Qed.

Lemma endpoint_marshal (v : string) :
  marshalDyn (DStringMap (<["value" := v]> (<["match_by" := "id"]> ∅)) : Dyn Value)
  = Some (JObject (<["value" := JString (coerceUTF8 v)]>
                    (<["match_by" := JString "id"]> ∅))).
Proof.
  cbn [marshalDyn]. rewrite writeMembers_fmap by literal_keys.
  rewrite !fmap_insert, fmap_empty. unfold marshalString. do 3 f_equal.
Qed.

Lemma edge_ToDict_base e k d :
  k ≠ "properties" →
  (<["kind" := DString (edge.kind e)]>
   (<["start" := DStringMap (<["value" := edge.startNodeID e]> (<["match_by" := "id"]> ∅))]>
   (<["end" := DStringMap (<["value" := edge.endNodeID e]> (<["match_by" := "id"]> ∅))]> ∅))
   : gmap string (Dyn Value)) !! k = Some d →
  edge.ToDict e !! k = Some d.
Proof.
  intros Hk Hd. unfold edge.ToDict.
  destruct (bool_decide _); [|exact Hd].
  rewrite lookup_insert_ne by (intros Heq; apply Hk; by rewrite Heq). exact Hd.
Qed.

(** X22. In every document that [ExportJSON] produces, the "nodes" array
    holds exactly one object per node, in the order in which the node map
    was ranged over, and the "edges" array exactly one object per edge, in
    insertion order.  Strings are written as the encoder writes them, each
    byte that is not part of a well-formed UTF-8 sequence replaced by
    U+FFFD.  A node object has the id, the kinds as an array (never null)
    and the member "properties", an object with the encoded values, also
    when the node has no property.  An edge object has the kind and the two
    endpoints, each as the object with "value" and "match_by": "id"; it has
    the member "properties" only when the edge has a property.  When the
    keys of a property set are valid UTF-8, its object has exactly these
    keys, each with the encoded value. *)
Theorem ExportJSON_records g order includeMetadata doc :
  ExportJSONIn order g includeMetadata = Some doc →
  ∃ top content nodesArr edgesArr,
    doc = JObject top
    ∧ top !! "graph" = Some (JObject content)
    ∧ content !! "nodes" = Some (JArray nodesArr)
    ∧ content !! "edges" = Some (JArray edgesArr)
    ∧ length nodesArr = length order
    ∧ length edgesArr = length (edges g)
    ∧ (∀ i n, order !! i = Some n →
         ∃ rec, nodesArr !! i = Some (JObject rec)
           ∧ rec !! "id" = Some (JString (coerceUTF8 (node.id n)))
           ∧ rec !! "kinds"
             = Some (JArray (JString <$> (coerceUTF8 <$> node.kinds n)))
           ∧ rec !! "properties"
             = Some (JObject (writeMembers
                 (omap marshalValue (properties.entries (node.properties n))))))
    ∧ (∀ i e, edges g !! i = Some e →
         ∃ rec, edgesArr !! i = Some (JObject rec)
           ∧ rec !! "kind" = Some (JString (coerceUTF8 (edge.kind e)))
           ∧ rec !! "start"
             = Some (JObject (<["value" := JString (coerceUTF8 (edge.startNodeID e))]>
                               (<["match_by" := JString "id"]> ∅)))
           ∧ rec !! "end"
             = Some (JObject (<["value" := JString (coerceUTF8 (edge.endNodeID e))]>
                               (<["match_by" := JString "id"]> ∅)))
           ∧ rec !! "properties"
             = if bool_decide (0 < properties.Len (edge.properties e))
               then Some (JObject (writeMembers
                      (omap marshalValue (properties.entries (edge.properties e)))))
               else None)
    ∧ (∀ p : gmap string Value,
         (∀ k, is_Some (p !! k) → ValidString k = true) →
         writeMembers (omap marshalValue p) = omap marshalValue p).
Proof.
  intros Hdoc.
  destruct (ExportJSONIn_Some _ _ _ _ Hdoc)
    as (top & content & nodesArr & edgesArr & -> & Hg & Hn & HN & He & HE & _).
  exists top, content, nodesArr, edgesArr.
  do 4 (split; [assumption || reflexivity|]).
  split; [|split; [|split; [|split]]].
  - apply mapM_Some, Forall2_length in HN. by rewrite length_fmap in HN.
  - apply mapM_Some, Forall2_length in HE. by rewrite length_fmap in HE.
  - intros i n Hi.
    assert (Hd : (node.ToDict <$> order) !! i = Some (node.ToDict n))
      by (by rewrite list_lookup_fmap, Hi).
    destruct (mapM_lookup _ _ _ _ _ HN Hd) as (y & Hy & Hyi).
    pose proof (marshal_node_inv n y Hy) as Hvals.
    apply marshalMap_Some in Hy as [-> _].
    rewrite (writeMembers_omap _ _ (node_ToDict_keys n)) in Hyi.
    exists (omap marshalDyn (node.ToDict n)). split; [exact Hyi|].
    split; [|split].
    + apply (lookup_omap_Some _ _ _ (DString (node.id n))); [|reflexivity].
      unfold node.ToDict. apply lookup_insert_eq.
    + apply (lookup_omap_Some _ _ _ (DStrings (mk_slice ([] ++ node.kinds n)))).
      * unfold node.ToDict. rewrite lookup_insert_ne by (intros [=]).
        apply lookup_insert_eq.
      * cbn [marshalDyn marshalStrings app]. do 2 f_equal.
        by rewrite <- list_fmap_compose.
    + apply (lookup_omap_Some _ _ _ _ _ (node_ToDict_properties n)).
      by apply marshal_entries.
  - intros i e Hi.
    assert (Hd : (edge.ToDict <$> edges g) !! i = Some (edge.ToDict e))
      by (by rewrite list_lookup_fmap, Hi).
    destruct (mapM_lookup _ _ _ _ _ HE Hd) as (y & Hy & Hyi).
    pose proof (marshal_edge_inv e y Hy) as Hvals.
    apply marshalMap_Some in Hy as [-> _].
    rewrite (writeMembers_omap _ _ (edge_ToDict_keys e)) in Hyi.
    exists (omap marshalDyn (edge.ToDict e)). split; [exact Hyi|].
    split; [|split; [|split]].
    + apply (lookup_omap_Some _ _ _ (DString (edge.kind e))); [|reflexivity].
      apply edge_ToDict_base; [intros [=]|]. apply lookup_insert_eq.
    + apply (lookup_omap_Some _ _ _ _ _
               (edge_ToDict_base e "start" _ ltac:(intros [=]) eq_refl)).
      apply endpoint_marshal.
    + apply (lookup_omap_Some _ _ _ _ _
               (edge_ToDict_base e "end" _ ltac:(intros [=]) eq_refl)).
      apply endpoint_marshal.
    + rewrite lookup_omap, edge_ToDict_properties.
      destruct (bool_decide _); [|reflexivity].
      cbn [mbind option_bind]. by apply marshal_entries.
  - intros p Hp. apply writeMembers_omap. intros k Hk.
    by apply ValidString_coerceUTF8, Hp.
Qed.

End export_records.

(** ** Incident edges, node properties and the size of a property set *)
Section incident_facts.
Context {Value : Type} `{!Reflect Value}.
Implicit Types (g : OpenGraph Value) (n : node.Node Value) (e : edge.Edge Value).

Lemma filter_snoc {A} (f : A → bool) (l : list A) (x : A) :
  List.filter f (l ++ [x]) = List.filter f l ++ (if f x then [x] else []).
Proof. rewrite List.filter_app. cbn [List.filter]. by destruct (f x). Qed.

Lemma filter_filter_nil {A} (f h : A → bool) (l : list A) :
  (∀ x, h x = true → f x = false) → List.filter f (List.filter h l) = [].
Proof.
  intros Hfh. induction l as [|x l IH]; [done|]. cbn [List.filter].
  destruct (h x) eqn:Hx; [|done]. cbn [List.filter]. by rewrite (Hfh x Hx).
Qed.

Lemma filter_filter_comm {A} (f h : A → bool) (l : list A) :
  List.filter f (List.filter h l) = List.filter h (List.filter f l).
Proof.
  induction l as [|x l IH]; [done|]. cbn [List.filter].
  destruct (h x) eqn:Hx, (f x) eqn:Fx; cbn [List.filter];
    rewrite ?Hx, ?Fx, IH; done.
Qed.

Lemma filter_filter_and {A} (f h : A → bool) (l : list A) :
  List.filter (fun x => f x && h x) l = List.filter h (List.filter f l).
Proof.
  induction l as [|x l IH]; [done|]. cbn [List.filter].
  destruct (f x) eqn:Fx; cbn [andb List.filter]; [|done].
  destruct (h x); by rewrite IH.
Qed.

Lemma filter_same {A} (f : A → bool) (l : list A) :
  (∀ x, x ∈ l → f x = true) → List.filter f l = l.
Proof.
  induction l as [|x l IH]; intros Hall; [done|]. cbn [List.filter].
  rewrite (Hall x) by left. rewrite IH; [done|]. intros y Hy. apply Hall. by right.
Qed.

(** X23. How the incident-edge queries follow the mutators.  An [AddEdge]
    that succeeds puts the edge last among the edges from its start and last
    among the edges to its end, and changes the answer for no other id.
    After [RemoveNodeByID] of a registered id no edge from or to that id is
    left, and for every other id the answers are the former ones without
    the edges that touched the removed id. *)
Theorem incident_edges_follow g e id :
  ((AddEdge g e).1 = true →
     GetEdgesFromNode (AddEdge g e).2 (edge.startNodeID e)
     = GetEdgesFromNode g (edge.startNodeID e) ++ [e]
     ∧ GetEdgesToNode (AddEdge g e).2 (edge.endNodeID e)
       = GetEdgesToNode g (edge.endNodeID e) ++ [e]
     ∧ (∀ x, x ≠ edge.startNodeID e →
          GetEdgesFromNode (AddEdge g e).2 x = GetEdgesFromNode g x)
     ∧ (∀ x, x ≠ edge.endNodeID e →
          GetEdgesToNode (AddEdge g e).2 x = GetEdgesToNode g x))
  ∧ (is_Some (nodes g !! id) →
     GetEdgesFromNode (RemoveNodeByID g id).2 id = []
     ∧ GetEdgesToNode (RemoveNodeByID g id).2 id = []
     ∧ (∀ x, x ≠ id →
          GetEdgesFromNode (RemoveNodeByID g id).2 x
          = List.filter (fun e' => negb (bool_decide (edge.endNodeID e' = id)))
                        (GetEdgesFromNode g x))
     ∧ (∀ x, x ≠ id →
          GetEdgesToNode (RemoveNodeByID g id).2 x
          = List.filter (fun e' => negb (bool_decide (edge.startNodeID e' = id)))
                        (GetEdgesToNode g x))).
Proof.
  split.
  - intros Hok.
    assert (Hg : (AddEdge g e).2 = mkOpenGraph (nodes g) (edges g ++ [e]) (sourceKind g)).
    { revert Hok. unfold AddEdge, AddEdgeWithoutValidation.
      destruct (nodes g !! edge.GetStartNodeID e); [|done].
      destruct (nodes g !! edge.GetEndNodeID e); [|done].
      by destruct (existsb _ (edges g)). }
    rewrite Hg. unfold GetEdgesFromNode, GetEdgesToNode, edge.GetStartNodeID,
      edge.GetEndNodeID. cbn [edges]. rewrite !filter_snoc.
    rewrite !bool_decide_eq_true_2 by done. split; [done|]. split; [done|].
    split; intros x Hx; rewrite filter_snoc, bool_decide_eq_false_2 by done;
      by rewrite app_nil_r.
  - intros [n Hn]. unfold RemoveNodeByID. rewrite Hn. cbn [snd].
    unfold GetEdgesFromNode, GetEdgesToNode, edge.GetStartNodeID, edge.GetEndNodeID.
    cbn [edges]. split; [|split; [|split]].
    + apply filter_filter_nil. intros x [Hs _]%andb_prop.
      apply negb_true_iff in Hs. exact Hs.
    + apply filter_filter_nil. intros x [_ He]%andb_prop.
      apply negb_true_iff in He. exact He.
    + intros x Hx.
      rewrite (filter_filter_and
        (fun e' => negb (bool_decide (edge.startNodeID e' = id)))
        (fun e' => negb (bool_decide (edge.endNodeID e' = id)))).
      rewrite filter_filter_comm. f_equal.
      rewrite filter_filter_comm. apply filter_same.
      intros e' He'. apply list_elem_of_In, List.filter_In in He' as [_ He'].
      apply bool_decide_eq_true in He'. apply negb_true_iff, bool_decide_eq_false.
      congruence.
    + intros x Hx.
      rewrite (filter_filter_and
        (fun e' => negb (bool_decide (edge.startNodeID e' = id)))
        (fun e' => negb (bool_decide (edge.endNodeID e' = id)))).
      rewrite (filter_filter_comm
        (fun e' => negb (bool_decide (edge.endNodeID e' = id)))
        (fun e' => negb (bool_decide (edge.startNodeID e' = id)))).
      rewrite (filter_filter_comm
        (fun e' => bool_decide (edge.endNodeID e' = x))
        (fun e' => negb (bool_decide (edge.startNodeID e' = id)))).
      f_equal.
      rewrite (filter_filter_comm
        (fun e' => bool_decide (edge.endNodeID e' = x))
        (fun e' => negb (bool_decide (edge.endNodeID e' = id)))).
      apply filter_same.
      intros e' He'. apply list_elem_of_In, List.filter_In in He' as [_ He'].
      apply bool_decide_eq_true in He'. apply negb_true_iff, bool_decide_eq_false.
      congruence.
Qed.


(** X25. [Len] counts the keys: a [SetProperty] that returns adds one when
    the key was absent and nothing when it overwrites; [ToDict] then is the
    former dictionary with the key bound to the value; [Clear] leaves no key
    and length 0. *)
Theorem Properties_Len_counts (p p' : properties.Properties Value) key value :
  properties.SetProperty p key value = Returns p' →
  properties.Len p'
  = (if properties.Contains p key then properties.Len p else S (properties.Len p))
  ∧ properties.Contains p' key = true
  ∧ properties.ToDict p' = <[key := value]> (properties.ToDict p)
  ∧ properties.Len (properties.Clear p') = 0
  ∧ (∀ k, properties.Contains (properties.Clear p') k = false)
  ∧ properties.ToDict (properties.Clear p') = ∅.
Proof.
  unfold properties.SetProperty.
  destruct (properties.IsPropertyValueValid value); [|done]. intros [= <-].
  unfold properties.Len, properties.Contains, properties.HasProperty, properties.ToDict,
    properties.Clear.
  rewrite !GetAllProperties_copy. cbn [properties.entries].
  split; [|split; [|split; [done|split; [apply map_size_empty|split]]]].
  - destruct (bool_decide_reflect (is_Some (properties.entries p !! key))) as [Hin|Hout].
    + by apply map_size_insert_Some.
    + apply map_size_insert_None. by apply eq_None_not_Some.
  - apply bool_decide_eq_true_2. rewrite lookup_insert_eq. by eexists.
  - intros k. apply bool_decide_eq_false_2. rewrite lookup_empty. by intros [? ?].
  - done.
Qed.

End incident_facts.

(** ** Further scenarios *)

Lemma chainGraph_assembled : assembled chainGraph.
Proof.
  unfold chainGraph. cbv zeta.
  eapply assembled_edge; [|apply testEdge_constructed; intros [=]].
  eapply assembled_edge; [|apply testEdge_constructed; intros [=]].
  eapply assembled_node; [|apply testNode_constructed; intros [=]].
  eapply assembled_node; [|apply testNode_constructed; intros [=]].
  eapply assembled_node; [|apply testNode_constructed; intros [=]].
  apply assembled_new.
Qed.

Lemma chainGraph_registered : registered chainGraph.
Proof.
  destruct (assembled_validated chainGraph chainGraph_assembled) as [_ [Hreg _]].
  exact Hreg.
Qed.

(** X10 on the path-test graph and a fourth node. *)
Lemma RemoveNodeByID_AddNode_witness :
  registered chainGraph
  ∧ nodes chainGraph !! node.id (testNode "4" ["node4"]) = None
  ∧ RemoveNodeByID (AddNode chainGraph (testNode "4" ["node4"])).2
      (node.id (testNode "4" ["node4"]))
    = (true, chainGraph).
Proof.
  assert (Hfree : nodes chainGraph !! node.id (testNode "4" ["node4"]) = None)
    by (vm_compute; reflexivity).
  split; [exact chainGraph_registered|]. split; [exact Hfree|].
  exact (RemoveNodeByID_AddNode chainGraph (testNode "4" ["node4"])
           chainGraph_registered Hfree).
Defined.

(** X11 on the path-test graph: the edge 1 -> 3, then the same triple with
    a property. *)
Lemma AddEdge_twice_witness :
  triple (edge.mk "1" "3" "CONNECTS_TO" (properties.mk (<["weight" := SInt 10]> ∅)))
  = triple (testEdge "1" "3" "CONNECTS_TO")
  ∧ AddEdge (AddEdge chainGraph (testEdge "1" "3" "CONNECTS_TO")).2
      (edge.mk "1" "3" "CONNECTS_TO" (properties.mk (<["weight" := SInt 10]> ∅)))
    = (false, (AddEdge chainGraph (testEdge "1" "3" "CONNECTS_TO")).2).
Proof.
  assert (Htriple :
    triple (edge.mk "1" "3" "CONNECTS_TO" (properties.mk (<["weight" := SInt 10]> ∅)))
    = triple (testEdge "1" "3" "CONNECTS_TO")) by reflexivity.
  split; [exact Htriple|].
  exact (AddEdge_twice chainGraph (testEdge "1" "3" "CONNECTS_TO")
           (edge.mk "1" "3" "CONNECTS_TO" (properties.mk (<["weight" := SInt 10]> ∅)))
           Htriple).
Defined.

(** X14 on the path-test graph and the kind of its middle node. *)
Lemma GetNodesByKind_spec_witness :
  (map_to_list (nodes chainGraph)).*2 ≡ₚ (map_to_list (nodes chainGraph)).*2
  ∧ elems (GetNodesByKind chainGraph "node2") = [testNode "2" ["node2"; "test"]]
  ∧ (∀ n, n ∈ elems (GetNodesByKind chainGraph "node2")
          ↔ (∃ k, nodes chainGraph !! k = Some n) ∧ "node2" ∈ node.kinds n).
Proof.
  split; [reflexivity|].
  split; [vm_compute; reflexivity|].
  exact (proj1 (proj2 (GetNodesByKind_spec chainGraph
                         (map_to_list (nodes chainGraph)).*2 "node2" (reflexivity _)))).
Defined.


(** X16 on the graph that holds one edge and no node: both ends are
    reported. *)
Lemma ValidateGraph_findings_witness :
  (map_to_list (nodes orphanGraph)).*1 ≡ₚ (map_to_list (nodes orphanGraph)).*1
  ∧ testEdge "a" "b" "Knows" ∈ edges orphanGraph
  ∧ nodes orphanGraph !! "a" = None
  ∧ "Edge Knows references non-existent start node: a"
      ∈ elems (ValidateGraph orphanGraph).
Proof.
  assert (He : testEdge "a" "b" "Knows" ∈ edges orphanGraph)
    by (apply list_elem_of_singleton; reflexivity).
  assert (Ha : nodes orphanGraph !! "a" = None) by (vm_compute; reflexivity).
  split; [reflexivity|]. split; [exact He|]. split; [exact Ha|].
  exact (proj1 (proj2 (ValidateGraph_findings orphanGraph
                         (map_to_list (nodes orphanGraph)).*1 (reflexivity _)))
           (testEdge "a" "b" "Knows") He Ha).
Defined.

(** X17 on the path-test graph, where no node is isolated, and on the two
    nodes without an edge. *)
Lemma ValidateGraph_registered_witness :
  registered chainGraph
  ∧ (map_to_list (nodes chainGraph)).*1 ≡ₚ (map_to_list (nodes chainGraph)).*1
  ∧ ValidateGraph chainGraph
    = match List.filter
              (fun id => bool_decide (length (GetEdgesFromNode chainGraph id) = 0)
                         && bool_decide (length (GetEdgesToNode chainGraph id) = 0))
              (map_to_list (nodes chainGraph)).*1 with
      | [] => nil_slice
      | isolated =>
        mk_slice ["Found " +:+ pretty (length isolated) +:+ " isolated nodes: "
                  +:+ sprintStrings isolated]
      end.
Proof.
  split; [exact chainGraph_registered|]. split; [reflexivity|].
  exact (ValidateGraph_registered chainGraph (map_to_list (nodes chainGraph)).*1
           chainGraph_registered (reflexivity _)).
Defined.

(** X18 on the graph of the component test. *)
Lemma GetConnectedComponents_partition_witness :
  (map_to_list (nodes pairsGraph)).*1 ≡ₚ (map_to_list (nodes pairsGraph)).*1
  ∧ ∃ comps, GetConnectedComponents pairsGraph = Some comps
    ∧ (∀ id, is_Some (nodes pairsGraph !! id) → ∃ C, C ∈ elems comps ∧ id ∈ C)
    ∧ (∀ i j C D, elems comps !! i = Some C → elems comps !! j = Some D →
         i ≠ j → C ## D)
    ∧ (∀ C, C ∈ elems comps → ∃ r, is_Some (nodes pairsGraph !! r) ∧ r ∈ C)
    ∧ (comps = nil_slice ↔ nodes pairsGraph = ∅)
    ∧ (registered pairsGraph →
       ∀ C x, C ∈ elems comps → x ∈ C → is_Some (nodes pairsGraph !! x)).
Proof.
  split; [reflexivity|].
  exact (GetConnectedComponents_partition pairsGraph
           (map_to_list (nodes pairsGraph)).*1 (reflexivity _)).
Defined.

(** X19 on the graph of the component test. *)
Lemma GetConnectedComponents_connectivity_witness :
  (map_to_list (nodes pairsGraph)).*1 ≡ₚ (map_to_list (nodes pairsGraph)).*1
  ∧ GetConnectedComponents pairsGraph
    = Some (default nil_slice (GetConnectedComponents pairsGraph))
  ∧ ∀ C a b, C ∈ elems (default nil_slice (GetConnectedComponents pairsGraph)) →
      a ∈ C → (b ∈ C ↔ connected pairsGraph a b).
Proof.
  assert (Hres : GetConnectedComponents pairsGraph
                 = Some (default nil_slice (GetConnectedComponents pairsGraph)))
    by (vm_compute; reflexivity).
  split; [reflexivity|]. split; [exact Hres|].
  exact (GetConnectedComponents_connectivity pairsGraph
           (map_to_list (nodes pairsGraph)).*1
           (default nil_slice (GetConnectedComponents pairsGraph))
           (reflexivity _) Hres).
Defined.

(** X20 on the path-test graph. *)
Lemma FindPaths_finds_a_path_witness :
  is_Some (nodes chainGraph !! "1") ∧ is_Some (nodes chainGraph !! "3")
  ∧ "1" ≠ "3"
  ∧ ∃ res, FindPaths chainGraph "1" "3" 2 = Some res
    ∧ (elems res ≠ [] ↔ ∃ p, path_within chainGraph "1" "3" 2 p).
Proof.
  assert (H1 : is_Some (nodes chainGraph !! "1")) by (eexists; vm_compute; reflexivity).
  assert (H3 : is_Some (nodes chainGraph !! "3")) by (eexists; vm_compute; reflexivity).
  assert (Hne : "1" ≠ "3") by (intros [=]).
  do 3 (split; [assumption|]).
  exact (FindPaths_finds_a_path chainGraph "1" "3" 2 H1 H3 Hne).
Defined.

(** X21 on the graph of the repository's example. *)
Lemma ExportJSON_succeeds_iff_witness :
  (map_to_list (nodes minimalGraph)).*2 ≡ₚ (map_to_list (nodes minimalGraph)).*2
  ∧ (is_Some (ExportJSON minimalGraph true)
     ↔ (∀ k n, nodes minimalGraph !! k = Some n →
          map_Forall (fun _ v => is_Some (marshalValue v))
                     (properties.entries (node.properties n)))
       ∧ (∀ e, e ∈ edges minimalGraph →
            map_Forall (fun _ v => is_Some (marshalValue v))
                       (properties.entries (edge.properties e)))).
Proof.
  split; [reflexivity|].
  exact (ExportJSON_succeeds_iff minimalGraph (map_to_list (nodes minimalGraph)).*2 true
           (reflexivity _)).
Defined.

(** X22 on the graph of the repository's example. *)
Lemma ExportJSON_records_witness :
  ExportJSON minimalGraph true = Some (default JNull (ExportJSON minimalGraph true))
  ∧ ∃ top content nodesArr edgesArr,
      default JNull (ExportJSON minimalGraph true) = JObject top
      ∧ top !! "graph" = Some (JObject content)
      ∧ content !! "nodes" = Some (JArray nodesArr)
      ∧ content !! "edges" = Some (JArray edgesArr)
      ∧ length nodesArr = length (map_to_list (nodes minimalGraph)).*2
      ∧ length edgesArr = length (edges minimalGraph)
      ∧ (∀ i n, (map_to_list (nodes minimalGraph)).*2 !! i = Some n →
           ∃ rec, nodesArr !! i = Some (JObject rec)
             ∧ rec !! "id" = Some (JString (coerceUTF8 (node.id n)))
             ∧ rec !! "kinds"
               = Some (JArray (JString <$> (coerceUTF8 <$> node.kinds n)))
             ∧ rec !! "properties"
               = Some (JObject (writeMembers
                   (omap marshalValue (properties.entries (node.properties n))))))
      ∧ (∀ i e, edges minimalGraph !! i = Some e →
           ∃ rec, edgesArr !! i = Some (JObject rec)
             ∧ rec !! "kind" = Some (JString (coerceUTF8 (edge.kind e)))
             ∧ rec !! "start"
               = Some (JObject (<["value" := JString (coerceUTF8 (edge.startNodeID e))]>
                                 (<["match_by" := JString "id"]> ∅)))
             ∧ rec !! "end"
               = Some (JObject (<["value" := JString (coerceUTF8 (edge.endNodeID e))]>
                                 (<["match_by" := JString "id"]> ∅)))
             ∧ rec !! "properties"
               = if bool_decide (0 < properties.Len (edge.properties e))
                 then Some (JObject (writeMembers
                        (omap marshalValue (properties.entries (edge.properties e)))))
                 else None)
      ∧ (∀ p : gmap string Scalar,
           (∀ k, is_Some (p !! k) → ValidString k = true) →
           writeMembers (omap marshalValue p) = omap marshalValue p).
Proof.
  assert (Hdoc : ExportJSON minimalGraph true
                 = Some (default JNull (ExportJSON minimalGraph true)))
    by (vm_compute; reflexivity).
  split; [exact Hdoc|].
  exact (ExportJSON_records minimalGraph (map_to_list (nodes minimalGraph)).*2 true
           (default JNull (ExportJSON minimalGraph true)) Hdoc).
Defined.

(** X25 on the map of the property tests: overwriting "name" keeps the
    length, adding "active" raises it. *)
Lemma Properties_Len_counts_witness :
  properties.SetProperty (properties.mk nameAge) "name" (OfScalar (SString "other"))
  = Returns (properties.mk (<["name" := OfScalar (SString "other")]> nameAge))
  ∧ properties.Len (properties.mk (<["name" := OfScalar (SString "other")]> nameAge)) = 2
  ∧ properties.SetProperty (properties.mk nameAge) "active" (OfScalar (SBool true))
    = Returns (properties.mk (<["active" := OfScalar (SBool true)]> nameAge))
  ∧ properties.Len (properties.mk (<["active" := OfScalar (SBool true)]> nameAge)) = 3.
Proof.
  assert (Hname : properties.SetProperty (properties.mk nameAge) "name"
                    (OfScalar (SString "other"))
    = Returns (properties.mk (<["name" := OfScalar (SString "other")]> nameAge)))
    by reflexivity.
  assert (Hactive : properties.SetProperty (properties.mk nameAge) "active"
                      (OfScalar (SBool true))
    = Returns (properties.mk (<["active" := OfScalar (SBool true)]> nameAge)))
    by reflexivity.
  split; [exact Hname|].
  split; [exact (proj1 (Properties_Len_counts _ _ _ _ Hname))|].
  split; [exact Hactive|].
  exact (proj1 (Properties_Len_counts _ _ _ _ Hactive)).
Defined.
